(** * qtrlb: measurement post-processing and configuration managers

    A shallow embedding of [qtrlb/config/process_manager.py] and
    [qtrlb/config/variable_manager.py], and the properties of the
    heralding mask, of the routine dispatch, of the readout correction and
    of the derived configuration entries.

    Conventions of the embedding.
    - A Python call either returns, raises, or has not finished within the
      fuel it was given: [outcome].
    - Integer arrays (classifier labels, the heralding mask) are two
      dimensional arrays of Python integers, kept row by row with the number
      of columns ([shape[1]]) next to them: [ndarray].  Rows are
      repetitions, columns are sweep points.
    - Real-valued data (populations, matrices of the configuration) is kept
      in exact rational arithmetic ([rat]); rounding of floating point
      numbers is outside the model.
    - The functions of other libraries that the code calls, among them
      [np.linalg.solve], are parameters of the model; an exact solver is
      their instance in the concrete runs. *)

From HB Require Import structures.
From mathcomp Require Import boot algebra.
From Stdlib Require Import ZArith String Ascii DecimalString Lia.

Set Implicit Arguments.
Unset Strict Implicit.
Unset Printing Implicit Defensive.

HB.instance Definition _ := hasDecEq.Build Z Z.eqb_spec.
HB.instance Definition _ := hasDecEq.Build string String.eqb_spec.

(** ** Python outcomes *)

Module Py.

(** The exceptions the modelled code can raise. *)
Inductive exn :=
| AttributeError
| TypeError
| KeyError
| IndexError
| ValueError
| AssertionError
| LinAlgError.

Inductive outcome (A : Type) :=
| Return of A
| Raise of exn
| Timeout.

Arguments Return {A} _.
Arguments Raise {A} _.
Arguments Timeout {A}.

Definition bind {A B : Type} (m : outcome A) (k : A -> outcome B) : outcome B :=
  match m with
  | Return a => k a
  | Raise e => Raise e
  | Timeout => Timeout
  end.

Definition raises {A : Type} (m : outcome A) : bool :=
  if m is Raise _ then true else false.

(** What [.keys()] and [list(...)] give: both can be iterated, only the list
    can be subscripted.  Subscripting a keys view is a [TypeError]
    ('dict_keys' object is not subscriptable). *)
Inductive pyseq :=
| PyList of seq string
| PyDictKeys of seq string.

Definition iter (o : pyseq) : seq string :=
  match o with
  | PyList s => s
  | PyDictKeys s => s
  end.

Definition getitem (o : pyseq) (k : nat) : outcome string :=
  match o with
  | PyList s => if k < size s then Return (nth EmptyString s k) else Raise IndexError
  | PyDictKeys _ => Raise TypeError
  end.

(** A [dict] with string keys, in insertion order. *)
Definition dict (V : Type) := seq (string * V).

Fixpoint dict_get {V : Type} (d : dict V) (k : string) : outcome V :=
  if d is (k', v) :: d' then
    if k' == k then Return v else dict_get d' k
  else Raise KeyError.

Fixpoint dict_set {V : Type} (d : dict V) (k : string) (v : V) : dict V :=
  if d is (k', v') :: d' then
    if k' == k then (k, v) :: d' else (k', v') :: dict_set d' k v
  else [:: (k, v)].

Definition dict_mem {V : Type} (d : dict V) (k : string) : bool :=
  k \in unzip1 d.

Definition keys {V : Type} (d : dict V) : pyseq := PyDictKeys (unzip1 d).

(** [str.startswith] with a one character prefix. *)
Definition startswith (c : ascii) (s : string) : bool :=
  if s is String c' _ then Ascii.eqb c' c else false.

End Py.

Import Py.

Declare Scope py_scope.
Delimit Scope py_scope with py.
Notation "x <- m ;; k" := (bind m (fun x => k))
  (at level 100, m at next level, right associativity) : py_scope.
Local Open Scope py_scope.

(** ** Integer arrays and the truncation of the heralding mask *)

Module Mask.

Record ndarray := Ndarray { ncols : nat; rows : seq (seq Z) }.

(** Every row has [shape[1]] entries. *)
Definition well_shaped (a : ndarray) : bool :=
  all (fun r => size r == ncols a) (rows a).

Definition same_shape (a b : ndarray) : bool :=
  (ncols a == ncols b) && (size (rows a) == size (rows b)).

(** [a[:, i]] *)
Definition column (a : ndarray) (i : nat) : seq Z :=
  [seq nth 0%Z r i | r <- rows a].

(** [a[k, i]] *)
Definition entry (a : ndarray) (k i : nat) : Z :=
  nth 0%Z (nth [::] (rows a) k) i.

(** [np.zeros_like(a)] *)
Definition zeros_like (a : ndarray) : ndarray :=
  Ndarray (ncols a) [seq [seq 0%Z | _ <- r] | r <- rows a].

(** [a | b], entry by entry; arrays of different shapes are not broadcast
    here, they raise. *)
Definition bitwise_or (a b : ndarray) : outcome ndarray :=
  if same_shape a b then
    Return (Ndarray (ncols a)
              [seq [seq Z.lor p.1 p.2 | p <- zip rr.1 rr.2]
              | rr <- zip (rows a) (rows b)])
  else Raise ValueError.

(** [np.sum(c == 0)] for a column [c] *)
Definition passing (c : seq Z) : nat := count (pred1 0%Z) c.

(** [np.sum(a == 0, axis=0)] *)
Definition passing_counts (a : ndarray) : seq nat :=
  [seq passing (column a i) | i <- iota 0 (ncols a)].

(** [np.min] of a one dimensional array; the minimum of no element is a
    [ValueError]. *)
Definition np_min (s : seq nat) : outcome nat :=
  if s is x :: s' then Return (foldr minn x s') else Raise ValueError.

(** [a[j : j + n, i] = v]: the slice of rows is clipped to the array. *)
Definition assign_rows (j n i : nat) (v : Z) (a : ndarray) : ndarray :=
  Ndarray (ncols a)
    (take j (rows a)
     ++ [seq set_nth 0%Z r i v | r <- take n (drop j (rows a))]
     ++ drop (j + n) (rows a)).

(** The [while] loop of [heralding_test] for the column [i], entered with
    the row counter [j]. *)
Fixpoint truncate_column (fuel n_pass_min i j : nat) (a : ndarray)
  : outcome ndarray :=
  if fuel is fuel'.+1 then
    if n_pass_min < passing (column a i) then
      let n_short := passing (column a i) - n_pass_min in
      truncate_column fuel' n_pass_min i (j + n_short)
        (assign_rows j n_short i (-1)%Z a)
    else Return a
  else Timeout.

(** The [for] loop over the sweep points; [j = 0] at each of them. *)
Fixpoint truncate_columns (fuel n_pass_min : nat) (cols : seq nat)
  (a : ndarray) : outcome ndarray :=
  if cols is i :: cols' then
    a' <- truncate_column fuel n_pass_min i 0 a ;;
    truncate_columns fuel n_pass_min cols' a'
  else Return a.

(** Lines 153 to 162 of [heralding_test]: from the combined mask to the
    returned one. *)
Definition truncate (fuel : nat) (heralding_mask : ndarray) : outcome ndarray :=
  n_pass_min <- np_min (passing_counts heralding_mask) ;;
  truncate_columns fuel n_pass_min (iota 0 (ncols heralding_mask)) heralding_mask.

(** *** What the truncation is compared with *)

(** The column [c'] is the column [c] with its [k] leading rows overwritten
    by the sentinel: [n] passing entries are left, and [k] is the least such
    number of rows (the last row overwritten was a passing one). *)
Definition truncated (n : nat) (c c' : seq Z) : Prop :=
  exists k : nat,
    [/\ k <= size c,
        c' = nseq k (-1)%Z ++ drop k c,
        passing (drop k c) = n &
        0 < k -> nth 0%Z c k.-1 = 0%Z].

(** [n] is the minimum the code takes over the columns. *)
Definition is_min_passing (a : ndarray) (n : nat) : Prop :=
  (forall i, i < ncols a -> n <= passing (column a i)) /\
  (exists2 i, i < ncols a & n = passing (column a i)).

(** The number of entries of [c'] that differ from those of [c]. *)
Definition overwritten (c c' : seq Z) : nat :=
  count (fun p => p.1 != p.2) (zip c c').

(** Scenario of the specification: ten repetitions, two sweep points, eight
    passing shots in column 0 and six in column 1. *)
Definition scenario_B : ndarray :=
  Ndarray 2 [:: [:: 0; 1]; [:: 0; 0]; [:: 0; 0]; [:: 0; 1]; [:: 0; 0];
                [:: 0; 1]; [:: 0; 0]; [:: 0; 0]; [:: 1; 1]; [:: 1; 0]]%Z.

(** Four repetitions, two sweep points; the first shot of column 0 failed
    heralding. *)
Definition failed_first : ndarray :=
  Ndarray 2 [:: [:: 1; 0]; [:: 0; 0]; [:: 0; 1]; [:: 0; 1]]%Z.

End Mask.

(** ** Matrices and [numpy.linalg.solve] *)

Module Linalg.

Local Open Scope ring_scope.

(** A nested list read as an [n] by [p] matrix, and back. *)
Definition mx_of (n p : nat) (s : seq (seq rat)) : 'M[rat]_(n, p) :=
  \matrix_(i < n, j < p) nth 0 (nth [::] s i) j.

Definition seq_of_mx (n p : nat) (A : 'M[rat]_(n, p)) : seq (seq rat) :=
  [seq [seq A i j | j <- enum 'I_p] | i <- enum 'I_n].

Definition rectangular (n p : nat) (s : seq (seq rat)) : bool :=
  (size s == n) && all (fun r => size r == p) s.

(** The rows of a nested list have one length: what [np.asarray] needs to
    build a two dimensional array from it. *)
Definition homogeneous (s : seq (seq rat)) : bool :=
  all (fun r => size r == size (head [::] s)) s.

(** A solver, as [np.linalg.solve] is one: from the matrix and the right
    hand sides to the solutions, or an exception. *)
Definition solver := seq (seq rat) -> seq (seq rat) -> outcome (seq (seq rat)).

(** The solver returns nothing but solutions of the system it is given.
    This is the documented contract of [np.linalg.solve]; the LAPACK routine
    behind it meets it up to rounding, and only on matrices that are not
    singular to working precision. *)
Definition sound (s : solver) : Prop :=
  forall a b x, s a b = Return x ->
    mx_of (size a) (size a) a *m mx_of (size a) (size (head [::] b)) x
    = mx_of (size a) (size (head [::] b)) b.

(** [np.linalg.solve(a, b)] without rounding: a ragged [a] or [b] is a
    [ValueError] of [np.asarray], an [a] that is empty or not square a
    [LinAlgError], a [b] with another number of rows a [ValueError]; then the
    result is the solution [x] of [a x = b], and a singular [a] raises
    [LinAlgError].  The floating point routine differs from it by rounding,
    and it does not detect every singular matrix; [process_data] is
    therefore modelled over any solver, and this one is the instance of the
    concrete runs. *)
Definition solve : solver := fun a b =>
  let n := size a in
  let p := size (head [::] b) in
  if ~~ homogeneous a then Raise ValueError
  else if (n == 0%nat) || ~~ rectangular n n a then Raise LinAlgError
  else if ~~ rectangular n p b then Raise ValueError
  else if mx_of n n a \in unitmx then
    Return (seq_of_mx (invmx (mx_of n n a) *m mx_of n p b))
  else Raise LinAlgError.

(** [np.identity(n).tolist()] *)
Definition identity (n : nat) : seq (seq rat) :=
  [seq [seq (i == j)%:R | j <- iota 0 n] | i <- iota 0 n].

End Linalg.

(** ** ProcessManager *)

Module Process.

Import Mask.

Section Values.

(** Complex-valued IQ data is only handed from one library call to the
    next; its representation is left open. *)
Variable iq : Type.

Inductive value :=
| Iq of iq
| Ints of ndarray
| Floats of seq (seq rat).

(** The per-channel record of a measurement: raw and derived keys. *)
Definition data_dict := dict value.

(** The functions of [qtrlb.processing.processing] that [process_data]
    calls, and [np.mean(..., axis=1)] on IQ data and [np.linalg.solve].
    Their code is not part of the files modelled here; they are pure
    functions of their arguments. *)
Record processing := Processing {
  rotate_IQ : value -> rat -> outcome value;
  gmm_predict : value -> seq (seq rat) -> seq rat -> outcome value;
  normalize_population : value -> nat -> option value -> outcome value;
  autorotate_IQ : value -> nat -> outcome value;
  np_mean_axis1 : value -> outcome value;
  linalg_solve : Linalg.solver
}.

(** The entries of process.yaml under a resonator key.  All of them but
    [n_readout_levels] are taken to be there: a resonator key without one of
    them, for which the lookups of the code raise [KeyError], is not
    represented. *)
Record channel := Channel {
  readout_levels : seq Z;
  n_readout_levels : option nat;
  IQ_rotation_angle : rat;
  IQ_means : seq (seq rat);
  IQ_covariances : seq rat;
  corr_matrix : seq (seq rat)
}.

(** A [ProcessManager]: the flags and channels of its [config_dict], the
    [measurement] attribute ([None] while it has not been assigned), what
    was printed, and the content of process.yaml on disk. *)
Record process_manager := ProcessManager {
  customized : bool;
  heralding : bool;
  classification : bool;
  resonators : seq string;
  channels : dict channel;
  measurement : option (dict data_dict);
  stdout : seq string;
  yaml_file : dict channel
}.

Definition set_channels (st : process_manager) (c : dict channel) :=
  ProcessManager (customized st) (heralding st) (classification st)
    (resonators st) c (measurement st) (stdout st) (yaml_file st).

Definition set_measurement (st : process_manager) (m : option (dict data_dict)) :=
  ProcessManager (customized st) (heralding st) (classification st)
    (resonators st) (channels st) m (stdout st) (yaml_file st).

Definition print (st : process_manager) (line : string) :=
  ProcessManager (customized st) (heralding st) (classification st)
    (resonators st) (channels st) (measurement st) (rcons (stdout st) line)
    (yaml_file st).

(** *** check_IQ_matrices *)

Definition shapes_agree (n : nat) (ch : channel) : bool :=
  [&& n == size (IQ_means ch),
      size (IQ_means ch) == size (IQ_covariances ch) &
      size (IQ_covariances ch) == size (corr_matrix ch)].

Definition shape_warning (r : string) : string :=
  String.append "ProcessManager: The shapes of IQ matrices in "
   (String.append r
     " are not compatible with its readout_levels. New matrices will be generated. Please save it by calling cfg.save()").

Definition default_matrices (n : nat) (ch : channel) : channel :=
  Channel (readout_levels ch) (n_readout_levels ch) (IQ_rotation_angle ch)
    [seq [:: i%:R; i%:R]%R | i <- iota 0 n]
    [seq 1%R | i <- iota 0 n]
    (Linalg.identity n).

(** One turn of the loop of [check_IQ_matrices]. *)
Definition check_channel (r : string) (st : process_manager)
  : outcome unit * process_manager :=
  match dict_get (channels st) r with
  | Return ch =>
      let n := size (readout_levels ch) in
      let ch1 := Channel (readout_levels ch) (Some n) (IQ_rotation_angle ch)
                   (IQ_means ch) (IQ_covariances ch) (corr_matrix ch) in
      let st1 := set_channels st (dict_set (channels st) r ch1) in
      if shapes_agree n ch1 then (Return tt, st1)
      else
        let st2 := print st1 (shape_warning r) in
        (Return tt, set_channels st2 (dict_set (channels st2) r (default_matrices n ch1)))
  | Raise e => (Raise e, st)
  | Timeout => (Timeout, st)
  end.

Fixpoint check_channels (rs : seq string) (st : process_manager)
  : outcome unit * process_manager :=
  if rs is r :: rs' then
    match check_channel r st with
    | (Return _, st') => check_channels rs' st'
    | failed => failed
    end
  else (Return tt, st).

Definition check_IQ_matrices (st : process_manager) :=
  check_channels (resonators st) st.

(** [load]: the parent's [load], the list of the keys that start with 'R',
    then the check.  [Config.load] reads the yaml files; its code is not
    among the files modelled here. *)
Definition set_resonators (st : process_manager) (rs : seq string) :=
  ProcessManager (customized st) (heralding st) (classification st)
    rs (channels st) (measurement st) (stdout st) (yaml_file st).

Definition load (super_load : process_manager -> outcome unit * process_manager)
  (st : process_manager) : outcome unit * process_manager :=
  match super_load st with
  | (Return _, st0) =>
      let resonators_list := [seq key <- unzip1 (channels st0) | startswith "R" key] in
      check_IQ_matrices (set_resonators st0 resonators_list)
  | failed => failed
  end.

(** The channel after its turn of the loop. *)
Definition checked (ch : channel) : channel :=
  let n := size (readout_levels ch) in
  let ch1 := Channel (readout_levels ch) (Some n) (IQ_rotation_angle ch)
               (IQ_means ch) (IQ_covariances ch) (corr_matrix ch) in
  if shapes_agree n ch1 then ch1 else default_matrices n ch1.

(** *** Statements on a data dictionary *)

Definition stmt := data_dict -> outcome unit * data_dict.

(** [data_dict[key] = rhs] *)
Definition store (key : string) (rhs : data_dict -> outcome value) : stmt :=
  fun d =>
    match rhs d with
    | Return v => (Return tt, dict_set d key v)
    | Raise e => (Raise e, d)
    | Timeout => (Timeout, d)
    end.

Definition then_ (s1 s2 : stmt) : stmt :=
  fun d =>
    match s1 d with
    | (Return _, d') => s2 d'
    | failed => failed
    end.

(** [for r, data_dict in self.measurement.items(): body]; each data
    dictionary is updated in place, also when the body raises. *)
Fixpoint for_items (body : string -> stmt) (meas : dict data_dict)
  : outcome unit * dict data_dict :=
  if meas is (r, d) :: rest then
    match body r d with
    | (Return _, d') =>
        let: (o, rest') := for_items body rest in (o, (r, d') :: rest')
    | (failed, d') => (failed, (r, d') :: rest)
    end
  else (Return tt, [::]).

Definition for_measurement (body : string -> stmt) (st : process_manager)
  : outcome unit * process_manager :=
  match measurement st with
  | None => (Raise AttributeError, st)
  | Some meas =>
      let: (o, meas') := for_items body meas in
      (o, set_measurement st (Some meas'))
  end.

(** Channel by channel, in the order of the dictionary: [m'] has the keys of
    [m], and [R r d d'] relates the data dictionaries of the channel [r]. *)
Fixpoint pointwise (R : string -> data_dict -> data_dict -> Prop)
  (m m' : dict data_dict) : Prop :=
  match m, m' with
  | (r, d) :: m1, (r', d') :: m1' => [/\ r' = r, R r d d' & pointwise R m1 m1']
  | [::], [::] => True
  | _, _ => False
  end.

(** The keys the second loop of the heralding routine stores. *)
Definition heralding_results : seq string :=
  [:: "Mask_heralding"; "PopulationNormalized_readout";
      "PopulationCorrected_readout"; "to_fit"]%string.

(** *** heralding_test *)

Variable lib : processing.

Notation "s1 ;;; s2" := (then_ s1 s2) (at level 61, left associativity).

(** [self.measurement]: an [AttributeError] while the attribute is unset. *)
Definition self_measurement (st : process_manager) : outcome (dict data_dict) :=
  if measurement st is Some meas then Return meas else Raise AttributeError.

(** [self.measurement[r]['GMMpredicted_heralding']], used as an integer
    array. *)
Definition heralding_labels (meas : dict data_dict) (r : string) : outcome ndarray :=
  d <- dict_get meas r ;;
  v <- dict_get d "GMMpredicted_heralding" ;;
  if v is Ints a then Return a else Raise TypeError.

(** The loop [for r in resonators: heralding_mask = heralding_mask | ...]. *)
Fixpoint combine (meas : dict data_dict) (rs : seq string) (heralding_mask : ndarray)
  : outcome ndarray :=
  if rs is r :: rs' then
    a <- heralding_labels meas r ;;
    m <- bitwise_or heralding_mask a ;;
    combine meas rs' m
  else Return heralding_mask.

Definition heralding_test (fuel : nat) (st : process_manager) : outcome ndarray :=
  meas <- self_measurement st ;;
  let resonators := keys meas in
  r0 <- getitem resonators 0 ;;
  a0 <- heralding_labels meas r0 ;;
  heralding_mask <- combine meas (iter resonators) (zeros_like a0) ;;
  truncate fuel heralding_mask.

(** *** process_data *)

(** Modelled from the spec: [Config.__getitem__], whose code is not among
    the modelled files: read access by a path such as [f'{r}/IQ_means'], here
    the entry of the channel [r], a [KeyError] when there is none. *)
Definition config (st : process_manager) (r : string) : outcome channel :=
  dict_get (channels st) r.

Definition config_n_readout_levels (st : process_manager) (r : string) : outcome nat :=
  ch <- config st r ;;
  if n_readout_levels ch is Some n then Return n else Raise KeyError.

(** [np.linalg.solve(corr_matrix, population)] on a stored value. *)
Definition np_linalg_solve (a : seq (seq rat)) (b : value) : outcome value :=
  if b is Floats m then
    x <- linalg_solve lib a m ;; Return (Floats x)
  else Raise TypeError.

Definition rotate_readout (st : process_manager) (r : string) : stmt :=
  store "IQrotated_readout" (fun d =>
    h <- dict_get d "Heterodyned_readout" ;;
    ch <- config st r ;;
    rotate_IQ lib h (IQ_rotation_angle ch)).

Definition rotate_heralding (st : process_manager) (r : string) : stmt :=
  store "IQrotated_heralding" (fun d =>
    h <- dict_get d "Heterodyned_heralding" ;;
    ch <- config st r ;;
    rotate_IQ lib h (IQ_rotation_angle ch)).

Definition predict (src dst : string) (st : process_manager) (r : string) : stmt :=
  store dst (fun d =>
    x <- dict_get d src ;;
    ch <- config st r ;;
    gmm_predict lib x (IQ_means ch) (IQ_covariances ch)).

Definition correct (st : process_manager) (r : string) : stmt :=
  store "PopulationCorrected_readout" (fun d =>
    ch <- config st r ;;
    b <- dict_get d "PopulationNormalized_readout" ;;
    np_linalg_solve (corr_matrix ch) b).

Definition publish (src : string) : stmt :=
  store "to_fit" (fun d => dict_get d src).

(** First loop of the heralding routine (lines 76 to 87). *)
Definition heralding_classify (st : process_manager) (r : string) : stmt :=
  rotate_readout st r ;;;
  rotate_heralding st r ;;;
  predict "IQrotated_readout" "GMMpredicted_readout" st r ;;;
  predict "IQrotated_heralding" "GMMpredicted_heralding" st r.

(** Second loop of the heralding routine (lines 91 to 101). *)
Definition heralding_correct (st : process_manager) (heralding_mask : ndarray)
  (r : string) : stmt :=
  store "Mask_heralding" (fun _ => Return (Ints heralding_mask)) ;;;
  store "PopulationNormalized_readout" (fun d =>
    x <- dict_get d "GMMpredicted_readout" ;;
    n <- config_n_readout_levels st r ;;
    mask <- dict_get d "Mask_heralding" ;;
    normalize_population lib x n (Some mask)) ;;;
  correct st r ;;;
  publish "PopulationCorrected_readout".

(** The loop of the classification routine (lines 105 to 119): up to the
    normalized population, then the correction and [to_fit]. *)
Definition classification_normalize (st : process_manager) (r : string) : stmt :=
  rotate_readout st r ;;;
  predict "IQrotated_readout" "GMMpredicted_readout" st r ;;;
  store "PopulationNormalized_readout" (fun d =>
    x <- dict_get d "GMMpredicted_readout" ;;
    n <- config_n_readout_levels st r ;;
    normalize_population lib x n None).

Definition classification_body (st : process_manager) (r : string) : stmt :=
  classification_normalize st r ;;;
  correct st r ;;;
  publish "PopulationCorrected_readout".

(** The loop of the default routine (lines 123 to 132). *)
Definition bare_body (st : process_manager) (r : string) : stmt :=
  rotate_readout st r ;;;
  store "IQautorotated_readout" (fun d =>
    x <- dict_get d "IQrotated_readout" ;;
    n <- config_n_readout_levels st r ;;
    autorotate_IQ lib x n) ;;;
  store "IQaveraged_readout" (fun d =>
    x <- dict_get d "IQautorotated_readout" ;;
    np_mean_axis1 lib x) ;;;
  publish "IQaveraged_readout".

Definition customized_routine (st : process_manager)
  : outcome unit * process_manager := (Return tt, st).

Definition heralding_routine (fuel : nat) (st : process_manager)
  : outcome unit * process_manager :=
  match for_measurement (heralding_classify st) st with
  | (Return _, st1) =>
      match heralding_test fuel st1 with
      | Return heralding_mask =>
          for_measurement (heralding_correct st1 heralding_mask) st1
      | Raise e => (Raise e, st1)
      | Timeout => (Timeout, st1)
      end
  | failed => failed
  end.

Definition classification_routine (st : process_manager) :=
  for_measurement (classification_body st) st.

Definition bare_routine (st : process_manager) :=
  for_measurement (bare_body st) st.

(** The fit model is only passed along; its type is left open. *)
Variable model : Type.

Definition process_data (fuel : nat) (st : process_manager)
  (measurement : dict data_dict) (fitmodel : model)
  : outcome unit * process_manager :=
  if customized st then customized_routine st
  else if heralding st then heralding_routine fuel st
  else if classification st then classification_routine st
  else bare_routine st.

(** The four routines of the specification and the one its priority order
    selects: customized, then heralding, then classification, then the
    default. *)
Inductive routine := Customized | Heralding | Classification | Bare.

Definition routine_by_priority (st : process_manager) : routine :=
  if customized st then Customized
  else if heralding st then Heralding
  else if classification st then Classification
  else Bare.

Definition run_routine (fuel : nat) (rt : routine) (st : process_manager)
  : outcome unit * process_manager :=
  match rt with
  | Customized => customized_routine st
  | Heralding => heralding_routine fuel st
  | Classification => classification_routine st
  | Bare => bare_routine st
  end.

(** What the correcting loops leave under a channel [r]: the corrected
    population [x] is what the solve returned for the correction matrix of
    [r] and the normalized population [b], and [to_fit] is the same array;
    with a sound solve, [x] solves the system of the matrix itself. *)
Definition corrected (st : process_manager) (r : string) (d' : data_dict) : Prop :=
  exists (ch : channel) (b x : seq (seq rat)),
    [/\ config st r = Return ch,
        dict_get d' "PopulationNormalized_readout" = Return (Floats b),
        linalg_solve lib (corr_matrix ch) b = Return x,
        dict_get d' "PopulationCorrected_readout" = Return (Floats x) /\
        dict_get d' "to_fit" = Return (Floats x)
      & Linalg.sound (linalg_solve lib) ->
        (Linalg.mx_of (size (corr_matrix ch)) (size (corr_matrix ch)) (corr_matrix ch)
         *m Linalg.mx_of (size (corr_matrix ch)) (size (head [::] b)) x
         = Linalg.mx_of (size (corr_matrix ch)) (size (head [::] b)) b)%R].

End Values.

Arguments Ints {iq} _.
Arguments Floats {iq} _.
Arguments publish {iq} _.

End Process.

Notation "s1 ;;; s2" := (Process.then_ s1 s2)
  (at level 61, left associativity) : py_scope.

(** ** VariableManager *)

Module Variables.

(** A transition subspace of a qubit ('01', '12', ...). *)
Record subspace := Subspace {
  freq : rat;
  mod_freq : option rat;
  anharmonicity : option rat
}.

Record qubit := Qubit {
  qubit_LO : rat;
  q_module : Z;
  q_sequencer : Z;
  q_out : Z;
  subspaces : dict subspace
}.

Record resonator := Resonator {
  r_freq : rat;
  resonator_LO : rat;
  r_module : Z;
  r_sequencer : Z;
  readout_levels : seq Z;
  r_mod_freq : option rat;
  lowest_readout_levels : option Z;
  highest_readout_levels : option Z;
  n_readout_levels : option nat
}.

(** What a top-level key of variables.yaml holds. *)
Inductive entry :=
| QubitE of qubit
| ResonatorE of resonator
| OtherE.

Record variable_manager := VariableManager {
  qubits : seq string;
  resonators : seq string;
  config_dict : dict entry
}.

Definition set_config (st : variable_manager) (c : dict entry) :=
  VariableManager (qubits st) (resonators st) c.

(** Modelled from the spec: [Config.__getitem__] and [Config.set], whose code
    is not among the modelled files: read and write access by a path such as
    [f'{q}/{subspace}/freq'], a [KeyError] when the path leads nowhere. *)
Definition get_qubit (st : variable_manager) (q : string) : outcome qubit :=
  e <- dict_get (config_dict st) q ;;
  if e is QubitE qb then Return qb else Raise KeyError.

Definition get_resonator (st : variable_manager) (r : string) : outcome resonator :=
  e <- dict_get (config_dict st) r ;;
  if e is ResonatorE rs then Return rs else Raise KeyError.

Definition get_subspace (st : variable_manager) (q s : string) : outcome subspace :=
  qb <- get_qubit st q ;;
  dict_get (subspaces qb) s.

Definition put_subspace (st : variable_manager) (q s : string) (sub : subspace)
  : outcome variable_manager :=
  qb <- get_qubit st q ;;
  Return (set_config st (dict_set (config_dict st) q
     (QubitE (Qubit (qubit_LO qb) (q_module qb) (q_sequencer qb) (q_out qb)
                (dict_set (subspaces qb) s sub))))).

Definition is_digit (c : ascii) : bool :=
  (48 <= nat_of_ascii c) && (nat_of_ascii c <= 57).

Fixpoint all_digits (s : string) : bool :=
  if s is String c s' then is_digit c && all_digits s' else true.

(** [str.isdecimal] on ASCII strings. *)
Definition isdecimal (s : string) : bool :=
  (s != EmptyString) && all_digits s.

(** [int(s)] when [s.isdecimal()]. *)
Fixpoint int_of_digits (acc : nat) (s : string) : nat :=
  if s is String c s' then int_of_digits (10 * acc + (nat_of_ascii c - 48)) s'
  else acc.

(** [f'{z:02}'] *)
Definition format_02 (z : Z) : string :=
  match z with
  | Zneg p => String "-" (NilEmpty.string_of_uint (Pos.to_uint p))
  | _ =>
      let s := NilEmpty.string_of_uint (N.to_uint (Z.to_N z)) in
      if String.length s < 2 then String "0" s else s
  end.

Definition and_then {S : Type} (m : outcome unit * S) (k : S -> outcome unit * S)
  : outcome unit * S :=
  match m with
  | (Return _, s) => k s
  | failed => failed
  end.

Definition lift {S : Type} (st : S) (m : outcome S) : outcome unit * S :=
  match m with
  | Return s => (Return tt, s)
  | Raise e => (Raise e, st)
  | Timeout => (Timeout, st)
  end.

(** The body of the inner loop of [set_parameters] for a key [s] of the
    dictionary of the qubit [q]. *)
Definition set_subspace (q s : string) (st : variable_manager)
  : outcome unit * variable_manager :=
  if ~~ isdecimal s then (Return tt, st)
  else
    and_then
      (lift st (sub <- get_subspace st q s ;;
                qb <- get_qubit st q ;;
                put_subspace st q s
                  (Subspace (freq sub) (Some (freq sub - qubit_LO qb)%R)
                     (anharmonicity sub))))
      (fun st1 =>
         if s == "01"%string then (Return tt, st1)
         else
           lift st1
             (sub <- get_subspace st1 q s ;;
              below <- get_subspace st1 q
                         (format_02 (Z.of_nat (int_of_digits 0 s) - 11)) ;;
              put_subspace st1 q s
                (Subspace (freq sub) (mod_freq sub)
                   (Some (freq sub - freq below)%R)))).

Fixpoint for_each {S X : Type} (body : X -> S -> outcome unit * S) (xs : seq X)
  (st : S) : outcome unit * S :=
  if xs is x :: xs' then and_then (body x st) (for_each body xs') else (Return tt, st).

Definition set_qubit (q : string) (st : variable_manager)
  : outcome unit * variable_manager :=
  match get_qubit st q with
  | Return qb => for_each (set_subspace q) (unzip1 (subspaces qb)) st
  | Raise e => (Raise e, st)
  | Timeout => (Timeout, st)
  end.

(** [s[0]] and [s[-1]] on a list. *)
Definition first (s : seq Z) : outcome Z :=
  if s is x :: _ then Return x else Raise IndexError.

Definition final (s : seq Z) : outcome Z :=
  if s is x :: s' then Return (last x s') else Raise IndexError.

(** [sorted] on a list of integers. *)
Definition sorted_levels (s : seq Z) : seq Z := sort Z.leb s.

(** [self.set(f'{r}/...', ..., which='dict')]: the entry of [r] is read, the
    new value is computed from it, and the entry is written back. *)
Definition update_resonator (r : string) (f : resonator -> outcome resonator)
  (st : variable_manager) : outcome unit * variable_manager :=
  lift st
    (rs <- get_resonator st r ;;
     rs' <- f rs ;;
     Return (set_config st (dict_set (config_dict st) r (ResonatorE rs')))).

Definition set_mod_freq (rs : resonator) : outcome resonator :=
  Return (Resonator (r_freq rs) (resonator_LO rs) (r_module rs) (r_sequencer rs)
            (readout_levels rs) (Some (r_freq rs - resonator_LO rs)%R)
            (lowest_readout_levels rs) (highest_readout_levels rs)
            (n_readout_levels rs)).

Definition set_readout_levels (rs : resonator) : outcome resonator :=
  Return (Resonator (r_freq rs) (resonator_LO rs) (r_module rs) (r_sequencer rs)
            (sorted_levels (readout_levels rs)) (r_mod_freq rs)
            (lowest_readout_levels rs) (highest_readout_levels rs)
            (n_readout_levels rs)).

Definition set_lowest (rs : resonator) : outcome resonator :=
  lowest <- first (readout_levels rs) ;;
  Return (Resonator (r_freq rs) (resonator_LO rs) (r_module rs) (r_sequencer rs)
            (readout_levels rs) (r_mod_freq rs)
            (Some lowest) (highest_readout_levels rs) (n_readout_levels rs)).

Definition set_highest (rs : resonator) : outcome resonator :=
  highest <- final (readout_levels rs) ;;
  Return (Resonator (r_freq rs) (resonator_LO rs) (r_module rs) (r_sequencer rs)
            (readout_levels rs) (r_mod_freq rs)
            (lowest_readout_levels rs) (Some highest) (n_readout_levels rs)).

Definition set_n_readout_levels (rs : resonator) : outcome resonator :=
  Return (Resonator (r_freq rs) (resonator_LO rs) (r_module rs) (r_sequencer rs)
            (readout_levels rs) (r_mod_freq rs)
            (lowest_readout_levels rs) (highest_readout_levels rs)
            (Some (size (readout_levels rs)))).

(** The body of the loop over the resonators (lines 60 to 69). *)
Definition set_resonator (r : string) (st : variable_manager)
  : outcome unit * variable_manager :=
  and_then (update_resonator r set_mod_freq st) (fun st1 =>
  and_then (update_resonator r set_readout_levels st1) (fun st2 =>
  and_then (update_resonator r set_lowest st2) (fun st3 =>
  and_then (update_resonator r set_highest st3)
    (update_resonator r set_n_readout_levels)))).

Definition set_parameters (st : variable_manager) :=
  and_then (for_each set_qubit (qubits st) st)
    (fun st1 => for_each set_resonator (resonators st1) st1).

(** [assert c] *)
Definition assert (c : bool) : outcome unit :=
  if c then Return tt else Raise AssertionError.

Definition check_qubit_pair (st : variable_manager) (qubit qubjt : string)
  : outcome unit :=
  a <- get_qubit st qubjt ;;
  b <- get_qubit st qubit ;;
  if q_module a == q_module b then
    _ <- assert (q_sequencer a != q_sequencer b) ;;
    if q_out a == q_out b then assert (qubit_LO a == qubit_LO b) else Return tt
  else Return tt.

Definition check_resonator_pair (st : variable_manager) (resonator resonatos : string)
  : outcome unit :=
  a <- get_resonator st resonatos ;;
  b <- get_resonator st resonator ;;
  if r_module a == r_module b then
    _ <- assert (r_sequencer a != r_sequencer b) ;;
    assert (resonator_LO a == resonator_LO b)
  else Return tt.

Fixpoint check_all (check : string -> outcome unit) (xs : seq string) : outcome unit :=
  if xs is x :: xs' then _ <- check x ;; check_all check xs' else Return tt.

(** [for i, x in enumerate(xs): for y in xs[i+1:]: check x y] *)
Fixpoint check_pairs (check : string -> string -> outcome unit) (xs : seq string)
  : outcome unit :=
  if xs is x :: xs' then
    _ <- check_all (check x) xs' ;; check_pairs check xs'
  else Return tt.

Definition check_module_sequencer_LO (st : variable_manager) : outcome unit :=
  _ <- check_pairs (check_qubit_pair st) (qubits st) ;;
  check_pairs (check_resonator_pair st) (resonators st).

Section Load.

(** [Config.load]: it fills [config_dict] from the yaml files; its code is
    not among the files modelled here. *)
Variable super_load : variable_manager -> outcome unit * variable_manager.

Definition load (st : variable_manager) : outcome unit * variable_manager :=
  and_then (super_load st) (fun st0 =>
    let qubits_list := [seq k <- unzip1 (config_dict st0) | startswith "Q" k] in
    let resonators_list := [seq k <- unzip1 (config_dict st0) | startswith "R" k] in
    let st1 := VariableManager qubits_list resonators_list (config_dict st0) in
    and_then (set_parameters st1) (fun st2 =>
      match check_module_sequencer_LO st2 with
      | Return _ => (Return tt, st2)
      | Raise e => (Raise e, st2)
      | Timeout => (Timeout, st2)
      end)).

End Load.

(** The derived entries of a resonator agree with its readout levels: the
    levels are in ascending order, the lowest is the first of them, the
    highest the last, and their number is recorded. *)
Definition derived (rs : resonator) : Prop :=
  [/\ sorted Z.leb (readout_levels rs),
      exists2 lowest, first (readout_levels rs) = Return lowest
                    & lowest_readout_levels rs = Some lowest,
      exists2 highest, final (readout_levels rs) = Return highest
                     & highest_readout_levels rs = Some highest
    & n_readout_levels rs = Some (size (readout_levels rs))].

(** A configuration with one qubit and one resonator whose readout levels
    are not listed in order; the yaml files are taken as read. *)
Definition sample_qubit : qubit :=
  Qubit 48%:R 2 0 0
    [:: ("01"%string, Subspace 50%:R None None);
        ("12"%string, Subspace 47%:R None None)]%R.

Definition sample_resonator : resonator :=
  Resonator 70%:R 69%:R 8 0 [:: 2; 0; 1]%Z None None None None.

Definition sample_manager : variable_manager :=
  VariableManager [::] [::]
    [:: ("Q2"%string, QubitE sample_qubit);
        ("R2"%string, ResonatorE sample_resonator);
        ("common"%string, OtherE)].

Definition already_loaded (st : variable_manager) : outcome unit * variable_manager :=
  (Return tt, st).

End Variables.

(** ** Concrete batches

    A small instance of the library functions, after their description in
    the specification, to run the pipeline on concrete batches: IQ data is
    an array of points with rational coordinates, the rotation is defined
    for the angle 0 only, the classifier takes the nearest mean (the lowest
    level on a tie), and the normalizer counts, per sweep point, the shots of
    each level among those the mask lets through. *)

Module Demo.

Import Mask Process.

Local Open Scope ring_scope.

Definition iq := seq (seq (rat * rat)).

(** Modelled from the spec: [rotate_IQ] of qtrlb.processing.processing, whose
    code is not among the modelled files.  It multiplies every sample by
    exp(-i angle); only the angle 0, for which that is the identity, is
    covered here. *)
Definition rotate_IQ (v : value iq) (angle : rat) : outcome (value iq) :=
  if angle == 0 then Return v else Raise ValueError.

Definition dist2 (p : rat * rat) (m : seq rat) : rat :=
  (p.1 - nth 0 m 0) ^+ 2 + (p.2 - nth 0 m 1) ^+ 2.

Fixpoint argmin (best_i : nat) (best : rat) (i : nat) (ds : seq rat) : nat :=
  if ds is d :: ds' then
    if d < best then argmin i d i.+1 ds' else argmin best_i best i.+1 ds'
  else best_i.

Definition nearest (means : seq (seq rat)) (p : rat * rat) : Z :=
  if [seq dist2 p m | m <- means] is d :: ds
  then Z.of_nat (argmin 0%nat d 1%nat ds) else 0%Z.

(** Modelled from the spec: [gmm_predict] of qtrlb.processing.processing,
    whose code is not among the modelled files.  Every sample gets the index
    of the nearest mean, the lowest index on a tie (clusters of equal
    variance). *)
Definition gmm_predict (v : value iq) (means : seq (seq rat)) (covariances : seq rat)
  : outcome (value iq) :=
  if v is Iq x then
    Return (Ints (Ndarray (size (head [::] x)) [seq map (nearest means) r | r <- x]))
  else Raise TypeError.

(** The shots of the column [i] that count: all of them, or those whose
    mask entry is 0. *)
Definition counted (a : ndarray) (mask : option ndarray) (i : nat) : seq Z :=
  if mask is Some m
  then [seq p.1 | p <- zip (column a i) (column m i) & p.2 == 0%Z]
  else column a i.

Definition population (a : ndarray) (mask : option ndarray) (level i : nat) : rat :=
  (count (pred1 (Z.of_nat level)) (counted a mask i))%:R
  / (size (counted a mask i))%:R.

(** Modelled from the spec: [normalize_population] of
    qtrlb.processing.processing, whose code is not among the modelled files.
    Per sweep point, the share of each level among the counted shots; a
    sweep point without counted shots is signalled. *)
Definition normalize_population (v : value iq) (n_levels : nat)
  (mask : option (value iq)) : outcome (value iq) :=
  match v, mask with
  | Ints a, None =>
      if all (fun i => 0 < size (counted a None i))%nat (iota 0 (ncols a)) then
        Return (Floats [seq [seq population a None l i | i <- iota 0 (ncols a)]
                          | l <- iota 0 n_levels])
      else Raise ValueError
  | Ints a, Some (Ints m) =>
      if all (fun i => 0 < size (counted a (Some m) i))%nat (iota 0 (ncols a)) then
        Return (Floats [seq [seq population a (Some m) l i | i <- iota 0 (ncols a)]
                          | l <- iota 0 n_levels])
      else Raise ValueError
  | _, _ => Raise TypeError
  end.

(** Modelled from the spec: [autorotate_IQ] of qtrlb.processing.processing,
    whose code is not among the modelled files.  The specification leaves
    the fit open; this instance returns the samples as they are. *)
Definition autorotate_IQ (v : value iq) (n_components : nat) : outcome (value iq) :=
  Return v.

Definition mean (r : seq (rat * rat)) : rat * rat :=
  ((\sum_(p <- r) p.1) / (size r)%:R, (\sum_(p <- r) p.2) / (size r)%:R).

(** [np.mean(x, axis=1)] on that representation: the mean of every row. *)
Definition np_mean_axis1 (v : value iq) : outcome (value iq) :=
  if v is Iq x then Return (Iq [seq [:: mean r] | r <- x]) else Raise TypeError.

Definition lib : processing iq :=
  Processing rotate_IQ gmm_predict normalize_population autorotate_IQ np_mean_axis1
    Linalg.solve.

(** Two levels with the means (0,0) and (1,1). *)
Definition two_levels (corr : seq (seq rat)) : channel :=
  Channel [:: 0%Z; 1%Z] (Some 2%nat) 0 [:: [:: 0; 0]; [:: 1; 1]] [:: 1; 1] corr.

(** Two shots at one sweep point, one on each mean. *)
Definition two_shots : value iq := Iq [:: [:: (0, 0)]; [:: (1, 1)]].

Definition raw_readout : data_dict iq :=
  [:: ("Heterodyned_readout"%string, two_shots)].

Definition raw_heralded : data_dict iq :=
  [:: ("Heterodyned_readout"%string, two_shots);
      ("Heterodyned_heralding"%string, Iq [:: [:: (0, 0)]; [:: (0, 0)]])].

(** Level 1 is read as level 0 half of the time: rows sum to 1, and the
    matrix is not symmetric. *)
Definition skewed : seq (seq rat) := [:: [:: 1; 0]; [:: 1 / 2%:R; 1 / 2%:R]].

Definition all_ones : seq (seq rat) := [:: [:: 1; 1]; [:: 1; 1]].

(** The two shots of [two_shots], classified and normalized: one half of
    the population on each level. *)
Definition half_half : seq (seq rat) := [:: [:: 1%:R / 2%:R]; [:: 1%:R / 2%:R]].

Definition normalized_readout : data_dict iq :=
  [:: ("Heterodyned_readout"%string, two_shots);
      ("IQrotated_readout"%string, two_shots);
      ("GMMpredicted_readout"%string, Ints (Ndarray 1 [:: [:: 0%Z]; [:: 1%Z]]));
      ("PopulationNormalized_readout"%string, Floats half_half)].

Definition skewed_inverse : seq (seq rat) := [:: [:: 1; 0]; [:: -1; 2%:R]].

(** What the solve returns for [skewed] and [half_half], and the batch
    after the classification routine. *)
Definition skewed_solution : seq (seq rat) :=
  Linalg.seq_of_mx (invmx (Linalg.mx_of 2 2 skewed) *m Linalg.mx_of 2 1 half_half).

Definition corrected_readout : data_dict iq :=
  dict_set (dict_set normalized_readout
              "PopulationCorrected_readout" (Floats skewed_solution))
    "to_fit" (Floats skewed_solution).

Definition manager (customized heralding classification : bool)
  (corr : seq (seq rat)) (meas : option (dict (data_dict iq))) : process_manager iq :=
  ProcessManager customized heralding classification [:: "R1"%string]
    [:: ("R1"%string, two_levels corr)] meas [::] [:: ("R1"%string, two_levels corr)].

Definition classification_batch (corr : seq (seq rat)) : process_manager iq :=
  manager false false true corr (Some [:: ("R1"%string, raw_readout)]).

Definition heralding_batch : process_manager iq :=
  manager false true false (Linalg.identity 2) (Some [:: ("R1"%string, raw_heralded)]).

Definition corrected_batch : process_manager iq :=
  manager false false true skewed (Some [:: ("R1"%string, corrected_readout)]).

(** A channel with two readout levels and matrices for three. *)
Definition three_for_two : channel :=
  Channel [:: 0%Z; 1%Z] None 0 [:: [:: 0; 0]; [:: 1; 1]; [:: 2%:R; 2%:R]]
    [:: 1; 1; 1] (Linalg.identity 3).

Definition mismatched_manager : process_manager iq :=
  ProcessManager false false true [:: "R1"%string; "R2"%string]
    [:: ("R1"%string, three_for_two); ("R2"%string, two_levels skewed)]
    None [::] [:: ("R1"%string, three_for_two); ("R2"%string, two_levels skewed)].

(** The heralding shots of [raw_heralded], classified: both in the ground
    state; and the batch after the first loop of the heralding routine. *)
Definition ground_labels : ndarray := Ndarray 1 [:: [:: 0%Z]; [:: 0%Z]].

Definition classified_heralded : data_dict iq :=
  [:: ("Heterodyned_readout"%string, two_shots);
      ("Heterodyned_heralding"%string, Iq [:: [:: (0, 0)]; [:: (0, 0)]]);
      ("IQrotated_readout"%string, two_shots);
      ("IQrotated_heralding"%string, Iq [:: [:: (0, 0)]; [:: (0, 0)]]);
      ("GMMpredicted_readout"%string, Ints (Ndarray 1 [:: [:: 0%Z]; [:: 1%Z]]));
      ("GMMpredicted_heralding"%string, Ints ground_labels)].

Definition classified_batch : process_manager iq :=
  manager false true false (Linalg.identity 2)
    (Some [:: ("R1"%string, classified_heralded)]).

(** A manager whose [measurement] attribute was never assigned. *)
Definition unset_batch (customized : bool) : process_manager iq :=
  manager customized true true (Linalg.identity 2) None.

(** The fit model of the concrete runs. *)
Definition no_model : unit := tt.

End Demo.

(** ** Further batches and loops *)

Module Batch.

Import Mask Process.

Section Loops.

Variables (iq : Type) (lib : processing iq).

(** The body of the loop that every routine but the customized one starts
    with (lines 76, 105 and 123). *)
Definition first_loop (st : process_manager iq) : string -> stmt iq :=
  if heralding st then heralding_classify lib st
  else if classification st then classification_body lib st
  else bare_body lib st.

(** The keys of the raw data. *)
Definition raw_keys : seq string :=
  [:: "Heterodyned_readout"; "Heterodyned_heralding"]%string.

(** From [st] to [st'] nothing but the batch has changed, and in the batch
    neither the channels, nor their order, nor their raw data. *)
Definition batch_only (st st' : process_manager iq) : Prop :=
  [/\ st' = set_measurement st (measurement st'),
      measurement st = None -> measurement st' = None
    & forall m, measurement st = Some m ->
        exists m',
          [/\ measurement st' = Some m', unzip1 m' = unzip1 m
            & forall k, k \in raw_keys ->
                pointwise (fun _ d d' => dict_get d' k = dict_get d k) m m']].

End Loops.

(** Two repetitions, two sweep points; no shot of column 0 passed. *)
Definition dead_column : ndarray := Ndarray 2 [:: [:: 1; 0]; [:: 1; 0]]%Z.

(** The batch of [Demo.classification_batch] with all flags unset, and what
    the default routine makes of it. *)
Definition bare_batch : process_manager Demo.iq :=
  Demo.manager false false false (Linalg.identity 2)
    (Some [:: ("R1"%string, Demo.raw_readout)]).

Definition averaged : value Demo.iq :=
  Iq [:: [:: Demo.mean [:: (0, 0)]]; [:: Demo.mean [:: (1, 1)]]]%R.

Definition averaged_readout : data_dict Demo.iq :=
  [:: ("Heterodyned_readout"%string, Demo.two_shots);
      ("IQrotated_readout"%string, Demo.two_shots);
      ("IQautorotated_readout"%string, Demo.two_shots);
      ("IQaveraged_readout"%string, averaged);
      ("to_fit"%string, averaged)].

Definition averaged_batch : process_manager Demo.iq :=
  Demo.manager false false false (Linalg.identity 2)
    (Some [:: ("R1"%string, averaged_readout)]).

(** Two channels with all flags unset, the second without raw data. *)
Definition second_without_raw : process_manager Demo.iq :=
  ProcessManager false false false [:: "R1"%string; "R2"%string]
    [:: ("R1"%string, Demo.two_levels (Linalg.identity 2));
        ("R2"%string, Demo.two_levels (Linalg.identity 2))]
    (Some [:: ("R1"%string, Demo.raw_readout); ("R2"%string, [::])])
    [::] [::].

(** The classified batch of [Demo.classified_heralded] after the second
    loop of the heralding routine, run with the mask [Demo.ground_labels]
    and the correction matrix [Demo.skewed]. *)
Definition heralded_corrected : data_dict Demo.iq :=
  dict_set (dict_set (dict_set (dict_set Demo.classified_heralded
    "Mask_heralding" (Ints Demo.ground_labels))
    "PopulationNormalized_readout" (Floats Demo.half_half))
    "PopulationCorrected_readout" (Floats Demo.skewed_solution))
    "to_fit" (Floats Demo.skewed_solution).

(** The parent's load of the concrete run: the yaml files are taken as
    read, with the configuration of [Demo.mismatched_manager]. *)
Definition loaded_mismatched (st : process_manager Demo.iq)
  : outcome unit * process_manager Demo.iq :=
  (Return tt, Demo.mismatched_manager).

(** The library of [lib] with the exact solver. *)
Definition exact (iq : Type) (lib : processing iq) : processing iq :=
  Processing (rotate_IQ lib) (gmm_predict lib) (normalize_population lib)
    (autorotate_IQ lib) (np_mean_axis1 lib) Linalg.solve.

(** The classification batch with the identity as correction matrix, and
    what the classification routine makes of it. *)
Definition identity_solution : seq (seq rat) :=
  Linalg.seq_of_mx (invmx (Linalg.mx_of 2 2 (Linalg.identity 2))
                    *m Linalg.mx_of 2 1 Demo.half_half).

Definition identity_corrected_batch : process_manager Demo.iq :=
  Demo.manager false false true (Linalg.identity 2)
    (Some [:: ("R1"%string,
               dict_set (dict_set Demo.normalized_readout
                           "PopulationCorrected_readout" (Floats identity_solution))
                 "to_fit" (Floats identity_solution))]).

End Batch.

(** ** What VariableManager derives, and transmon_parameters *)

Module Derived.

Import Variables.

Local Open Scope ring_scope.

(** What [load] reads from the yaml files under a qubit, under one of its
    subspaces and under a resonator; the readout levels are taken up to
    their order. *)
Definition qubit_view (st : variable_manager) (q : string)
  : outcome (rat * Z * Z * Z * seq string) :=
  qb <- get_qubit st q ;;
  Return (qubit_LO qb, q_module qb, q_sequencer qb, q_out qb,
          unzip1 (subspaces qb)).

Definition subspace_view (st : variable_manager) (q s : string) : outcome rat :=
  sub <- get_subspace st q s ;; Return (freq sub).

Definition resonator_view (st : variable_manager) (r : string)
  : outcome (rat * rat * Z * Z * seq Z) :=
  rs <- get_resonator st r ;;
  Return (r_freq rs, resonator_LO rs, r_module rs, r_sequencer rs,
          sorted_levels (readout_levels rs)).

Definition same_loaded_values (st st' : variable_manager) : Prop :=
  [/\ qubits st' = qubits st /\ resonators st' = resonators st,
      unzip1 (config_dict st') = unzip1 (config_dict st),
      forall q, qubit_view st' q = qubit_view st q,
      forall q s, subspace_view st' q s = subspace_view st q s
    & forall r, resonator_view st' r = resonator_view st r].

(** The key [f'{(int(subspace)-11):02}'] of line 57. *)
Definition lower_subspace (s : string) : string :=
  format_02 (Z.of_nat (int_of_digits 0 s) - 11).

(** The string of the two decimal digits [a] and [b]. *)
Definition two_digits (a b : nat) : string :=
  String (ascii_of_nat (48 + a)) (String (ascii_of_nat (48 + b)) EmptyString).

(** The entries of the subspace [s] of [q] that are derived: [mod_freq]
    from the frequency and the LO of the qubit, [anharmonicity] from the
    frequency and that of the subspace below. *)
Definition mod_freq_derived (st : variable_manager) (q s : string) : Prop :=
  exists sub qb,
    [/\ get_subspace st q s = Return sub, get_qubit st q = Return qb
      & mod_freq sub = Some (freq sub - qubit_LO qb)].

Definition anharmonicity_derived (st : variable_manager) (q s : string) : Prop :=
  exists sub below,
    [/\ get_subspace st q s = Return sub,
        get_subspace st q (lower_subspace s) = Return below
      & anharmonicity sub = Some (freq sub - freq below)].

Definition subspace_derived (st : variable_manager) (q s : string) : Prop :=
  isdecimal s ->
  mod_freq_derived st q s /\ (s != "01"%string -> anharmonicity_derived st q s).

Definition qubit_derived (st : variable_manager) (q : string) : Prop :=
  exists2 qb, get_qubit st q = Return qb
            & forall s, s \in unzip1 (subspaces qb) -> subspace_derived st q s.

Definition resonator_derived (st : variable_manager) (r : string) : Prop :=
  exists2 rs, get_resonator st r = Return rs
            & r_mod_freq rs = Some (r_freq rs - resonator_LO rs).

(** From [st] to [st'] the subspace [s0] of the qubit [q0] has been
    replaced by [sub'], which has the frequency of the one it replaces. *)
Definition rewritten (st : variable_manager) (q0 s0 : string) (sub' : subspace)
  (st' : variable_manager) : Prop :=
  exists qb sub,
    [/\ get_qubit st q0 = Return qb, dict_get (subspaces qb) s0 = Return sub,
        freq sub' = freq sub,
        qubits st' = qubits st /\ resonators st' = resonators st
      & config_dict st' =
        dict_set (config_dict st) q0
          (QubitE (Qubit (qubit_LO qb) (q_module qb) (q_sequencer qb) (q_out qb)
                     (dict_set (subspaces qb) s0 sub')))].

(** The two conditions [check_module_sequencer_LO] asserts for a pair. *)
Definition qubits_compatible (a b : qubit) : bool :=
  (q_module a == q_module b) ==>
  (q_sequencer a != q_sequencer b)
  && ((q_out a == q_out b) ==> (qubit_LO a == qubit_LO b)).

Definition resonators_compatible (a b : resonator) : bool :=
  (r_module a == r_module b) ==>
  (r_sequencer a != r_sequencer b) && (resonator_LO a == resonator_LO b).

Section Transmon.

(** [u.GHz] and [u.kHz] of qtrlb.utils.units, and [falpha_to_EJEC] and
    [get_bare_frequency] of qtrlb.utils.transmon_parameters3: their code is
    not among the files modelled here.  The units are nonzero constants. *)
Variables (GHz kHz : rat).
Variable falpha_to_EJEC : rat -> rat -> outcome (rat * rat).
Variable get_bare_frequency :
  rat -> rat -> rat -> rat -> outcome (rat * rat * rat * rat).

(** What [transmon_parameters] returns: [EJ, EC], or [EJ, EC, g01]. *)
Inductive transmon_result :=
| EJ_EC of rat & rat
| EJ_EC_g of rat & rat & rat.

(** [transmon[1:]] *)
Definition tail (s : string) : string :=
  if s is String _ t then t else EmptyString.

(** [self[f'{transmon}/12/anharmonicity']] *)
Definition get_anharmonicity (st : variable_manager) (q s : string) : outcome rat :=
  sub <- get_subspace st q s ;;
  if anharmonicity sub is Some a then Return a else Raise KeyError.

Definition transmon_parameters (st : variable_manager) (transmon : string)
  (chi_kHz : option rat) : outcome transmon_result :=
  _ <- assert (startswith "Q" transmon) ;;
  let resonator := String "R" (tail transmon) in
  f01 <- subspace_view st transmon "01" ;;
  let f01_GHz := f01 / GHz in
  alpha <- get_anharmonicity st transmon "12" ;;
  let alpha_GHz := alpha / GHz in
  rs <- get_resonator st resonator ;;
  let fr_GHz := r_freq rs / GHz in
  if chi_kHz is Some chi then
    let chi_GHz := chi * kHz / GHz in
    bare <- get_bare_frequency f01_GHz alpha_GHz fr_GHz chi_GHz ;;
    let: (f01_b, alpha_b, fr_b, g01) := bare in
    EJEC <- falpha_to_EJEC f01_b alpha_b ;;
    Return (EJ_EC_g EJEC.1 EJEC.2 g01)
  else
    EJEC <- falpha_to_EJEC f01_GHz alpha_GHz ;;
    Return (EJ_EC EJEC.1 EJEC.2).

End Transmon.

(** A configuration with two qubits on one module and two resonators on
    another; the yaml files are taken as read. *)
Definition second_qubit : qubit :=
  Qubit 48%:R 2 1 0
    [:: ("01"%string, Subspace 51%:R None None);
        ("12"%string, Subspace 49%:R None None);
        ("23"%string, Subspace 46%:R None None)].

Definition second_resonator : resonator :=
  Resonator 71%:R 69%:R 8 1 [:: 1; 0]%Z None None None None.

Definition two_qubits : variable_manager :=
  VariableManager [::] [::]
    [:: ("Q2"%string, QubitE sample_qubit);
        ("Q3"%string, QubitE second_qubit);
        ("R2"%string, ResonatorE sample_resonator);
        ("R3"%string, ResonatorE second_resonator);
        ("common"%string, OtherE)].

End Derived.

(** * Properties *)

(** ** The truncation of the heralding mask *)

Module MaskFacts.

Import Mask.

(** Goals of linear arithmetic on [nat], handed to [lia]. *)
Ltac nat_lia :=
  intros;
  repeat match goal with
         | H : is_true (_ <= _) |- _ => move/leP in H
         | H : is_true (_ == _ :> nat) |- _ => move/eqP in H
         end;
  repeat match goal with
         | H : context [addn] |- _ => rewrite -plusE in H
         | H : context [subn] |- _ => rewrite -minusE in H
         end;
  try apply/leP; try apply/eqP;
  rewrite -?plusE -?minusE; lia.

(** The sentinel is not a passing entry. *)
Lemma passing_nseq_sentinel (k : nat) : passing (nseq k (-1)%Z) = 0.
Proof. by rewrite /passing count_nseq. Qed.

Lemma passing_cat (c1 c2 : seq Z) : passing (c1 ++ c2) = passing c1 + passing c2.
Proof. exact: count_cat. Qed.

Lemma passing_size (c : seq Z) : passing c <= size c.
Proof. exact: count_size. Qed.

Lemma size_column (a : ndarray) (i : nat) : size (column a i) = size (rows a).
Proof. by rewrite /column size_map. Qed.

Lemma column_assign_rows_same (j n i : nat) (v : Z) (a : ndarray) :
  column (assign_rows j n i v a) i =
  take j (column a i) ++ nseq (size (take n (drop j (column a i)))) v
    ++ drop (j + n) (column a i).
Proof.
rewrite /column /assign_rows /= !map_cat -map_comp map_take map_drop.
congr (_ ++ (_ ++ _)).
rewrite -map_drop -map_take size_map.
elim: (take n _) => [|r s IH] //=.
by rewrite nth_set_nth /= eqxx IH.
Qed.

Lemma column_assign_rows_other (j n i i' : nat) (v : Z) (a : ndarray) :
  i' != i -> column (assign_rows j n i v a) i' = column a i'.
Proof.
move=> ne; rewrite /column /assign_rows /= !map_cat -map_comp.
have -> : [seq (nth 0%Z^~ i' \o (set_nth 0%Z)^~ i^~ v) r | r <- take n (drop j (rows a))]
        = [seq nth 0%Z r i' | r <- take n (drop j (rows a))].
  by apply: eq_map => r /=; rewrite nth_set_nth /= (negbTE ne).
by rewrite -!map_cat addnC -drop_drop !cat_take_drop.
Qed.

Lemma well_shaped_assign_rows (j n i : nat) (v : Z) (a : ndarray) :
  i < ncols a -> well_shaped a -> well_shaped (assign_rows j n i v a).
Proof.
move=> lt_i /allP wf; apply/allP => r; rewrite /assign_rows /= !mem_cat.
case/or3P => [/mem_take /wf //|/mapP [r' /mem_take /mem_drop /wf /= /eqP sz ->]|].
  by rewrite size_set_nth sz; apply/eqP/maxn_idPr.
by move/mem_drop/wf.
Qed.

Lemma size_assign_rows (j n i : nat) (v : Z) (a : ndarray) :
  size (rows (assign_rows j n i v a)) = size (rows a).
Proof.
rewrite /assign_rows /= !size_cat size_map -!size_cat addnC -drop_drop.
by rewrite !cat_take_drop.
Qed.

Lemma passing_drop_add (j n : nat) (c : seq Z) :
  passing (drop j c) = passing (take n (drop j c)) + passing (drop (j + n) c).
Proof. by rewrite -passing_cat addnC -drop_drop cat_take_drop. Qed.

Lemma truncate_column_spec (fuel n_pass_min i : nat) :
  forall (j : nat) (a : ndarray) (c0 : seq Z),
    i < ncols a -> well_shaped a ->
    column a i = nseq j (-1)%Z ++ drop j c0 -> j <= size c0 ->
    n_pass_min <= passing (drop j c0) ->
    size c0 - j < fuel ->
    exists (k : nat) (a' : ndarray),
      [/\ truncate_column fuel n_pass_min i j a = Return a',
          j <= k <= size c0,
          column a' i = nseq k (-1)%Z ++ drop k c0,
          passing (drop k c0) = n_pass_min
        & j < k -> nth 0%Z c0 k.-1 = 0%Z] /\
      [/\ well_shaped a', ncols a' = ncols a,
          size (rows a') = size (rows a)
        & forall i', i' != i -> column a' i' = column a i'].
Proof.
elim: fuel => [|fuel IH] j a c0 lt_i wf col_a le_j ge_n //= lt_fuel.
have pass_a : passing (column a i) = passing (drop j c0).
  by rewrite col_a passing_cat passing_nseq_sentinel.
rewrite pass_a; case: ltnP => [lt_n|le_n]; last first.
  exists j, a; split; split=> //; first by rewrite leqnn.
  - by apply/eqP; rewrite eqn_leq le_n ge_n.
  - by rewrite ltnn.
set n := passing (drop j c0) - n_pass_min.
have n_gt0 : 0 < n by rewrite subn_gt0.
have le_n_pass : n <= passing (drop j c0) by exact: leq_subr.
have le_n_size : n <= size (drop j c0).
  exact: leq_trans le_n_pass (passing_size _).
have le_jn : j + n <= size c0.
  by move: le_n_size; rewrite size_drop -(leq_add2l j) subnKC.
have col_a1 : column (assign_rows j n i (-1)%Z a) i
              = nseq (j + n) (-1)%Z ++ drop (j + n) c0.
  rewrite column_assign_rows_same col_a.
  rewrite take_size_cat ?size_nseq // drop_size_cat ?size_nseq //.
  rewrite size_takel // nseqD -catA; congr (_ ++ (_ ++ _)).
  rewrite drop_cat size_nseq ltnNge leq_addr /= addKn.
  by rewrite drop_drop addnC.
have split_pass := passing_drop_add j n c0.
have le_take : passing (take n (drop j c0)) <= n.
  by apply: leq_trans (passing_size _) _; rewrite size_take; case: ltnP.
have ge_n1 : n_pass_min <= passing (drop (j + n) c0).
  move: split_pass le_take lt_n; rewrite /n.
  move: (passing (drop j c0)) (passing (take _ _)) (passing (drop (j + _) _)).
  by move=> P T D; nat_lia.
have lt_fuel1 : size c0 - (j + n) < fuel.
  by move: lt_fuel n_gt0 le_jn; clear; nat_lia.
have [k [a' [[run /andP [le_k le_ks] col_a' pass_k last_k] [wf' nc' sz' others]]]] :=
  IH (j + n) _ c0 (lt_i : i < ncols (assign_rows j n i (-1)%Z a))
     (well_shaped_assign_rows _ _ _ lt_i wf) col_a1 le_jn ge_n1 lt_fuel1.
exists k, a'; split; last first.
  split=> //; first by rewrite sz' size_assign_rows.
  by move=> i' ne; rewrite others // column_assign_rows_other.
split=> //.
- by rewrite (leq_trans (leq_addr n j) le_k).
- move=> _; case: (ltngtP (j + n) k) le_k => // [lt_k _|eq_k _]; first exact: last_k.
  have all0 : all (pred1 0%Z) (take n (drop j c0)).
    rewrite all_count size_takel // -/(passing _).
    move: split_pass lt_n (erefl n); rewrite eq_k pass_k {2}/n.
    move: (passing (drop j c0)) (passing (take _ _)) => P T.
    by clear; nat_lia.
  have := all_nthP 0%Z all0 n.-1; rewrite size_takel // prednK // => /(_ (leqnn _)).
  rewrite nth_take ?prednK // nth_drop => /eqP h.
  by rewrite -eq_k -subn1 -addnBA // subn1.
Qed.

Lemma truncate_columns_spec (fuel n_pass_min : nat) (cols : seq nat) :
  forall a : ndarray,
    well_shaped a -> uniq cols -> all (fun i => i < ncols a) cols ->
    (forall i, i \in cols -> n_pass_min <= passing (column a i)) ->
    size (rows a) < fuel ->
    exists a' : ndarray,
      [/\ truncate_columns fuel n_pass_min cols a = Return a',
          well_shaped a', ncols a' = ncols a, size (rows a') = size (rows a)
        & forall i, if i \in cols
                    then truncated n_pass_min (column a i) (column a' i)
                    else column a' i = column a i].
Proof.
elim: cols => [|i cols IH] a wf /=; first by exists a; split.
case/andP=> i_notin uniq_cols /andP [lt_i lt_cols] ge_n lt_fuel.
have [||||k [a1 [[run /andP [_ le_k] col_k pass_k last_k] [wf1 nc1 sz1 others]]]] :=
  @truncate_column_spec fuel n_pass_min i 0 a (column a i) lt_i wf.
- by rewrite drop0.
- by [].
- by rewrite drop0 ge_n // mem_head.
- by rewrite subn0 size_column.
have [|||a' [run' wf' nc' sz' cols']] := IH a1 wf1 uniq_cols.
- by rewrite nc1.
- move=> i' i'_in; rewrite others ?ge_n // ?in_cons ?i'_in ?orbT //.
  by apply: contraNneq i_notin => <-.
- by rewrite sz1.
exists a'; split; rewrite ?run ?nc' ?sz' //= => i'.
rewrite in_cons; case: (eqVneq i' i) => [->|ne] /=.
  move: (cols' i); rewrite (negbTE i_notin) => ->.
  by exists k; split.
by move: (cols' i'); rewrite others.
Qed.

Lemma foldr_minn_le (x : nat) (s : seq nat) :
  forall y, y \in x :: s -> foldr minn x s <= y.
Proof.
elim: s => [|z s IH] y /=; first by rewrite mem_seq1 => /eqP ->.
rewrite !in_cons orbCA => /orP [/eqP ->|y_in]; first exact: geq_minl.
by apply: leq_trans (geq_minr _ _) _; apply: IH; rewrite in_cons.
Qed.

Lemma foldr_minn_mem (x : nat) (s : seq nat) : foldr minn x s \in x :: s.
Proof.
elim: s => [|z s IH] /=; first exact: mem_head.
rewrite !in_cons orbCA; case: (leqP z (foldr minn x s)) => _; first by rewrite eqxx.
by rewrite -in_cons IH orbT.
Qed.

Lemma np_min_passing_counts (a : ndarray) :
  0 < ncols a ->
  exists2 n, np_min (passing_counts a) = Return n & is_min_passing a n.
Proof.
rewrite /passing_counts; case E: (ncols a) => [|p] // _.
rewrite -E; set s := map _ _.
have s_mem i : i < ncols a -> passing (column a i) \in s.
  by move=> lt_i; apply: map_f; rewrite mem_iota add0n.
have : s != [::] by rewrite /s E.
case Es: s => [|x s'] // _; exists (foldr minn x s') => //; split.
  by move=> i /s_mem; rewrite Es; apply: foldr_minn_le.
have := foldr_minn_mem x s'; rewrite -Es => /mapP [i]; rewrite mem_iota add0n => lt_i ->.
by exists i.
Qed.

Lemma truncate_spec (fuel : nat) (a : ndarray) :
  well_shaped a -> 0 < ncols a -> size (rows a) < fuel ->
  exists (n_pass_min : nat) (a' : ndarray),
    [/\ truncate fuel a = Return a', is_min_passing a n_pass_min,
        well_shaped a' /\ same_shape a' a
      & forall i, i < ncols a ->
          truncated n_pass_min (column a i) (column a' i)].
Proof.
move=> wf nc_gt0 lt_fuel.
have [n min_eq [min_le min_at]] := np_min_passing_counts nc_gt0.
have [||a' [run wf' nc' sz' cols']] :=
  @truncate_columns_spec fuel n (iota 0 (ncols a)) a wf (iota_uniq _ _) _ _ lt_fuel.
- by apply/allP => i; rewrite mem_iota add0n.
- by move=> i; rewrite mem_iota add0n => /min_le.
exists n, a'; split=> //.
- by rewrite /truncate min_eq.
- by rewrite /same_shape nc' sz' !eqxx.
- by move=> i lt_i; move: (cols' i); rewrite mem_iota add0n lt_i.
Qed.

Lemma passing_truncated (n : nat) (c c' : seq Z) :
  truncated n c c' -> passing c' = n.
Proof. by case=> k [_ -> <- _]; rewrite passing_cat passing_nseq_sentinel. Qed.

Lemma passing_take_drop (k : nat) (c : seq Z) :
  passing c = passing (take k c) + passing (drop k c).
Proof. by rewrite -passing_cat cat_take_drop. Qed.

(** The number of leading rows that [truncated] speaks of is determined by
    the column and the number of passing entries left. *)
Lemma truncated_prefix_unique (c : seq Z) (k1 k2 : nat) :
  k1 <= size c -> k2 <= size c ->
  passing (drop k1 c) = passing (drop k2 c) ->
  (0 < k1 -> nth 0%Z c k1.-1 = 0%Z) -> (0 < k2 -> nth 0%Z c k2.-1 = 0%Z) ->
  k1 = k2.
Proof.
wlog lt_k : k1 k2 / k1 < k2 => [hyp|] le1 le2 eq_pass last1 last2.
  case: (ltngtP k1 k2) => // lt_k; first exact: hyp.
  by apply/esym; apply: hyp.
have k2_gt0 : 0 < k2 by apply: leq_ltn_trans lt_k.
have := passing_drop_add k1 (k2 - k1) c; rewrite subnKC 1?ltnW // eq_pass.
move/eqP; rewrite -[X in X == _]add0n eqn_add2r eq_sym => /eqP no_pass.
have : nth 0%Z (take (k2 - k1) (drop k1 c)) (k2.-1 - k1) = 0%Z.
  have lt_i : k2.-1 - k1 < k2 - k1 by move: lt_k k2_gt0; clear; nat_lia.
  have le_i : k1 <= k2.-1 by move: lt_k k2_gt0; clear; nat_lia.
  by rewrite nth_take // nth_drop subnKC ?last2.
move=> at0; have : has (pred1 0%Z) (take (k2 - k1) (drop k1 c)).
  apply/(has_nthP 0%Z); exists (k2.-1 - k1); last by rewrite at0 /=.
  have lt_i : k2.-1 - k1 < k2 - k1 by move: lt_k k2_gt0; clear; nat_lia.
  by rewrite size_takel // size_drop leq_sub2r.
by rewrite has_count -/(passing _) no_pass.
Qed.

Lemma is_min_passing_unique (a : ndarray) (n1 n2 : nat) :
  is_min_passing a n1 -> is_min_passing a n2 -> n1 = n2.
Proof.
move=> [le1 [i1 lt1 eq1]] [le2 [i2 lt2 eq2]]; apply/eqP; rewrite eqn_leq.
by rewrite {1}eq2 {2}eq1 le1 // le2.
Qed.

(** C1, as stated, fails: on [failed_first] column 0 has three passing shots
    and [n_pass_min] is 2, yet the truncation overwrites two entries of that
    column, not one, and one of them is the herald-failed entry of row 0,
    which becomes the sentinel. *)
Lemma truncation_overwrites_failed_entry :
  exists a' : ndarray,
    [/\ truncate 5 failed_first = Return a',
        passing (column failed_first 0) = 3 /\ is_min_passing failed_first 2,
        column failed_first 0 = [:: 1; 0; 0; 0]%Z /\
        column a' 0 = [:: -1; -1; 0; 0]%Z,
        overwritten (column failed_first 0) (column a' 0) = 2
      & nth 0%Z (column failed_first 0) 0 != 0%Z /\
        nth 0%Z (column a' 0) 0 != nth 0%Z (column failed_first 0) 0].
Proof.
eexists; split; first by vm_compute; reflexivity.
- split=> //; split; last by exists 1.
  by case=> [|[|i]].
- by [].
- by [].
- by [].
Qed.

(** C1, amended: for every column whose passing count exceeds [n_pass_min]
    the truncation overwrites with the sentinel -1 the [k] leading rows of the
    column, where [k] is the least number of leading rows that holds
    [passing_count - n_pass_min] passing entries.  So exactly that many
    passing entries are overwritten, they are the lowest-indexed passing rows,
    the herald-failed entries among the leading [k] rows become the sentinel
    as well, and every entry from row [k] on is unchanged; a column whose
    passing count is [n_pass_min] is unchanged.  In the scenario with ten
    repetitions and two sweep points, eight passing shots in column 0 among
    which shots 0 and 1, and six in column 1, exactly shots 0 and 1 of column 0
    are set to the sentinel. *)
Theorem truncation_overwrites_leading_rows (fuel : nat) (a : ndarray) :
  well_shaped a -> 0 < ncols a -> size (rows a) < fuel ->
  exists (n_pass_min : nat) (a' : ndarray),
    [/\ truncate fuel a = Return a' /\ is_min_passing a n_pass_min,
        forall i, i < ncols a -> n_pass_min < passing (column a i) ->
          exists k : nat,
            [/\ 0 < k <= size (column a i),
                column a' i = nseq k (-1)%Z ++ drop k (column a i),
                passing (take k (column a i))
                  = passing (column a i) - n_pass_min
              & nth 0%Z (column a i) k.-1 = 0%Z],
        forall i, i < ncols a -> passing (column a i) = n_pass_min ->
          column a' i = column a i
      & size (rows a) = 10 -> ncols a = 2 ->
        passing (column a 0) = 8 -> passing (column a 1) = 6 ->
        nth 0%Z (column a 0) 0 = 0%Z -> nth 0%Z (column a 0) 1 = 0%Z ->
        column a' 0 = [:: -1; -1]%Z ++ drop 2 (column a 0) /\
        column a' 1 = column a 1].
Proof.
move=> wf nc_gt0 lt_fuel.
have [n [a' [run min_n [wf' shape'] cols']]] := truncate_spec wf nc_gt0 lt_fuel.
have unchanged i : i < ncols a -> passing (column a i) = n ->
    column a' i = column a i.
  move=> /cols' [k [le_k -> pass_k last_k]] pass_i.
  suff -> : k = 0 by rewrite drop0.
  by apply: (@truncated_prefix_unique (column a i)); rewrite ?drop0 ?pass_k.
have exceeding i k : i < ncols a -> k <= size (column a i) ->
    passing (drop k (column a i)) = n ->
    (0 < k -> nth 0%Z (column a i) k.-1 = 0%Z) ->
    column a' i = nseq k (-1)%Z ++ drop k (column a i).
  move=> /cols' [k' [le_k' -> pass_k' last_k']] le_k pass_k last_k.
  suff -> : k' = k by [].
  by apply: (@truncated_prefix_unique (column a i)); rewrite ?pass_k ?pass_k'.
exists n, a'; split=> //.
- move=> i lt_i lt_n; have [k [le_k col_k pass_k last_k]] := cols' i lt_i.
  have k_gt0 : 0 < k.
    by case: k pass_k {le_k col_k last_k} => // pass_k; rewrite -pass_k drop0 ltnn in lt_n.
  exists k; split=> //; rewrite ?k_gt0 ?last_k //.
  by rewrite (passing_take_drop k (column a i)) pass_k addnK.
- move=> sz nc pass0 pass1 at0 at1.
  have n6 : n = 6.
    apply: (is_min_passing_unique min_n); split; last by exists 1; rewrite ?nc.
    by rewrite nc; case=> [|[|i]] //; rewrite ?pass0 ?pass1.
  split; last by apply: unchanged; rewrite ?nc ?n6.
  apply: (@exceeding 0 2); rewrite ?nc ?size_column ?sz //.
  move: pass0 at0 at1 (size_column a 0); rewrite sz n6.
  case: (column a 0) => [|x [|y c]] //= pass_c x0 y0 _.
  by move: pass_c; rewrite x0 y0 drop0 /= => -[].
Qed.

(** A run of the amended statement on [scenario_B]. *)
Lemma truncation_overwrites_leading_rows_scenario_B :
  exists (n_pass_min : nat) (a' : ndarray),
    [/\ truncate 11 scenario_B = Return a' /\ is_min_passing scenario_B n_pass_min,
        forall i, i < ncols scenario_B -> n_pass_min < passing (column scenario_B i) ->
          exists k : nat,
            [/\ 0 < k <= size (column scenario_B i),
                column a' i = nseq k (-1)%Z ++ drop k (column scenario_B i),
                passing (take k (column scenario_B i))
                  = passing (column scenario_B i) - n_pass_min
              & nth 0%Z (column scenario_B i) k.-1 = 0%Z],
        forall i, i < ncols scenario_B -> passing (column scenario_B i) = n_pass_min ->
          column a' i = column scenario_B i
      & size (rows scenario_B) = 10 -> ncols scenario_B = 2 ->
        passing (column scenario_B 0) = 8 -> passing (column scenario_B 1) = 6 ->
        nth 0%Z (column scenario_B 0) 0 = 0%Z -> nth 0%Z (column scenario_B 0) 1 = 0%Z ->
        column a' 0 = [:: -1; -1]%Z ++ drop 2 (column scenario_B 0) /\
        column a' 1 = column scenario_B 1].
Proof. by apply: (@truncation_overwrites_leading_rows 11 scenario_B). Defined.

(** The mask the code computes in the scenario. *)
Example truncate_scenario_B :
  truncate 11 scenario_B =
  Return (Ndarray 2 [:: [:: -1; 1]; [:: -1; 0]; [:: 0; 0]; [:: 0; 1]; [:: 0; 0];
                        [:: 0; 1]; [:: 0; 0]; [:: 0; 0]; [:: 1; 1]; [:: 1; 0]]%Z).
Proof. by vm_compute. Qed.

(** The mask that is returned has [n_pass_min] passing entries in every
    column, [n_pass_min] being the least passing count of the columns of the
    combined mask; the loops end within one turn per repetition. *)
Lemma truncate_balances_columns (fuel : nat) (a : ndarray) :
  well_shaped a -> 0 < ncols a -> size (rows a) < fuel ->
  exists (n_pass_min : nat) (a' : ndarray),
    [/\ truncate fuel a = Return a', is_min_passing a n_pass_min,
        well_shaped a' /\ same_shape a' a
      & forall i, i < ncols a -> passing (column a' i) = n_pass_min].
Proof.
move=> wf nc_gt0 lt_fuel.
have [n [a' [run min_n shape' cols']]] := truncate_spec wf nc_gt0 lt_fuel.
by exists n, a'; split=> // i /cols' /passing_truncated.
Qed.

Lemma column_entry (a : ndarray) (k i : nat) :
  k < size (rows a) -> nth 0%Z (column a i) k = entry a k i.
Proof. by move=> lt_k; rewrite /column (nth_map [::]). Qed.

Lemma well_shaped_zeros_like (a : ndarray) :
  well_shaped a -> well_shaped (zeros_like a) /\ same_shape (zeros_like a) a.
Proof.
move=> /allP wf; split; last by rewrite /same_shape /= size_map !eqxx.
by apply/allP => r /mapP [r' /wf /= /eqP eq_r ->]; rewrite size_map eq_r.
Qed.

Lemma entry_zeros_like (a : ndarray) (k i : nat) : entry (zeros_like a) k i = 0%Z.
Proof.
rewrite /entry /zeros_like /=.
case: (ltnP k (size (rows a))) => [lt_k|ge_k]; last first.
  by rewrite [nth [::] _ _]nth_default ?size_map // nth_nil.
rewrite (nth_map [::]) //; move: (nth [::] (rows a) k) => r.
case: (ltnP i (size r)) => [lt_i|ge_i]; first by rewrite (nth_map 0%Z).
by rewrite nth_default // size_map.
Qed.

Lemma bitwise_or_spec (a b : ndarray) :
  well_shaped a -> well_shaped b -> same_shape a b ->
  exists m : ndarray,
    [/\ bitwise_or a b = Return m, well_shaped m, same_shape m a
      & forall k i, k < size (rows a) -> i < ncols a ->
          entry m k i = Z.lor (entry a k i) (entry b k i)].
Proof.
move=> /allP wf_a /allP wf_b shape; rewrite /bitwise_or shape.
case/andP: shape => /eqP eq_nc /eqP eq_sz.
have sz_a k : k < size (rows a) -> size (nth [::] (rows a) k) = ncols a.
  by move=> lt_k; apply/eqP/wf_a/mem_nth.
have sz_b k : k < size (rows a) -> size (nth [::] (rows b) k) = ncols a.
  by move=> lt_k; rewrite eq_nc; apply/eqP/wf_b/mem_nth; rewrite -eq_sz.
have sz_zip : size (zip (rows a) (rows b)) = size (rows a).
  by rewrite size_zip -eq_sz minnn.
eexists; split; first by [].
- apply/(all_nthP [::]) => k; rewrite size_map sz_zip => lt_k /=.
  rewrite (nth_map ([::], [::])) ?sz_zip // nth_zip //= size_map size_zip.
  by rewrite sz_a // sz_b // minnn.
- by rewrite /same_shape /= size_map sz_zip !eqxx.
- move=> k i lt_k lt_i; rewrite /entry /=.
  rewrite (nth_map ([::], [::])) ?sz_zip // nth_zip //=.
  rewrite (nth_map (0%Z, 0%Z)) ?size_zip ?sz_a ?sz_b ?minnn //.
  by rewrite nth_zip ?sz_a ?sz_b.
Qed.

End MaskFacts.

(** ** Dictionaries and outcomes *)

Module PyFacts.

Lemma bind_return (A B : Type) (m : outcome A) (k : A -> outcome B) (b : B) :
  bind m k = Return b -> exists2 a, m = Return a & k a = Return b.
Proof. by case: m => [a|e|] //= eq_b; exists a. Qed.

Lemma dict_get_set (V : Type) (d : dict V) (k k' : string) (v : V) :
  dict_get (dict_set d k v) k' = if k == k' then Return v else dict_get d k'.
Proof.
elim: d => [|[k0 v0] d IH] /=; first by case: eqP.
case: (eqVneq k0 k) => [->|ne0] /=; first by case: eqP.
by rewrite IH; case: (eqVneq k0 k') => // <-; rewrite eq_sym (negbTE ne0).
Qed.

Lemma dict_set_set (V : Type) (d : dict V) (k : string) (v w : V) :
  dict_set (dict_set d k v) k w = dict_set d k w.
Proof.
elim: d => [|[k0 v0] d IH] /=; first by rewrite eqxx.
by case: (eqVneq k0 k) => [eq0|ne] /=; rewrite ?eqxx ?(negbTE ne) ?IH.
Qed.

Lemma unzip1_dict_set (V : Type) (d : dict V) (k : string) (v : V) :
  k \in unzip1 d -> unzip1 (dict_set d k v) = unzip1 d.
Proof.
elim: d => [|[k0 v0] d IH] //=; rewrite in_cons.
by case: (eqVneq k0 k) => [->|ne0] //= /IH ->.
Qed.

Lemma dict_get_mem (V : Type) (d : dict V) (k : string) (v : V) :
  dict_get d k = Return v -> k \in unzip1 d.
Proof.
elim: d => [|[k0 v0] d IH] //=; rewrite in_cons eq_sym.
by case: (eqVneq k0 k) => //= _ /IH.
Qed.

Lemma dict_mem_get (V : Type) (d : dict V) (k : string) :
  k \in unzip1 d -> exists v, dict_get d k = Return v.
Proof.
elim: d => [|[k0 v0] d IH] //=; rewrite in_cons eq_sym.
by case: (eqVneq k0 k) => [_ _|_ /= /IH //]; exists v0.
Qed.

End PyFacts.

(** ** The linear solve *)

Module LinalgFacts.

Import Linalg GRing.Theory.
Local Open Scope ring_scope.

Lemma mx_of_seq_of_mx (n p : nat) (A : 'M[rat]_(n, p)) :
  mx_of n p (seq_of_mx A) = A.
Proof.
apply/matrixP => i j; rewrite /mx_of /seq_of_mx mxE.
rewrite (nth_map i) ?size_enum_ord // (nth_map j) ?size_enum_ord //.
by rewrite !nth_ord_enum.
Qed.

Lemma rectangular_seq_of_mx (n p : nat) (A : 'M[rat]_(n, p)) :
  rectangular n p (seq_of_mx A).
Proof.
rewrite /rectangular /seq_of_mx size_map size_enum_ord eqxx /=.
by apply/allP => r /mapP [i _ ->]; rewrite size_map size_enum_ord.
Qed.

(** What a returned solution satisfies. *)
Lemma solve_return (a b x : seq (seq rat)) :
  solve a b = Return x ->
  let n := size a in
  let p := size (head [::] b) in
  [/\ rectangular n n a, rectangular n p b, rectangular n p x,
      mx_of n n a \in unitmx
    & mx_of n n a *m mx_of n p x = mx_of n p b].
Proof.
rewrite /solve; case: ifP => // _; case: ifP => // /negbT.
rewrite negb_or negbK => /andP [_ rect_a]; case: ifP => // /negbFE rect_b.
case: ifP => // unit_a [<-]; split=> //; first exact: rectangular_seq_of_mx.
by rewrite mx_of_seq_of_mx mulKVmx.
Qed.

(** The exact solver keeps the contract. *)
Lemma solve_sound : sound solve.
Proof. by move=> a b x /solve_return []. Qed.

(** The solution is the only one. *)
Lemma solve_unique (a b x : seq (seq rat)) (y : 'M[rat]_(size a, size (head [::] b))) :
  solve a b = Return x ->
  mx_of (size a) (size a) a *m y = mx_of (size a) (size (head [::] b)) b ->
  y = mx_of (size a) (size (head [::] b)) x.
Proof.
move=> /solve_return /= [_ _ _ unit_a <-] /(congr1 (mulmx (invmx (mx_of _ _ a)))).
by rewrite !mulKmx.
Qed.

(** A singular matrix makes the exact solver raise. *)
Lemma solve_singular (a b : seq (seq rat)) :
  homogeneous a ->
  rectangular (size a) (size (head [::] b)) b ->
  mx_of (size a) (size a) a \notin unitmx ->
  solve a b = Raise LinAlgError.
Proof.
move=> hom_a rect_b /negbTE sing; rewrite /solve hom_a rect_b sing /=.
by case: ifP.
Qed.

Lemma solve_identity_unit (n : nat) : mx_of n n (identity n) = 1%:M.
Proof.
apply/matrixP => i j; rewrite /mx_of /identity !mxE.
rewrite (nth_map 0%nat) ?size_iota // (nth_map 0%nat) ?size_iota //.
by rewrite !nth_iota // !add0n.
Qed.

Lemma all_ones_singular : mx_of 2 2 Demo.all_ones \notin unitmx.
Proof.
rewrite unitmxE unitfE negbK.
have ne : (0 : 'I_2) != 1 by [].
rewrite (determinant_alternate ne) // => j.
by rewrite !mxE /=; case: j => [[|[|j]]].
Qed.

End LinalgFacts.

(** ** process_data *)

Module ProcessFacts.

Import Mask Process PyFacts MaskFacts.

Section Statements.

Variable iq : Type.

Implicit Types (d : data_dict iq) (k : string).

Lemma store_return (key : string) (rhs : data_dict iq -> outcome (value iq)) d d' :
  store key rhs d = (Return tt, d') ->
  exists2 v, rhs d = Return v & d' = dict_set d key v.
Proof. by rewrite /store; case: (rhs d) => [v|e|] //= [<-]; exists v. Qed.

(** A statement [data_dict[key] = ...] leaves the other keys alone, whether
    it returns or raises. *)
Lemma store_other (key : string) (rhs : data_dict iq -> outcome (value iq)) d k :
  k != key -> dict_get (store key rhs d).2 k = dict_get d k.
Proof.
move=> ne; rewrite /store; case: (rhs d) => [v|e|] //=.
by rewrite dict_get_set eq_sym (negbTE ne).
Qed.

Lemma then_other (s1 s2 : stmt iq) k :
  (forall d, dict_get (s1 d).2 k = dict_get d k) ->
  (forall d, dict_get (s2 d).2 k = dict_get d k) ->
  forall d, dict_get (then_ s1 s2 d).2 k = dict_get d k.
Proof.
move=> keep1 keep2 d; rewrite /then_; move: (keep1 d).
by case: (s1 d) => [[[]|e|] d1] //= <-.
Qed.

Lemma then_return (s1 s2 : stmt iq) d d' :
  then_ s1 s2 d = (Return tt, d') ->
  exists2 d1, s1 d = (Return tt, d1) & s2 d1 = (Return tt, d').
Proof. by rewrite /then_; case: (s1 d) => [[[]|e|] d1] //= eq2; exists d1. Qed.

End Statements.

(** The key [k] is not among those a sequence of statements stores. *)
Ltac keeps_key :=
  rewrite /rotate_readout /rotate_heralding /predict /correct /publish;
  repeat (apply: then_other => ?); apply: store_other.

Section Pipeline.

Variables (iq : Type) (lib : processing iq) (model : Type).

Implicit Types (st : process_manager iq) (d : data_dict iq) (r k : string).

Lemma pointwise_refl (R : string -> data_dict iq -> data_dict iq -> Prop)
  (m : dict (data_dict iq)) :
  (forall r d, R r d d) -> pointwise R m m.
Proof. by move=> R_refl; elim: m => [|[r d] m IH]. Qed.

Lemma pointwise_trans (R : string -> data_dict iq -> data_dict iq -> Prop)
  (m1 m2 m3 : dict (data_dict iq)) :
  (forall r d1 d2 d3, R r d1 d2 -> R r d2 d3 -> R r d1 d3) ->
  pointwise R m1 m2 -> pointwise R m2 m3 -> pointwise R m1 m3.
Proof.
move=> R_trans; elim: m1 m2 m3 => [|[r1 d1] m1 IH] [|[r2 d2] m2] [|[r3 d3] m3] //=.
case=> -> R12 p12 [-> R23 p23]; split=> //; first exact: R_trans R12 R23.
exact: IH p12 p23.
Qed.

(** A loop that returns has run its body to the end on every channel. *)
Lemma for_items_return (body : string -> stmt iq) (m m' : dict (data_dict iq)) :
  for_items body m = (Return tt, m') ->
  pointwise (fun r d d' => body r d = (Return tt, d')) m m'.
Proof.
elim: m m' => [|[r d] m IH] m' /=; first by case=> <-.
case E: (body r d) => [[[]|e|] d1] //=.
by case E': (for_items body m) => [o m1] [eq_o <-] /=; split=> //; apply: IH; rewrite E' eq_o.
Qed.

(** Keys the body leaves alone are left alone by the loop, however it
    ends. *)
Lemma for_items_other (body : string -> stmt iq) k (m : dict (data_dict iq)) :
  (forall r d, dict_get (body r d).2 k = dict_get d k) ->
  pointwise (fun _ d d' => dict_get d' k = dict_get d k) m (for_items body m).2.
Proof.
move=> keep; elim: m => [|[r d] m IH] //=.
move: (keep r d); case: (body r d) => [[[]|e|] d1] /= keep_d.
- by case: (for_items body m) IH => [o m1] /= IH; split.
- by split=> //; apply: pointwise_refl.
- by split=> //; apply: pointwise_refl.
Qed.

Lemma for_measurement_return (body : string -> stmt iq) st st' :
  for_measurement body st = (Return tt, st') ->
  exists m m',
    [/\ measurement st = Some m, st' = set_measurement st (Some m')
      & pointwise (fun r d d' => body r d = (Return tt, d')) m m'].
Proof.
rewrite /for_measurement; case: (measurement st) => [m|] //.
case E: (for_items body m) => [o m'] [eq_o <-]; exists m, m'; split=> //.
by apply: for_items_return; rewrite E eq_o.
Qed.

Lemma for_measurement_other (body : string -> stmt iq) k st (m : dict (data_dict iq)) :
  (forall r d, dict_get (body r d).2 k = dict_get d k) ->
  measurement st = Some m ->
  exists m',
    [/\ (for_measurement body st).2 = set_measurement st (Some m')
      & pointwise (fun _ d d' => dict_get d' k = dict_get d k) m m'].
Proof.
move=> keep eq_m; rewrite /for_measurement eq_m.
move: (for_items_other m keep); case: (for_items body m) => [o m'] /= keep_m.
by exists m'.
Qed.

(** The subscript of the keys view raises, whatever the batch holds. *)
Lemma heralding_test_TypeError (fuel : nat) st (m : dict (data_dict iq)) :
  measurement st = Some m -> heralding_test fuel st = Raise TypeError.
Proof. by rewrite /heralding_test /self_measurement => ->. Qed.

Lemma heralding_classify_other st r d k :
  k \in heralding_results ->
  dict_get (heralding_classify lib st r d).2 k = dict_get d k.
Proof.
move=> k_in; rewrite /heralding_classify.
by keeps_key; move: k_in; rewrite !inE => /or4P [] /eqP ->.
Qed.

Lemma heralding_routine_raises (fuel : nat) st (m : dict (data_dict iq)) :
  measurement st = Some m ->
  exists m',
    [/\ (heralding_routine lib fuel st).1 <> Return tt,
        (heralding_routine lib fuel st).2 = set_measurement st (Some m')
      & forall k, k \in heralding_results ->
          pointwise (fun _ d d' => dict_get d' k = dict_get d k) m m'].
Proof.
move=> eq_m; rewrite /heralding_routine.
have [m' eq_st'] : exists m', (for_measurement (heralding_classify lib st) st).2
                              = set_measurement st (Some m').
  by rewrite /for_measurement eq_m; case: (for_items _ m) => [o m'] /=; exists m'.
have keep k : k \in heralding_results ->
    pointwise (fun _ d d' => dict_get d' k = dict_get d k) m m'.
  move=> k_in.
  have [|m'' [eq_st'' keep]] := @for_measurement_other (heralding_classify lib st) k st m _ eq_m.
    by move=> r d; apply: heralding_classify_other.
  by move: eq_st''; rewrite eq_st' => -[->].
exists m'; move: eq_st'.
case: (for_measurement _ st) => [[[]|e|] st1] /= eq_st1; split=> //.
- by rewrite (@heralding_test_TypeError fuel st1 m') // eq_st1.
- by rewrite (@heralding_test_TypeError fuel st1 m') // eq_st1.
Qed.

Lemma same_shape_sym (a b : ndarray) : same_shape a b = same_shape b a.
Proof. by rewrite /same_shape [ncols a == _]eq_sym [size _ == _]eq_sym. Qed.

Lemma same_shape_trans (a b c : ndarray) :
  same_shape a b -> same_shape b c -> same_shape a c.
Proof.
by rewrite /same_shape => /andP [/eqP -> /eqP ->] /andP [/eqP -> /eqP ->]; rewrite !eqxx.
Qed.

Lemma Zlor_eq0 (x y : Z) : (Z.lor x y == 0%Z) = (x == 0%Z) && (y == 0%Z).
Proof.
apply/eqP/andP => [/Z.lor_eq_0_iff [-> ->] //|[/eqP -> /eqP ->]].
exact/Z.lor_eq_0_iff.
Qed.

(** The loop over the channels: an entry of the combined mask is 0 when
    the entry it started from and that of every channel are 0. *)
Lemma combine_spec (meas : dict (data_dict iq)) (labels : string -> ndarray)
  (rs : seq string) :
  forall m0 : ndarray,
    well_shaped m0 ->
    (forall r, r \in rs ->
       [/\ heralding_labels meas r = Return (labels r), well_shaped (labels r)
         & same_shape (labels r) m0]) ->
    exists m : ndarray,
      [/\ combine meas rs m0 = Return m, well_shaped m, same_shape m m0
        & forall i j, i < size (rows m0) -> j < ncols m0 ->
            (entry m i j == 0%Z)
            = (entry m0 i j == 0%Z)
              && all (fun r => entry (labels r) i j == 0%Z) rs].
Proof.
elim: rs => [|r rs IH] m0 wf0 ok /=.
  exists m0; split=> //; first by rewrite /same_shape !eqxx.
  by move=> i j _ _; rewrite andbT.
have [eq_r wf_r shape_r] := ok r (mem_head _ _).
have [m1 [eq1 wf1 shape1 entry1]] :
  exists m1, [/\ bitwise_or m0 (labels r) = Return m1, well_shaped m1,
                 same_shape m1 m0
               & forall i j, i < size (rows m0) -> j < ncols m0 ->
                   entry m1 i j = Z.lor (entry m0 i j) (entry (labels r) i j)].
  by apply: bitwise_or_spec; rewrite // same_shape_sym.
have [|m [eq_m wf shape entries]] := IH m1 wf1.
  move=> r' r'_in; have [|-> wf' shape'] := ok r'; first by rewrite in_cons r'_in orbT.
  by split=> //; apply: same_shape_trans shape' _; rewrite same_shape_sym.
exists m; split=> //; first by rewrite eq_r /= eq1 /= eq_m.
  exact: same_shape_trans shape shape1.
case/andP: shape1 => /eqP eq_nc /eqP eq_sz i j lt_i lt_j.
by rewrite entries ?eq_nc ?eq_sz // entry1 // Zlor_eq0 andbA.
Qed.

(** What [heralding_test] would go on to compute after [resonators[0]]:
    for channels with label arrays of one shape, the combined mask has a 0
    where every channel has one, and the mask returned has [n_pass_min]
    passing entries in every column. *)
Lemma heralding_mask_after_subscript (fuel : nat) (meas : dict (data_dict iq))
  (labels : string -> ndarray) (r0 : string) :
  r0 \in unzip1 meas ->
  (forall r, r \in unzip1 meas ->
     [/\ heralding_labels meas r = Return (labels r), well_shaped (labels r)
       & same_shape (labels r) (labels r0)]) ->
  0 < ncols (labels r0) -> size (rows (labels r0)) < fuel ->
  exists (combined : ndarray) (n_pass_min : nat) (mask : ndarray),
    [/\ (a0 <- heralding_labels meas r0 ;;
         m <- combine meas (iter (keys meas)) (zeros_like a0) ;;
         truncate fuel m) = Return mask,
        forall i j, i < size (rows (labels r0)) -> j < ncols (labels r0) ->
          (entry combined i j == 0%Z)
          = all (fun r => entry (labels r) i j == 0%Z) (unzip1 meas),
        is_min_passing combined n_pass_min,
        well_shaped mask /\ same_shape mask (labels r0)
      & forall j, j < ncols (labels r0) ->
          passing (column mask j) = n_pass_min].
Proof.
move=> r0_in ok nc_gt0 lt_fuel.
have [eq0 wf0 _] := ok r0 r0_in.
have [wfz shapez] := well_shaped_zeros_like wf0.
have [|m [eq_m wf_m shape_m entries]] :=
  @combine_spec meas labels (unzip1 meas) (zeros_like (labels r0)) wfz.
  move=> r /ok [-> wf_r shape_r]; split=> //.
  by apply: same_shape_trans shape_r _; rewrite same_shape_sym.
have shape_m0 : same_shape m (labels r0) := same_shape_trans shape_m shapez.
case/andP: (shape_m0) => /eqP eq_nc /eqP eq_sz.
have [||n [mask [run min_n [wf_mask shape_mask] cols]]] :=
  @truncate_balances_columns fuel m wf_m; rewrite ?eq_nc ?eq_sz //.
exists m, n, mask; split=> //.
- by rewrite eq0 /= eq_m.
- case/andP: shapez => /eqP eq_ncz /eqP eq_szz i j lt_i lt_j.
  by rewrite entries ?eq_ncz ?eq_szz // entry_zeros_like eqxx.
- by split=> //; apply: same_shape_trans shape_mask shape_m0.
- by move=> j lt_j; apply: cols; rewrite eq_nc.
Qed.

(** C4: on every batch [heralding_test] raises [TypeError] at the subscript
    of the keys view, before any mask is built; so the heralding routine
    never returns, and the four keys of its second loop are, for every
    channel, what they were before the call. *)
Theorem heralding_test_always_raises (fuel : nat) st (m m0 : dict (data_dict iq))
  (f : model) :
  measurement st = Some m ->
  heralding_test fuel st = Raise TypeError /\
  (customized st = false -> heralding st = true ->
   exists m',
     [/\ (process_data lib fuel st m0 f).1 <> Return tt,
         measurement (process_data lib fuel st m0 f).2 = Some m'
       & forall k, k \in heralding_results ->
           pointwise (fun _ d d' => dict_get d' k = dict_get d k) m m']).
Proof.
move=> eq_m; split; first exact: heralding_test_TypeError eq_m.
move=> no_custom herald; rewrite /process_data no_custom herald.
have [m' [not_ret -> keep]] := heralding_routine_raises fuel eq_m.
by exists m'.
Qed.

(** Had the keys been copied to a list, the subscript would still raise on
    a batch without channels. *)
Lemma subscript_of_no_key :
  getitem (PyList (iter (keys ([::] : dict (data_dict iq))))) 0 = Raise IndexError.
Proof. by []. Qed.

(** C8: on a batch without channels [heralding_test] raises; it does not
    return a mask. *)
Theorem heralding_test_no_channel_raises (fuel : nat) st :
  heralding_test fuel (set_measurement st (Some [::])) = Raise TypeError /\
  raises (heralding_test fuel (set_measurement st (Some [::]))).
Proof. by []. Qed.

(** C5: [process_data] is the run of the one routine that the priority
    order customized, heralding, classification, default selects. *)
Theorem process_data_runs_one_routine (fuel : nat) st (m0 : dict (data_dict iq))
  (f : model) :
  [/\ process_data lib fuel st m0 f
        = run_routine lib fuel (routine_by_priority st) st,
      customized st ->
        routine_by_priority st = Customized /\
        process_data lib fuel st m0 f = (Return tt, st),
      ~~ customized st -> heralding st ->
        routine_by_priority st = Heralding /\
        process_data lib fuel st m0 f = heralding_routine lib fuel st,
      ~~ customized st -> ~~ heralding st -> classification st ->
        routine_by_priority st = Classification /\
        process_data lib fuel st m0 f = classification_routine lib st
    & (routine_by_priority st = Bare <->
       [/\ customized st = false, heralding st = false
          & classification st = false]) /\
      (routine_by_priority st = Bare ->
       process_data lib fuel st m0 f = bare_routine lib st)].
Proof.
rewrite /process_data /routine_by_priority.
case: (customized st); case: (heralding st); case: (classification st);
  by split=> //=; split=> //; split=> // -[].
Qed.

(** C9, amended: the result of [process_data] does not depend on the
    [measurement] argument; the call raises [AttributeError] when
    [self.measurement] was never set and the customized flag is unset (with
    the customized flag set it returns and touches nothing). *)
Theorem process_data_ignores_measurement_argument (fuel : nat) st
  (m1 m2 : dict (data_dict iq)) (f : model) :
  [/\ process_data lib fuel st m1 f = process_data lib fuel st m2 f,
      measurement st = None -> customized st = false ->
        process_data lib fuel st m1 f = (Raise AttributeError, st)
    & customized st = true -> process_data lib fuel st m1 f = (Return tt, st)].
Proof.
split=> // [unset no_custom|custom]; rewrite /process_data ?custom ?no_custom //.
rewrite /heralding_routine /classification_routine /bare_routine.
by rewrite /for_measurement unset; case: (heralding st); case: (classification st).
Qed.

End Pipeline.

(** C2, at a failing input: one channel, two shots at one sweep point, both
    heralded in the ground state.  [heralding_test] raises at
    [resonators[0]], and [process_data] ends with that exception after the
    first loop of the heralding routine; no mask is returned.  Lines 153 to
    162 would return the label array as the mask. *)
Theorem heralding_test_one_channel (fuel : nat) :
  [/\ process_data Demo.lib fuel Demo.heralding_batch [::] Demo.no_model
      = (Raise TypeError, Demo.classified_batch),
      heralding_test fuel Demo.classified_batch = Raise TypeError
    & truncate fuel.+3 Demo.ground_labels = Return Demo.ground_labels].
Proof. by split. Qed.

(** A run of C4 on a batch of one channel. *)
Lemma heralding_test_always_raises_batch :
  heralding_test 3 Demo.heralding_batch = Raise TypeError /\
  exists m',
    [/\ (process_data Demo.lib 3 Demo.heralding_batch [::] Demo.no_model).1
          <> Return tt,
        measurement (process_data Demo.lib 3 Demo.heralding_batch [::]
                       Demo.no_model).2 = Some m'
      & forall k, k \in heralding_results ->
          pointwise (fun _ d d' => dict_get d' k = dict_get d k)
            [:: ("R1"%string, Demo.raw_heralded)] m'].
Proof.
have [raised stored] :=
  @heralding_test_always_raises Demo.iq Demo.lib unit 3 Demo.heralding_batch
    [:: ("R1"%string, Demo.raw_heralded)] [::] Demo.no_model (erefl _).
by split; [exact: raised | exact: stored (erefl _) (erefl _)].
Defined.

(** A run of C5 on a batch with all three flags set. *)
Lemma process_data_runs_one_routine_flags :
  let st := Demo.unset_batch true in
  customized st /\ heralding st /\ classification st /\
  routine_by_priority st = Customized /\
  process_data Demo.lib 0 st [::] Demo.no_model = (Return tt, st).
Proof.
have [_ custom _ _ _] :=
  @process_data_runs_one_routine Demo.iq Demo.lib unit 0 (Demo.unset_batch true)
    [::] Demo.no_model.
by do 3!split=> //; exact: custom (erefl _).
Defined.

(** C9, as stated, fails for its last part: with the customized flag set
    the call returns although [self.measurement] was never set. *)
Lemma customized_returns_without_measurement :
  measurement (Demo.unset_batch true) = None /\
  process_data Demo.lib 0 (Demo.unset_batch true) [::] Demo.no_model
  = (Return tt, Demo.unset_batch true).
Proof. by []. Qed.

(** A run of the amended C9 without the customized flag. *)
Lemma process_data_ignores_measurement_argument_unset :
  process_data Demo.lib 0 (Demo.unset_batch false) [::] Demo.no_model
  = process_data Demo.lib 0 (Demo.unset_batch false)
      [:: ("R1"%string, Demo.raw_readout)] Demo.no_model /\
  process_data Demo.lib 0 (Demo.unset_batch false) [::] Demo.no_model
  = (Raise AttributeError, Demo.unset_batch false).
Proof.
have [same unset _] :=
  @process_data_ignores_measurement_argument Demo.iq Demo.lib unit 0
    (Demo.unset_batch false) [::] [:: ("R1"%string, Demo.raw_readout)]
    Demo.no_model.
by split; [exact: same | exact: unset (erefl _) (erefl _)].
Defined.

End ProcessFacts.

(** ** The readout correction *)

Module CorrectionFacts.

Import Mask Process PyFacts LinalgFacts ProcessFacts.
Import GRing.Theory.

Section Correction.

Variables (iq : Type) (lib : processing iq) (model : Type).

Implicit Types (st : process_manager iq) (d : data_dict iq) (r k : string).

Lemma np_linalg_solve_return (a : seq (seq rat)) (v w : value iq) :
  np_linalg_solve lib a v = Return w ->
  exists b x, [/\ v = Floats b, w = Floats x & linalg_solve lib a b = Return x].
Proof.
case: v => [?|?|b] //; rewrite /np_linalg_solve.
by case E: (linalg_solve lib a b) => [x|e|] //= [<-]; exists b, x.
Qed.

(** The two last statements of the loops that correct: what they store
    when they return. *)
Lemma correct_publish_return st r d d' :
  (correct lib st r ;;; publish "PopulationCorrected_readout")%py d = (Return tt, d') ->
  exists ch b x,
    [/\ config st r = Return ch,
        dict_get d "PopulationNormalized_readout" = Return (Floats b),
        linalg_solve lib (corr_matrix ch) b = Return x
      & d' = dict_set (dict_set d "PopulationCorrected_readout" (Floats x))
               "to_fit" (Floats x)].
Proof.
case/then_return=> d1 /store_return [w rhs eq_d1] /store_return [w' /= rhs' ->].
move: rhs'; rewrite eq_d1 dict_get_set /= => -[<-].
have [ch eq_ch rhs1] := bind_return rhs.
have [v eq_v rhs2] := bind_return rhs1.
have [b [x [eq_b eq_w eq_x]]] := np_linalg_solve_return rhs2.
by exists ch, b, x; split; rewrite -?eq_b -?eq_w.
Qed.

Lemma classification_body_return st r d d' :
  classification_body lib st r d = (Return tt, d') ->
  exists ch b x,
    [/\ config st r = Return ch,
        dict_get d' "PopulationNormalized_readout" = Return (Floats b),
        dict_get d' "PopulationCorrected_readout" = Return (Floats x),
        dict_get d' "to_fit" = Return (Floats x)
      & linalg_solve lib (corr_matrix ch) b = Return x].
Proof.
rewrite /classification_body => /then_return [d1 /then_return [d0 _ run1] run2].
have: (correct lib st r ;;; publish "PopulationCorrected_readout")%py d0 = (Return tt, d').
  by rewrite /then_ run1.
case/correct_publish_return=> ch [b [x [eq_ch eq_b eq_x ->]]].
by exists ch, b, x; split=> //; rewrite !dict_get_set.
Qed.

Lemma for_items_cat (body : string -> stmt iq) (m1 m1' m2 : dict (data_dict iq)) :
  for_items body m1 = (Return tt, m1') ->
  for_items body (m1 ++ m2) =
  ((for_items body m2).1, m1' ++ (for_items body m2).2).
Proof.
elim: m1 m1' => [|[r d] m1 IH] m1' /=; first by case=> <-; case: (for_items _ _).
case: (body r d) => [[[]|e|] d1] //=.
case E: (for_items body m1) => [o m1''] [eq_o <-].
by rewrite (IH m1'') ?E ?eq_o //=; case: (for_items body m2).
Qed.

Lemma for_items_raise (body : string -> stmt iq) r d d1 (e : exn)
  (post : dict (data_dict iq)) :
  body r d = (Raise e, d1) ->
  for_items body ((r, d) :: post) = (Raise e, (r, d1) :: post).
Proof. by move=> /= ->. Qed.

(** The correction raises what the solve raises, and stores nothing. *)
Lemma classification_body_raise st r d d1 (ch : channel) (b : seq (seq rat))
  (e : exn) :
  classification_normalize lib st r d = (Return tt, d1) ->
  dict_get d1 "PopulationNormalized_readout" = Return (Floats b) ->
  config st r = Return ch ->
  linalg_solve lib (corr_matrix ch) b = Raise e ->
  classification_body lib st r d = (Raise e, d1).
Proof.
move=> run_d eq_b eq_ch failed.
rewrite /classification_body /then_ run_d /correct /store eq_ch /=.
by rewrite eq_b /= failed.
Qed.

Lemma heralding_correct_return st (mask : ndarray) r d d' :
  heralding_correct lib st mask r d = (Return tt, d') ->
  exists ch b x,
    [/\ config st r = Return ch,
        dict_get d' "PopulationNormalized_readout" = Return (Floats b),
        dict_get d' "PopulationCorrected_readout" = Return (Floats x),
        dict_get d' "to_fit" = Return (Floats x)
      & linalg_solve lib (corr_matrix ch) b = Return x].
Proof.
rewrite /heralding_correct => /then_return [d1 /then_return [d0 _ run1] run2].
have: (correct lib st r ;;; publish "PopulationCorrected_readout")%py d0 = (Return tt, d').
  by rewrite /then_ run1.
case/correct_publish_return=> ch [b [x [eq_ch eq_b eq_x ->]]].
by exists ch, b, x; split=> //; rewrite !dict_get_set.
Qed.

Lemma corrected_of_return st r d' (ch : channel) (b x : seq (seq rat)) :
  config st r = Return ch ->
  dict_get d' "PopulationNormalized_readout" = Return (Floats b) ->
  dict_get d' "PopulationCorrected_readout" = Return (Floats x) ->
  dict_get d' "to_fit" = Return (Floats x) ->
  linalg_solve lib (corr_matrix ch) b = Return x ->
  corrected lib st r d'.
Proof.
move=> eq_ch eq_b eq_x eq_fit solved; exists ch, b, x; split=> //.
by move=> ok; apply: ok solved.
Qed.

(** C3, amended: for every channel that the correcting loop of the
    classification routine (lines 105 to 119) or of the heralding routine
    (lines 91 to 101) has processed, the stored
    [PopulationCorrected_readout] is what [np.linalg.solve] returned for the
    matrix [corr_matrix], taken as it is in the configuration and not
    transposed, and the right hand side [PopulationNormalized_readout];
    [to_fit] is that same array, neither clamped nor renormalized; hence,
    with a solve that returns solutions of the system it is given, the
    stored array [x] satisfies [corr_matrix . x =
    PopulationNormalized_readout].  For the classification routine this is
    said of a returning [process_data]; the second loop of the heralding
    routine is taken on its own, for any mask, since [process_data] does not
    reach it. *)
Theorem corrected_population_solves_corr_matrix (fuel : nat) st st'
  (m0 : dict (data_dict iq)) (f : model) :
  (customized st = false -> heralding st = false -> classification st = true ->
   process_data lib fuel st m0 f = (Return tt, st') ->
   exists m m',
     [/\ measurement st = Some m, measurement st' = Some m'
       & pointwise (fun r d d' => corrected lib st r d') m m']) /\
  (forall (heralding_mask : ndarray) (m m' : dict (data_dict iq)),
     for_items (heralding_correct lib st heralding_mask) m = (Return tt, m') ->
     pointwise (fun r d d' => corrected lib st r d') m m').
Proof.
split.
  move=> no_custom no_herald classif.
  rewrite /process_data no_custom no_herald classif /classification_routine.
  case/for_measurement_return=> m [m' [eq_m -> run]]; exists m, m'; split=> //.
  elim: m m' run {eq_m} => [|[r d] m IH] [|[r' d'] m'] //= [-> run_d /IH run_m].
  split=> // {run_m}.
  have [ch [b [x [eq_ch eq_b eq_x eq_fit solved]]]] := classification_body_return run_d.
  exact: corrected_of_return eq_ch eq_b eq_x eq_fit solved.
move=> mask m m' /for_items_return.
elim: m m' => [|[r d] m IH] [|[r' d'] m'] //= [-> run_d /IH run_m].
split=> // {run_m}.
have [ch [b [x [eq_ch eq_b eq_x eq_fit solved]]]] := heralding_correct_return run_d.
exact: corrected_of_return eq_ch eq_b eq_x eq_fit solved.
Qed.

(** C7: when the solve of a channel fails (as it does for a singular
    [corr_matrix] such as the all-ones matrix), [process_data] raises the
    exception of the solve: nothing is put in its place, the channels before
    it have been processed, the channels after it are untouched, and the
    channel itself has neither a corrected population nor [to_fit] stored by
    the call. *)
Theorem singular_corr_matrix_aborts (fuel : nat) st (m0 : dict (data_dict iq))
  (f : model) (pre pre' post : dict (data_dict iq)) r d d1 (ch : channel)
  (b : seq (seq rat)) (e : exn) :
  customized st = false -> heralding st = false -> classification st = true ->
  measurement st = Some (pre ++ (r, d) :: post) ->
  for_items (classification_body lib st) pre = (Return tt, pre') ->
  classification_normalize lib st r d = (Return tt, d1) ->
  dict_get d1 "PopulationNormalized_readout" = Return (Floats b) ->
  config st r = Return ch ->
  linalg_solve lib (corr_matrix ch) b = Raise e ->
  [/\ process_data lib fuel st m0 f
      = (Raise e, set_measurement st (Some (pre' ++ (r, d1) :: post))),
      dict_get d1 "to_fit" = dict_get d "to_fit"
    & dict_get d1 "PopulationCorrected_readout"
      = dict_get d "PopulationCorrected_readout"].
Proof.
move=> no_custom no_herald classif eq_m run_pre run_d eq_b eq_ch failed.
have keep k : k \in [:: "to_fit"; "PopulationCorrected_readout"]%string ->
    dict_get d1 k = dict_get d k.
  move=> k_in; have -> : d1 = (classification_normalize lib st r d).2 by rewrite run_d.
  rewrite /classification_normalize.
  by keeps_key; move: k_in; rewrite !inE => /orP [] /eqP ->.
split; rewrite ?keep //.
rewrite /process_data no_custom no_herald classif.
rewrite /classification_routine /for_measurement eq_m (for_items_cat _ run_pre).
by rewrite (for_items_raise _ (classification_body_raise run_d eq_b eq_ch failed)).
Qed.

End Correction.

End CorrectionFacts.

(** ** Runs on concrete batches *)

Module Runs.

Import Mask Process PyFacts LinalgFacts ProcessFacts CorrectionFacts.
Import GRing.Theory.
Local Open Scope ring_scope.

Local Arguments Linalg.solve : simpl never.

Lemma skewed_unit : Linalg.mx_of 2 2 Demo.skewed \in unitmx.
Proof.
suff /mulmx1_unit [] :
  Linalg.mx_of 2 2 Demo.skewed *m Linalg.mx_of 2 2 Demo.skewed_inverse = 1%:M by [].
apply/matrixP => i j; rewrite !mxE !big_ord_recl big_ord0 !mxE /=.
by case: i => [[|[|i]] //= ?]; case: j => [[|[|j]] //= ?].
Qed.

Lemma normalize_two_shots (corr : seq (seq rat)) :
  classification_normalize Demo.lib (Demo.classification_batch corr) "R1"
    Demo.raw_readout
  = (Return tt, Demo.normalized_readout).
Proof.
rewrite /classification_normalize /then_ /rotate_readout /predict /store /=.
by rewrite /Demo.nearest /Demo.dist2 /= /Demo.population /=.
Qed.

Lemma solve_skewed :
  Linalg.solve Demo.skewed Demo.half_half = Return Demo.skewed_solution.
Proof. by rewrite /Linalg.solve /= skewed_unit. Qed.

Lemma run_skewed :
  process_data Demo.lib 0 (Demo.classification_batch Demo.skewed) [::]
    Demo.no_model
  = (Return tt, Demo.corrected_batch).
Proof.
rewrite /process_data /= /classification_routine /for_measurement /=.
rewrite /classification_body {1 2}/then_ normalize_two_shots.
by rewrite /correct /publish /store /= solve_skewed.
Qed.

(** C3, as stated, fails: with the correction matrix [skewed] the stored
    [PopulationCorrected_readout] solves the system of the matrix itself,
    and it does not solve the system of the transposed matrix. *)
Lemma correction_is_not_against_transpose :
  exists (st' : process_manager Demo.iq) (d' : data_dict Demo.iq)
         (x : seq (seq rat)),
    [/\ process_data Demo.lib 0 (Demo.classification_batch Demo.skewed) [::]
          Demo.no_model = (Return tt, st'),
        measurement st' = Some [:: ("R1"%string, d')],
        [/\ dict_get d' "PopulationNormalized_readout"
              = Return (Floats Demo.half_half),
            dict_get d' "PopulationCorrected_readout" = Return (Floats x)
          & dict_get d' "to_fit" = Return (Floats x)],
        Linalg.mx_of 2 2 Demo.skewed *m Linalg.mx_of 2 1 x
          = Linalg.mx_of 2 1 Demo.half_half
      & (Linalg.mx_of 2 2 Demo.skewed)^T *m Linalg.mx_of 2 1 x
          <> Linalg.mx_of 2 1 Demo.half_half].
Proof.
exists Demo.corrected_batch, Demo.corrected_readout, Demo.skewed_solution.
have /= [_ _ _ _ eq_x] := solve_return solve_skewed.
split=> //; first exact: run_skewed.
move: (Linalg.mx_of 2 1 Demo.skewed_solution) eq_x => X eq_x eq_t.
have := congr1 (fun M : 'M_(2, 1) => M 0 0) eq_x.
have := congr1 (fun M : 'M_(2, 1) => M 1 0) eq_x.
have := congr1 (fun M : 'M_(2, 1) => M 1 0) eq_t.
rewrite !mxE !big_ord_recl !big_ord0 !mxE /=.
by move: (X 0 0) (X 1 0) => x0 x1; lra.
Qed.

Lemma run_heralding_correct :
  for_items (heralding_correct Demo.lib (Demo.classification_batch Demo.skewed)
               Demo.ground_labels)
    [:: ("R1"%string, Demo.classified_heralded)]
  = (Return tt, [:: ("R1"%string, Batch.heralded_corrected)]).
Proof.
rewrite /= /heralding_correct /then_ /correct /publish /store /=.
by rewrite /Demo.population /= solve_skewed.
Qed.

Lemma solve_all_ones :
  Linalg.solve Demo.all_ones Demo.half_half = Raise LinAlgError.
Proof. by apply: solve_singular => //; apply: all_ones_singular. Qed.

(** A run of the amended C3: the classification routine on the batch
    above, and the second loop of the heralding routine on the classified
    batch with the mask that lets every shot pass. *)
Lemma corrected_population_solves_corr_matrix_skewed :
  (exists m m',
     [/\ measurement (Demo.classification_batch Demo.skewed) = Some m,
         measurement Demo.corrected_batch = Some m'
       & pointwise (fun r d d' =>
           corrected Demo.lib (Demo.classification_batch Demo.skewed) r d')
           m m']) /\
  pointwise (fun r d d' =>
      corrected Demo.lib (Demo.classification_batch Demo.skewed) r d')
    [:: ("R1"%string, Demo.classified_heralded)]
    [:: ("R1"%string, Batch.heralded_corrected)].
Proof.
have [classified heralded] :=
  @corrected_population_solves_corr_matrix Demo.iq Demo.lib unit 0
    (Demo.classification_batch Demo.skewed) Demo.corrected_batch [::]
    Demo.no_model.
split.
  apply: classified.
  - reflexivity.
  - reflexivity.
  - reflexivity.
  - exact: run_skewed.
apply: (heralded Demo.ground_labels).
exact: run_heralding_correct.
Defined.

(** A run of C7: the correction matrix is the all-ones matrix. *)
Lemma singular_corr_matrix_aborts_all_ones :
  [/\ process_data Demo.lib 0 (Demo.classification_batch Demo.all_ones) [::]
        Demo.no_model
      = (Raise LinAlgError,
         set_measurement (Demo.classification_batch Demo.all_ones)
           (Some ([::] ++ ("R1"%string, Demo.normalized_readout) :: [::]))),
      dict_get Demo.normalized_readout "to_fit"
      = dict_get Demo.raw_readout "to_fit"
    & dict_get Demo.normalized_readout "PopulationCorrected_readout"
      = dict_get Demo.raw_readout "PopulationCorrected_readout"].
Proof.
apply: (@singular_corr_matrix_aborts Demo.iq Demo.lib unit 0
          (Demo.classification_batch Demo.all_ones) [::] Demo.no_model
          [::] [::] [::] "R1" Demo.raw_readout Demo.normalized_readout
          (Demo.two_levels Demo.all_ones) Demo.half_half LinAlgError).
- reflexivity.
- reflexivity.
- reflexivity.
- reflexivity.
- reflexivity.
- exact: normalize_two_shots.
- reflexivity.
- reflexivity.
- exact: solve_all_ones.
Defined.

End Runs.

(** ** check_IQ_matrices *)

Module CheckFacts.

Import Process PyFacts.

Section Check.

Variable iq : Type.

Implicit Types (st : process_manager iq) (ch : channel) (r : string).

Lemma shapes_agree_default (n : nat) ch :
  shapes_agree n (default_matrices n ch).
Proof. by rewrite /shapes_agree /Linalg.identity /= !size_map size_iota !eqxx. Qed.

Lemma checked_idem ch : checked (checked ch) = checked ch.
Proof.
rewrite {2 3}/checked; case: ifP => agree.
  by rewrite /checked /= agree.
rewrite /checked /= (_ : shapes_agree _ _ = true) //.
exact: (shapes_agree_default (size (readout_levels ch)) ch).
Qed.

Lemma check_channel_return r st ch :
  dict_get (channels st) r = Return ch ->
  exists st',
    [/\ check_channel r st = (Return tt, st'),
        channels st' = dict_set (channels st) r (checked ch),
        yaml_file st' = yaml_file st /\ resonators st' = resonators st,
        {subset stdout st <= stdout st'}
      & shapes_agree (size (readout_levels ch)) ch = false ->
        shape_warning r \in stdout st'].
Proof.
move=> eq_ch; rewrite /check_channel eq_ch /checked.
have -> : shapes_agree (size (readout_levels ch))
            (Channel (readout_levels ch) (Some (size (readout_levels ch)))
               (IQ_rotation_angle ch) (IQ_means ch) (IQ_covariances ch)
               (corr_matrix ch))
          = shapes_agree (size (readout_levels ch)) ch by [].
case: ifP => agree; eexists; split=> //=.
- by rewrite dict_set_set.
- by move=> line; rewrite mem_rcons in_cons orbC => ->.
- by move=> _; rewrite mem_rcons mem_head.
Qed.

Lemma check_channels_return (rs : seq string) :
  forall st,
    all (fun r => r \in unzip1 (channels st)) rs ->
    exists st',
      [/\ check_channels rs st = (Return tt, st'),
          yaml_file st' = yaml_file st /\ resonators st' = resonators st,
          {subset stdout st <= stdout st'},
          forall r,
            dict_get (channels st') r =
            if dict_get (channels st) r is Return ch
            then Return (if r \in rs then checked ch else ch)
            else dict_get (channels st) r
        & forall r ch, r \in rs -> dict_get (channels st) r = Return ch ->
            shapes_agree (size (readout_levels ch)) ch = false ->
            shape_warning r \in stdout st'].
Proof.
elim: rs => [|r0 rs IH] st /=.
  by move=> _; exists st; split=> // r; case: (dict_get _ r).
case/andP=> /dict_mem_get [ch0 eq_ch0] mem_rs.
have [st1 [-> eq_ch1 [yaml1 res1] out1 warn1]] := check_channel_return eq_ch0.
have [|st' [-> [yaml' res'] out' get' warn']] := IH st1.
  by rewrite eq_ch1 unzip1_dict_set // (dict_get_mem eq_ch0).
exists st'; split=> //.
- by rewrite yaml' res'.
- by move=> line /out1 /out'.
- move=> r; rewrite get' eq_ch1 dict_get_set in_cons [r == r0]eq_sym.
  case: (eqVneq r0 r) => [<-|ne] /=; last by [].
  by rewrite eq_ch0; case: ifP => _ //; rewrite checked_idem.
- move=> r ch; rewrite in_cons => /orP [/eqP ->|r_in] eq_ch disagree.
    by apply: out'; apply: warn1; move: eq_ch; rewrite eq_ch0 => -[->].
  case: (eqVneq r0 r) => [eq_r|ne].
    move: eq_ch; rewrite -eq_r eq_ch0 => -[eq0].
    by apply: out'; apply: warn1; rewrite eq0.
  apply: (warn' r ch) => //.
  by rewrite eq_ch1 dict_get_set (negbTE ne).
Qed.

(** In [load] the resonators that are checked are keys of the
    configuration, so that the check does not raise. *)
Lemma load_returns
  (super_load : process_manager iq -> outcome unit * process_manager iq) st st0 :
  super_load st = (Return tt, st0) ->
  exists st',
    load super_load st = (Return tt, st') /\ yaml_file st' = yaml_file st0.
Proof.
move=> loaded; rewrite /load loaded /check_IQ_matrices /=.
set rs := [seq key <- _ | _].
have [|st' [-> [yaml' _] _ _ _]] := @check_channels_return rs (set_resonators st0 rs).
  by apply/allP => r; rewrite mem_filter => /andP [].
by exists st'.
Qed.

(** C6: a channel whose [readout_levels], [IQ_means], [IQ_covariances] and
    [corr_matrix] do not all have the same length makes
    [check_IQ_matrices] neither raise nor save: its [corr_matrix] becomes the
    identity of size [n], the length of [readout_levels], its
    [IQ_covariances] become [n] ones, its [IQ_means] the points [[i, i]] for
    [i] below [n], so that the lengths agree again, and a warning naming the
    channel is printed.  A channel whose lengths agree keeps its matrices,
    and is unchanged when its [n_readout_levels] was already [n]. *)
Theorem check_IQ_matrices_regenerates st :
  all (fun r => r \in unzip1 (channels st)) (resonators st) ->
  exists st',
    [/\ check_IQ_matrices st = (Return tt, st'),
        yaml_file st' = yaml_file st
      & forall r ch,
          r \in resonators st -> dict_get (channels st) r = Return ch ->
          let n := size (readout_levels ch) in
          exists ch',
            [/\ dict_get (channels st') r = Return ch',
                [/\ readout_levels ch' = readout_levels ch,
                    IQ_rotation_angle ch' = IQ_rotation_angle ch
                  & n_readout_levels ch' = Some n],
                shapes_agree n ch = false ->
                  [/\ corr_matrix ch' = Linalg.identity n,
                      IQ_covariances ch' = nseq n 1%R,
                      IQ_means ch' = [seq [:: i%:R; i%:R]%R | i <- iota 0 n],
                      shapes_agree n ch'
                    & shape_warning r \in stdout st']
              & shapes_agree n ch ->
                  [/\ corr_matrix ch' = corr_matrix ch,
                      IQ_covariances ch' = IQ_covariances ch,
                      IQ_means ch' = IQ_means ch
                    & n_readout_levels ch = Some n -> ch' = ch]]].
Proof.
move=> mem_rs; rewrite /check_IQ_matrices.
have [st' [-> [yaml' _] _ get' warn']] := check_channels_return mem_rs.
exists st'; split=> // r ch r_in eq_ch /=.
exists (checked ch); rewrite get' eq_ch r_in; split=> //.
- by rewrite /checked; case: ifP.
- move=> disagree; rewrite /checked /= (_ : shapes_agree _ _ = false) //=.
  split=> //; first by elim: (size _) (0%nat) => [|n IH] k //=; rewrite IH.
  + exact: shapes_agree_default.
  + exact: warn' eq_ch disagree.
- move=> agree; rewrite /checked /= (_ : shapes_agree _ _ = true) //=.
  by split=> //; case: ch {eq_ch agree} => ? ? ? ? ? ? /= ->.
Qed.

End Check.

(** A run of C6: the matrices of R1 are for three levels and it has two,
    R2 is consistent. *)
Lemma check_IQ_matrices_regenerates_mismatched :
  exists st',
    [/\ check_IQ_matrices Demo.mismatched_manager = (Return tt, st'),
        yaml_file st' = yaml_file Demo.mismatched_manager
      & forall r ch,
          r \in resonators Demo.mismatched_manager ->
          dict_get (channels Demo.mismatched_manager) r = Return ch ->
          let n := size (readout_levels ch) in
          exists ch',
            [/\ dict_get (channels st') r = Return ch',
                [/\ readout_levels ch' = readout_levels ch,
                    IQ_rotation_angle ch' = IQ_rotation_angle ch
                  & n_readout_levels ch' = Some n],
                shapes_agree n ch = false ->
                  [/\ corr_matrix ch' = Linalg.identity n,
                      IQ_covariances ch' = nseq n 1%R,
                      IQ_means ch' = [seq [:: i%:R; i%:R]%R | i <- iota 0 n],
                      shapes_agree n ch'
                    & shape_warning r \in stdout st']
              & shapes_agree n ch ->
                  [/\ corr_matrix ch' = corr_matrix ch,
                      IQ_covariances ch' = IQ_covariances ch,
                      IQ_means ch' = IQ_means ch
                    & n_readout_levels ch = Some n -> ch' = ch]]].
Proof. by apply: (@check_IQ_matrices_regenerates Demo.iq Demo.mismatched_manager). Defined.

(** What the code leaves in the configuration after that run. *)
Example check_IQ_matrices_mismatched_R1 :
  dict_get (channels (check_IQ_matrices Demo.mismatched_manager).2) "R1"
  = Return (Channel [:: 0%Z; 1%Z] (Some 2) 0%R
              [:: [:: 0%:R; 0%:R]; [:: 1%:R; 1%:R]]%R [:: 1; 1]%R
              (Linalg.identity 2)) /\
  stdout (check_IQ_matrices Demo.mismatched_manager).2 = [:: shape_warning "R1"].
Proof. by []. Qed.

End CheckFacts.

(** ** VariableManager.load *)

Module VariablesFacts.

Import Variables PyFacts.

Implicit Types (st : variable_manager) (r : string).

Lemma Zleb_total : total Z.leb.
Proof.
move=> x y; apply/orP.
by case: (Z.leb_spec x y) => ?; [left|right; apply/Z.leb_le; lia].
Qed.

Lemma and_then_return (S : Type) (m : outcome unit * S)
  (k : S -> outcome unit * S) (s' : S) :
  and_then m k = (Return tt, s') ->
  exists2 s1, m = (Return tt, s1) & k s1 = (Return tt, s').
Proof. by case: m => [[[]|e|] s1] //= eq_k; exists s1. Qed.

Lemma update_resonator_return r (f : resonator -> outcome resonator) st st' :
  update_resonator r f st = (Return tt, st') ->
  exists rs rs',
    [/\ get_resonator st r = Return rs, f rs = Return rs',
        config_dict st' = dict_set (config_dict st) r (ResonatorE rs'),
        resonators st' = resonators st
      & get_resonator st' r = Return rs'].
Proof.
rewrite /update_resonator; case eq_rs: (get_resonator st r) => [rs|e|] //=.
case eq_rs': (f rs) => [rs'|e|] //= [<-]; exists rs, rs'; split=> //.
by rewrite /get_resonator /= dict_get_set eqxx.
Qed.

Lemma set_resonator_return r st st' :
  set_resonator r st = (Return tt, st') ->
  exists rs',
    [/\ config_dict st' = dict_set (config_dict st) r (ResonatorE rs'),
        resonators st' = resonators st & derived rs'].
Proof.
rewrite /set_resonator => run.
have [st1 /update_resonator_return [rs0 [rs1 [_ set1 cfg1 res1 get1]]] {}run] :=
  and_then_return run.
have [st2 /update_resonator_return [rs1' [rs2 [eq2 set2 cfg2 res2 get2]]] {}run] :=
  and_then_return run.
have [st3 /update_resonator_return [rs2' [rs3 [eq3 set3 cfg3 res3 get3]]] {}run] :=
  and_then_return run.
have [st4 /update_resonator_return [rs3' [rs4 [eq4 set4 cfg4 res4 get4]]] {}run] :=
  and_then_return run.
have [rs4' [rs5 [eq5 set5 cfg5 res5 get5]]] := update_resonator_return run.
move: eq2 eq3 eq4 eq5; rewrite get1 get2 get3 get4 => -[?] [?] [?] [?].
subst rs1' rs2' rs3' rs4'.
exists rs5; split.
- by rewrite cfg5 cfg4 cfg3 cfg2 cfg1 !dict_set_set.
- by rewrite res5 res4 res3 res2 res1.
- case: set5 => <-; case: set2 set3 set4 => <-; rewrite /set_lowest /set_highest /=.
  case eq_lo: (first _) => [lowest|e|] //= [<-] /=.
  case eq_hi: (final _) => [highest|e|] //= [<-] /=.
  split=> /=; first exact: (sort_sorted Zleb_total).
  + by exists lowest.
  + by exists highest.
  + by [].
Qed.

Lemma for_each_set_resonator (rs : seq string) :
  forall st st',
    for_each set_resonator rs st = (Return tt, st') ->
    resonators st' = resonators st /\
    forall r,
      if r \in rs
      then exists2 res, get_resonator st' r = Return res & derived res
      else get_resonator st' r = get_resonator st r.
Proof.
elim: rs => [|r0 rs IH] st st'; first by case=> <-.
move=> run; have [st1 run1 run2] := and_then_return (run : and_then _ _ = _).
have [rs0 [eq_cfg eq_rs ok0]] := set_resonator_return run1.
have [eq_rs' ok'] := IH _ _ run2; split; first by rewrite eq_rs'.
move=> r; move: (ok' r); rewrite in_cons /get_resonator eq_cfg dict_get_set.
case: (r \in rs); first by rewrite orbT.
rewrite orbF [r == r0]eq_sym; case: eqP => // _ ->.
by exists rs0.
Qed.

(** What the code leaves under R2 after that run. *)
Example load_sample_R2 :
  exists rs,
    [/\ get_resonator (load already_loaded sample_manager).2 "R2" = Return rs,
        resonators (load already_loaded sample_manager).2 = [:: "R2"%string],
        readout_levels rs = [:: 0; 1; 2]%Z,
        lowest_readout_levels rs = Some 0%Z /\
        highest_readout_levels rs = Some 2%Z
      & n_readout_levels rs = Some 3].
Proof. by eexists; split; [vm_compute; reflexivity | | | | ]. Qed.

End VariablesFacts.

(** ** More on the truncation of the heralding mask *)

Module TruncationFacts.

Import Mask MaskFacts.

Lemma truncate_columns_balanced (fuel n_pass_min : nat) (cols : seq nat) (a : ndarray) :
  (forall i, i \in cols -> passing (column a i) <= n_pass_min) ->
  truncate_columns fuel.+1 n_pass_min cols a = Return a.
Proof.
elim: cols => [|i cols IH] //= le_n.
rewrite ltnNge le_n ?mem_head //=; apply: IH => j j_in.
by apply: le_n; rewrite in_cons j_in orbT.
Qed.

Lemma np_min_balanced (a : ndarray) (n : nat) :
  0 < ncols a -> (forall i, i < ncols a -> passing (column a i) = n) ->
  np_min (passing_counts a) = Return n.
Proof.
move=> nc_gt0 eq_n; have [m -> min_m] := np_min_passing_counts nc_gt0.
congr Return; apply: (is_min_passing_unique min_m); split.
  by move=> i /eq_n ->.
by exists 0 => //; rewrite eq_n.
Qed.

Lemma nth_truncated (n : nat) (c c' : seq Z) (k : nat) :
  truncated n c c' -> k < size c ->
  nth 0%Z c' k = nth 0%Z c k \/ nth 0%Z c' k = (-1)%Z.
Proof.
case=> k0 [le_k0 -> _ _] lt_k; rewrite nth_cat size_nseq nth_nseq.
case: ltnP => [_|le_k]; first by right.
by left; rewrite nth_drop subnKC.
Qed.

(** X1: the truncation is idempotent: run on a mask it has returned, it
    returns that mask unchanged, within one turn of the loops. *)
Theorem truncate_idempotent (fuel fuel' : nat) (a : ndarray) :
  well_shaped a -> 0 < ncols a -> size (rows a) < fuel ->
  exists a' : ndarray,
    truncate fuel a = Return a' /\ truncate fuel'.+1 a' = Return a'.
Proof.
move=> wf nc_gt0 lt_fuel.
have [n [a' [run _ [wf' shape'] cols']]] := truncate_balances_columns wf nc_gt0 lt_fuel.
exists a'; split=> //; case/andP: shape' => /eqP eq_nc _.
rewrite /truncate (@np_min_balanced a' n) ?eq_nc //=.
apply: truncate_columns_balanced => i; rewrite mem_iota add0n => lt_i.
by rewrite cols'.
Qed.

(** X2: the truncation writes nothing but the sentinel: the mask it returns
    has the shape of the combined mask, every entry is the entry of the
    combined mask or -1, and an entry that passes in the result passed
    before. *)
Theorem truncate_writes_sentinel_only (fuel : nat) (a : ndarray) :
  well_shaped a -> 0 < ncols a -> size (rows a) < fuel ->
  exists a' : ndarray,
    [/\ truncate fuel a = Return a', well_shaped a' /\ same_shape a' a,
        forall k i, k < size (rows a) -> i < ncols a ->
          entry a' k i = entry a k i \/ entry a' k i = (-1)%Z
      & forall k i, k < size (rows a) -> i < ncols a ->
          entry a' k i = 0%Z -> entry a k i = 0%Z].
Proof.
move=> wf nc_gt0 lt_fuel.
have [n [a' [run _ [wf' shape'] cols']]] := truncate_spec wf nc_gt0 lt_fuel.
have eq_sz : size (rows a') = size (rows a) by case/andP: shape' => _ /eqP.
have either k i : k < size (rows a) -> i < ncols a ->
    entry a' k i = entry a k i \/ entry a' k i = (-1)%Z.
  move=> lt_k lt_i; rewrite -!column_entry ?eq_sz //.
  by apply: nth_truncated (cols' i lt_i) _; rewrite size_column.
exists a'; split=> // k i lt_k lt_i.
by case: (either k i lt_k lt_i) => -> //.
Qed.

(** X3: a sweep point without any passing shot empties the mask: when one
    column of the combined mask has no 0, [n_pass_min] is 0 and the mask
    returned has no passing entry in any column. *)
Theorem truncate_without_pass (fuel : nat) (a : ndarray) (i0 : nat) :
  well_shaped a -> size (rows a) < fuel ->
  i0 < ncols a -> passing (column a i0) = 0 ->
  exists a' : ndarray,
    [/\ truncate fuel a = Return a', is_min_passing a 0
      & forall k i, k < size (rows a) -> i < ncols a -> entry a' k i != 0%Z].
Proof.
move=> wf lt_fuel lt_i0 none.
have nc_gt0 : 0 < ncols a by apply: leq_ltn_trans lt_i0.
have [n [a' [run min_n [_ shape'] cols']]] := truncate_balances_columns wf nc_gt0 lt_fuel.
have n0 : n = 0.
  by apply/eqP; rewrite -leqn0 -none; case: min_n => le_n _; apply: le_n.
exists a'; split=> //; first by rewrite -n0.
move=> k i lt_k lt_i; have /eqP := cols' i lt_i.
have eq_sz : size (rows a') = size (rows a) by case/andP: shape' => _ /eqP.
rewrite n0 -leqn0 leqNgt -has_count -all_predC => /allP none_i.
rewrite -column_entry ?eq_sz //.
by apply: (none_i (nth 0%Z (column a' i) k)); rewrite mem_nth // size_column eq_sz.
Qed.

(** Runs of X1, X2 and X3. *)
Lemma truncate_idempotent_scenario_B :
  exists a' : ndarray,
    truncate 11 scenario_B = Return a' /\ truncate 1 a' = Return a'.
Proof. by apply: (@truncate_idempotent 11 0 scenario_B). Defined.

Lemma truncate_writes_sentinel_only_scenario_B :
  exists a' : ndarray,
    [/\ truncate 11 scenario_B = Return a', well_shaped a' /\ same_shape a' scenario_B,
        forall k i, k < size (rows scenario_B) -> i < ncols scenario_B ->
          entry a' k i = entry scenario_B k i \/ entry a' k i = (-1)%Z
      & forall k i, k < size (rows scenario_B) -> i < ncols scenario_B ->
          entry a' k i = 0%Z -> entry scenario_B k i = 0%Z].
Proof. by apply: (@truncate_writes_sentinel_only 11 scenario_B). Defined.

Lemma truncate_without_pass_dead_column :
  exists a' : ndarray,
    [/\ truncate 3 Batch.dead_column = Return a', is_min_passing Batch.dead_column 0
      & forall k i, k < size (rows Batch.dead_column) -> i < ncols Batch.dead_column ->
          entry a' k i != 0%Z].
Proof. by apply: (@truncate_without_pass 3 Batch.dead_column 0). Defined.

End TruncationFacts.

(** ** More on process_data *)

Module BatchFacts.

Import Mask Process PyFacts LinalgFacts ProcessFacts CorrectionFacts Batch.
Import GRing.Theory.

Section Routines.

Variables (iq : Type) (lib : processing iq) (model : Type).

Implicit Types (st : process_manager iq) (d : data_dict iq) (r k : string).

Lemma pointwise_keys (R : string -> data_dict iq -> data_dict iq -> Prop)
  (m m' : dict (data_dict iq)) :
  pointwise R m m' -> unzip1 m' = unzip1 m.
Proof.
by elim: m m' => [|[r d] m IH] [|[r' d'] m'] //= [-> _ /IH ->].
Qed.

Lemma batch_only_refl st : batch_only st st.
Proof.
split=> //; first by case: st.
by move=> m ->; exists m; split=> // k _; apply: pointwise_refl.
Qed.

Lemma batch_only_trans st1 st2 st3 :
  batch_only st1 st2 -> batch_only st2 st3 -> batch_only st1 st3.
Proof.
case=> eq2 none2 some2 [eq3 none3 some3]; split.
- by rewrite eq3 {1}eq2.
- by move=> /none2 /none3.
- move=> m /some2 [m2 [eq_m2 keys2 raw2]].
  have [m3 [eq_m3 keys3 raw3]] := some3 m2 eq_m2.
  exists m3; split=> //; first by rewrite keys3.
  by move=> k k_raw; apply: pointwise_trans (raw2 k k_raw) (raw3 k k_raw) => ? ? ? ? -> ->.
Qed.

Lemma for_items_keys (body : string -> stmt iq) (m : dict (data_dict iq)) :
  unzip1 (for_items body m).2 = unzip1 m.
Proof.
elim: m => [|[r d] m IH] //=.
case: (body r d) => [[[]|e|] d1] //=.
by case: (for_items body m) IH => [o m1] /= ->.
Qed.

Lemma for_measurement_batch_only (body : string -> stmt iq) st :
  (forall k, k \in raw_keys -> forall r d, dict_get (body r d).2 k = dict_get d k) ->
  batch_only st (for_measurement body st).2.
Proof.
move=> keep; rewrite /for_measurement.
case eq_m: (measurement st) => [m|]; last first.
  by split=> //=; [case: st eq_m => /= ? ? ? ? ? ? ? ? -> | rewrite eq_m].
have := for_items_keys body m; have := fun k kr => for_items_other m (keep k kr).
case: (for_items body m) => [o m'] /= raw keys; split=> //=.
  by rewrite eq_m.
by rewrite eq_m => _ [<-]; exists m'.
Qed.

Lemma raw_keys_kept_by_loops st r d k (mask : ndarray) :
  k \in raw_keys ->
  [/\ dict_get (heralding_classify lib st r d).2 k = dict_get d k,
      dict_get (heralding_correct lib st mask r d).2 k = dict_get d k,
      dict_get (classification_body lib st r d).2 k = dict_get d k
    & dict_get (bare_body lib st r d).2 k = dict_get d k].
Proof.
move=> k_raw; split.
- by rewrite /heralding_classify; keeps_key;
     move: k_raw; rewrite !inE => /orP [] /eqP ->.
- by rewrite /heralding_correct; keeps_key;
     move: k_raw; rewrite !inE => /orP [] /eqP ->.
- by rewrite /classification_body /classification_normalize; keeps_key;
     move: k_raw; rewrite !inE => /orP [] /eqP ->.
- by rewrite /bare_body; keeps_key;
     move: k_raw; rewrite !inE => /orP [] /eqP ->.
Qed.

(** X4: whatever the flags and however it ends, [process_data] changes
    nothing but the batch: the flags, the configuration of the channels, what
    was printed and the yaml file are as before; the batch keeps its
    channels in their order, and the raw data of every channel. *)
Theorem process_data_changes_batch_only (fuel : nat) st
  (m0 : dict (data_dict iq)) (f : model) :
  batch_only st (process_data lib fuel st m0 f).2.
Proof.
have loop body : (forall k r d, k \in raw_keys ->
                    dict_get (body r d).2 k = dict_get d k) ->
    forall st1, batch_only st1 (for_measurement body st1).2.
  by move=> keep st1; apply: for_measurement_batch_only => k kr r d; apply: keep.
have kept st1 mask k r d (kr : k \in raw_keys) :=
  raw_keys_kept_by_loops st1 r d mask kr.
rewrite /process_data; case: (customized st); first exact: batch_only_refl.
case: (heralding st); last first.
  case: (classification st); apply: loop => k r d kr.
    by case: (kept st (Ndarray 0 [::]) k r d kr).
  by case: (kept st (Ndarray 0 [::]) k r d kr).
have : batch_only st (for_measurement (heralding_classify lib st) st).2.
  by apply: loop => k r d kr; case: (kept st (Ndarray 0 [::]) k r d kr).
rewrite /heralding_routine.
case: (for_measurement _ st) => [[[]|e|] st1] //= step1.
case: (heralding_test fuel st1) => [mask|e|] //=.
apply: batch_only_trans step1 _; apply: loop => k r d kr.
by case: (kept st1 mask k r d kr).
Qed.

Lemma config_n_return st r (n : nat) :
  config_n_readout_levels st r = Return n ->
  exists2 ch, config st r = Return ch & n_readout_levels ch = Some n.
Proof.
rewrite /config_n_readout_levels; case: (config st r) => [ch|e|] //=.
by case eq_n: (n_readout_levels ch) => [n'|] //= [<-]; exists ch.
Qed.

(** X5: the default routine, when it returns, has stored for every channel
    in [to_fit] the mean over axis 1 of the auto-rotated, rotated raw
    readout; it has consulted neither the means, nor the covariances, nor
    the correction matrix, and has stored no population. *)
Theorem bare_routine_stores_average (fuel : nat) st st'
  (m0 : dict (data_dict iq)) (f : model) :
  customized st = false -> heralding st = false -> classification st = false ->
  process_data lib fuel st m0 f = (Return tt, st') ->
  exists m m',
    [/\ measurement st = Some m, measurement st' = Some m'
      & pointwise (fun r d d' =>
          exists ch n h v1 v2 v3,
            [/\ config st r = Return ch /\ n_readout_levels ch = Some n,
                dict_get d "Heterodyned_readout" = Return h,
                [/\ rotate_IQ lib h (IQ_rotation_angle ch) = Return v1,
                    autorotate_IQ lib v1 n = Return v2
                  & np_mean_axis1 lib v2 = Return v3],
                dict_get d' "to_fit" = Return v3
              & forall k, k \in [:: "PopulationNormalized_readout";
                                   "PopulationCorrected_readout"]%string ->
                  dict_get d' k = dict_get d k]) m m'].
Proof.
move=> no_custom no_herald no_classif.
rewrite /process_data no_custom no_herald no_classif /bare_routine.
case/for_measurement_return=> m [m' [eq_m -> run]]; exists m, m'; split=> //.
elim: m m' run {eq_m} => [|[r d] m IH] [|[r' d'] m'] //= [-> run_d /IH run_m].
split=> // {run_m}.
have kept k : k \in [:: "PopulationNormalized_readout";
                       "PopulationCorrected_readout"]%string ->
    dict_get d' k = dict_get d k.
  move=> k_in; have -> : d' = (bare_body lib st r d).2 by rewrite run_d.
  by rewrite /bare_body; keeps_key; move: k_in; rewrite !inE => /orP [] /eqP ->.
move: run_d; rewrite /bare_body /rotate_readout /publish.
case/then_return=> d3 /then_return [d2 /then_return [d1]].
case/store_return=> v1 rhs1 -> /store_return [v2 rhs2 ->].
case/store_return=> v3 rhs3 -> /store_return [v4 /= rhs4 eq_d'].
have [h eq_h {}rhs1] := bind_return rhs1.
have [ch eq_ch {}rhs1] := bind_return rhs1.
have [x2 eq_x2 {}rhs2] := bind_return rhs2.
have [n /config_n_return [ch' eq_ch' eq_n] {}rhs2] := bind_return rhs2.
have [x3 eq_x3 {}rhs3] := bind_return rhs3.
rewrite dict_get_set /= in eq_x2; rewrite dict_get_set /= in eq_x3.
rewrite dict_get_set /= in rhs4; rewrite eq_ch in eq_ch'.
case: eq_x2 eq_x3 rhs4 eq_ch' => ? [?] [?] [?]; subst x2 x3 v4 ch'.
by exists ch, n, h, v1, v2, v3; split=> //; rewrite eq_d' dict_get_set.
Qed.

(** X6: the classification routine, when it returns, has stored for every
    channel in [to_fit] the solve of the correction matrix against the
    normalized population of the classified, rotated raw readout, the
    population being taken without a mask. *)
Theorem classification_routine_composes (fuel : nat) st st'
  (m0 : dict (data_dict iq)) (f : model) :
  customized st = false -> heralding st = false -> classification st = true ->
  process_data lib fuel st m0 f = (Return tt, st') ->
  exists m m',
    [/\ measurement st = Some m, measurement st' = Some m'
      & pointwise (fun r d d' =>
          exists ch n h v1 v2 b x,
            [/\ config st r = Return ch /\ n_readout_levels ch = Some n,
                dict_get d "Heterodyned_readout" = Return h,
                [/\ rotate_IQ lib h (IQ_rotation_angle ch) = Return v1,
                    gmm_predict lib v1 (IQ_means ch) (IQ_covariances ch)
                    = Return v2
                  & normalize_population lib v2 n None = Return (Floats b)],
                linalg_solve lib (corr_matrix ch) b = Return x
              & dict_get d' "to_fit" = Return (Floats x)]) m m'].
Proof.
move=> no_custom no_herald classif.
rewrite /process_data no_custom no_herald classif /classification_routine.
case/for_measurement_return=> m [m' [eq_m -> run]]; exists m, m'; split=> //.
elim: m m' run {eq_m} => [|[r d] m IH] [|[r' d'] m'] //= [-> run_d /IH run_m].
split=> // {run_m}.
have [ch [b [x [eq_ch eq_b _ fit solved]]]] := classification_body_return run_d.
move: run_d; rewrite /classification_body.
case/then_return=> d4 /then_return [d3 run3 run4] run5.
have eq_b3 : dict_get d3 "PopulationNormalized_readout" = Return (Floats b).
  rewrite -eq_b; have -> : d' = (publish "PopulationCorrected_readout" d4).2.
    by rewrite run5.
  have -> : d4 = (correct lib st r d3).2 by rewrite run4.
  by rewrite /publish /correct !store_other.
move: run3; rewrite /classification_normalize /rotate_readout /predict.
case/then_return=> d2 /then_return [d1].
case/store_return=> v1 rhs1 -> /store_return [v2 rhs2 ->].
case/store_return=> v3 rhs3 eq_d3.
have [h eq_h {}rhs1] := bind_return rhs1.
have [ch1 eq_ch1 {}rhs1] := bind_return rhs1.
have [x2 eq_x2 {}rhs2] := bind_return rhs2.
have [ch2 eq_ch2 {}rhs2] := bind_return rhs2.
have [x3 eq_x3 {}rhs3] := bind_return rhs3.
have [n /config_n_return [ch3 eq_ch3 eq_n] {}rhs3] := bind_return rhs3.
rewrite eq_d3 dict_get_set /= in eq_b3; rewrite dict_get_set /= in eq_x2.
rewrite dict_get_set /= in eq_x3; rewrite eq_ch in eq_ch1 eq_ch2 eq_ch3.
case: eq_b3 eq_x2 eq_x3 eq_ch1 eq_ch2 eq_ch3 => ? [?] [?] [?] [?] [?].
subst v3 x2 x3 ch1 ch2 ch3.
by exists ch, n, h, v1, v2, b, x; split.
Qed.

Lemma mx_of_inj (n p : nat) (x b : seq (seq rat)) :
  Linalg.rectangular n p x -> Linalg.rectangular n p b ->
  Linalg.mx_of n p x = Linalg.mx_of n p b -> x = b.
Proof.
case/andP=> /eqP size_x /all_nthP rows_x /andP [/eqP size_b /all_nthP rows_b] eq_mx.
apply: (@eq_from_nth _ [::]); first by rewrite size_x size_b.
move=> i; rewrite size_x => lt_i.
have size_xi : size (nth [::] x i) = p.
  by apply/eqP; apply: rows_x; rewrite size_x.
have size_bi : size (nth [::] b i) = p.
  by apply/eqP; apply: rows_b; rewrite size_b.
apply: (@eq_from_nth _ 0%R); first by rewrite size_xi size_bi.
move=> j; rewrite size_xi => lt_j.
by have := congr1 (fun M : 'M_(n, p) => M (Ordinal lt_i) (Ordinal lt_j)) eq_mx;
   rewrite !mxE.
Qed.

Lemma size_identity (n : nat) : size (Linalg.identity n) = n.
Proof. by rewrite /Linalg.identity size_map size_iota. Qed.

(** X7: in the classification routine, run with the exact solver, a
    channel whose correction matrix is an identity matrix, as
    [check_IQ_matrices] generates it, gets its normalized population back as
    the corrected one and as [to_fit]. *)
Theorem identity_correction_is_noop (fuel : nat) st st'
  (m0 : dict (data_dict iq)) (f : model) :
  customized st = false -> heralding st = false -> classification st = true ->
  process_data (exact lib) fuel st m0 f = (Return tt, st') ->
  exists m m',
    [/\ measurement st = Some m, measurement st' = Some m'
      & pointwise (fun r d d' =>
          forall ch n, config st r = Return ch ->
            corr_matrix ch = Linalg.identity n ->
            dict_get d' "PopulationCorrected_readout"
            = dict_get d' "PopulationNormalized_readout" /\
            dict_get d' "to_fit"
            = dict_get d' "PopulationNormalized_readout") m m'].
Proof.
move=> no_custom no_herald classif.
rewrite /process_data no_custom no_herald classif /classification_routine.
case/for_measurement_return=> m [m' [eq_m -> run]]; exists m, m'; split=> //.
elim: m m' run {eq_m} => [|[r d] m IH] [|[r' d'] m'] //= [-> run_d /IH run_m].
split=> // {run_m} ch n eq_ch eq_corr.
have [ch' [b [x [eq_ch' -> -> -> solved]]]] := classification_body_return run_d.
move: eq_ch' solved; rewrite eq_ch => -[<-]; rewrite eq_corr /=.
case/solve_return; rewrite size_identity solve_identity_unit mul1mx.
by move=> _ rect_b rect_x _ /(mx_of_inj rect_x rect_b) ->.
Qed.

Lemma dict_get_absent (V : Type) (d : dict V) k :
  k \notin unzip1 d -> dict_get d k = Raise KeyError.
Proof.
elim: d => [|[k0 v0] d IH] //=; rewrite in_cons negb_or eq_sym.
by case/andP=> /negbTE -> /IH.
Qed.

Lemma first_loop_raises st r d :
  "Heterodyned_readout"%string \notin unzip1 d ->
  first_loop lib st r d = (Raise KeyError, d).
Proof.
move=> /dict_get_absent absent; rewrite /first_loop.
by case: (heralding st); [|case: (classification st)];
   rewrite /heralding_classify /classification_body /classification_normalize
           /bare_body /then_ /rotate_readout /store /= absent.
Qed.

(** X8: a channel of the batch without [Heterodyned_readout] ends
    [process_data] with a [KeyError], in each of the three routines that
    read the batch: the channels before it have been processed by the first
    loop of the routine, that channel and those after it are as they
    were. *)
Theorem missing_readout_raises_KeyError (fuel : nat) st
  (m0 : dict (data_dict iq)) (f : model) (pre pre' post : dict (data_dict iq))
  r d :
  customized st = false ->
  measurement st = Some (pre ++ (r, d) :: post) ->
  for_items (first_loop lib st) pre = (Return tt, pre') ->
  "Heterodyned_readout"%string \notin unzip1 d ->
  process_data lib fuel st m0 f
  = (Raise KeyError, set_measurement st (Some (pre' ++ (r, d) :: post))).
Proof.
move=> no_custom eq_m run_pre absent.
have failed : for_measurement (first_loop lib st) st
              = (Raise KeyError, set_measurement st (Some (pre' ++ (r, d) :: post))).
  rewrite /for_measurement eq_m (for_items_cat _ run_pre).
  by rewrite (for_items_raise _ (first_loop_raises st r absent)).
move: failed; rewrite /process_data no_custom /first_loop /heralding_routine.
by case: (heralding st) => [->|] //; case: (classification st).
Qed.

End Routines.

End BatchFacts.

(** ** Runs of the routines *)

Module BatchRuns.

Import Mask Process PyFacts LinalgFacts ProcessFacts CorrectionFacts Runs Batch.
Import GRing.Theory.
Local Open Scope ring_scope.

Local Arguments Linalg.solve : simpl never.

Lemma run_bare :
  process_data Demo.lib 0 bare_batch [::] Demo.no_model
  = (Return tt, averaged_batch).
Proof.
by rewrite /process_data /= /bare_routine /for_measurement /=.
Qed.

Lemma run_identity :
  process_data Demo.lib 0 (Demo.classification_batch (Linalg.identity 2)) [::]
    Demo.no_model
  = (Return tt, identity_corrected_batch).
Proof.
rewrite /process_data /= /classification_routine /for_measurement /=.
rewrite /classification_body {1 2}/then_ normalize_two_shots.
have unit_id : Linalg.mx_of 2 2 (Linalg.identity 2) \in unitmx.
  by rewrite (solve_identity_unit 2) unitmx1.
by rewrite /correct /publish /store /= /Linalg.solve /= unit_id.
Qed.

(** A run of X5. *)
Lemma bare_routine_stores_average_two_shots :
  exists m m',
    [/\ measurement bare_batch = Some m, measurement averaged_batch = Some m'
      & pointwise (fun r d d' =>
          exists ch n h v1 v2 v3,
            [/\ config bare_batch r = Return ch /\ n_readout_levels ch = Some n,
                dict_get d "Heterodyned_readout" = Return h,
                [/\ rotate_IQ Demo.lib h (IQ_rotation_angle ch) = Return v1,
                    autorotate_IQ Demo.lib v1 n = Return v2
                  & np_mean_axis1 Demo.lib v2 = Return v3],
                dict_get d' "to_fit" = Return v3
              & forall k, k \in [:: "PopulationNormalized_readout";
                                   "PopulationCorrected_readout"]%string ->
                  dict_get d' k = dict_get d k]) m m'].
Proof.
apply: (@BatchFacts.bare_routine_stores_average Demo.iq Demo.lib unit 0
          bare_batch averaged_batch [::] Demo.no_model).
- reflexivity.
- reflexivity.
- reflexivity.
- exact: run_bare.
Defined.

(** A run of X6. *)
Lemma classification_routine_composes_skewed :
  exists m m',
    [/\ measurement (Demo.classification_batch Demo.skewed) = Some m,
        measurement Demo.corrected_batch = Some m'
      & pointwise (fun r d d' =>
          exists ch n h v1 v2 b x,
            [/\ config (Demo.classification_batch Demo.skewed) r = Return ch
                /\ n_readout_levels ch = Some n,
                dict_get d "Heterodyned_readout" = Return h,
                [/\ rotate_IQ Demo.lib h (IQ_rotation_angle ch) = Return v1,
                    gmm_predict Demo.lib v1 (IQ_means ch) (IQ_covariances ch)
                    = Return v2
                  & normalize_population Demo.lib v2 n None = Return (Floats b)],
                linalg_solve Demo.lib (corr_matrix ch) b = Return x
              & dict_get d' "to_fit" = Return (Floats x)]) m m'].
Proof.
apply: (@BatchFacts.classification_routine_composes Demo.iq Demo.lib unit 0
          (Demo.classification_batch Demo.skewed) Demo.corrected_batch [::]
          Demo.no_model).
- reflexivity.
- reflexivity.
- reflexivity.
- exact: run_skewed.
Defined.

(** A run of X7. *)
Lemma identity_correction_is_noop_two_shots :
  exists m m',
    [/\ measurement (Demo.classification_batch (Linalg.identity 2)) = Some m,
        measurement identity_corrected_batch = Some m'
      & pointwise (fun r d d' =>
          forall ch n,
            config (Demo.classification_batch (Linalg.identity 2)) r = Return ch ->
            corr_matrix ch = Linalg.identity n ->
            dict_get d' "PopulationCorrected_readout"
            = dict_get d' "PopulationNormalized_readout" /\
            dict_get d' "to_fit"
            = dict_get d' "PopulationNormalized_readout") m m'].
Proof.
apply: (@BatchFacts.identity_correction_is_noop Demo.iq Demo.lib unit 0
          (Demo.classification_batch (Linalg.identity 2))
          identity_corrected_batch [::] Demo.no_model).
- reflexivity.
- reflexivity.
- reflexivity.
- exact: run_identity.
Defined.

(** A run of X8: the second channel has no raw data. *)
Lemma missing_readout_raises_KeyError_second :
  process_data Demo.lib 0 second_without_raw [::] Demo.no_model
  = (Raise KeyError,
     set_measurement second_without_raw
       (Some ([:: ("R1"%string, averaged_readout)]
              ++ ("R2"%string, [::]) :: [::]))).
Proof.
apply: (@BatchFacts.missing_readout_raises_KeyError Demo.iq Demo.lib unit 0
          second_without_raw [::] Demo.no_model
          [:: ("R1"%string, Demo.raw_readout)]
          [:: ("R1"%string, averaged_readout)] [::] "R2" [::]).
- reflexivity.
- reflexivity.
- reflexivity.
- reflexivity.
Defined.

End BatchRuns.

(** ** More on load and check_IQ_matrices *)

Module LoadFacts.

Import Process PyFacts CheckFacts.

Section Check.

Variable iq : Type.

Implicit Types (st : process_manager iq) (ch : channel) (r : string).

Lemma dict_set_same (V : Type) (d : dict V) (k : string) (v : V) :
  dict_get d k = Return v -> dict_set d k v = d.
Proof.
elim: d => [|[k0 v0] d IH] //=.
by case: (eqVneq k0 k) => [-> [->]|_ /IH ->].
Qed.

Lemma set_channels_same st : set_channels st (channels st) = st.
Proof. by case: st. Qed.

(** What one turn of the loop leaves alone, however it ends. *)
Lemma check_channel_frame r st :
  let st' := (check_channel r st).2 in
  [/\ [/\ customized st' = customized st, heralding st' = heralding st
        & classification st' = classification st],
      measurement st' = measurement st,
      resonators st' = resonators st /\ yaml_file st' = yaml_file st
    & unzip1 (channels st') = unzip1 (channels st)].
Proof.
rewrite /check_channel; case eq_ch: (dict_get (channels st) r) => [ch|e|] //=.
have r_in := dict_get_mem eq_ch.
by case: ifP => _ /=; split=> //; rewrite !unzip1_dict_set ?unzip1_dict_set.
Qed.

Lemma check_channels_frame (rs : seq string) st :
  let st' := (check_channels rs st).2 in
  [/\ [/\ customized st' = customized st, heralding st' = heralding st
        & classification st' = classification st],
      measurement st' = measurement st,
      resonators st' = resonators st /\ yaml_file st' = yaml_file st
    & unzip1 (channels st') = unzip1 (channels st)].
Proof.
elim: rs st => [|r rs IH] st //=.
have := check_channel_frame r st.
case: (check_channel r st) => [[[]|e|] st1] //=.
case=> [[c1 h1 k1] m1 [r1 y1] u1]; have /= [[c2 h2 k2] m2 [r2 y2] u2] := IH st1.
by split; [split|..]; rewrite ?c2 ?h2 ?k2 ?m2 ?r2 ?y2 ?u2.
Qed.

Lemma check_channels_keys (rs : seq string) st st' :
  check_channels rs st = (Return tt, st') ->
  all (fun r => r \in unzip1 (channels st)) rs.
Proof.
elim: rs st => [|r rs IH] st //=.
have := check_channel_frame r st.
case eq1: (check_channel r st) => [[[]|e|] st1] //= [_ _ _ u1] /IH.
rewrite u1 => ->; rewrite andbT; move: eq1; rewrite /check_channel.
by case eq_ch: (dict_get (channels st) r) => [ch|e|] //= _; apply: dict_get_mem eq_ch.
Qed.

Lemma checked_consistent ch :
  [/\ readout_levels (checked ch) = readout_levels ch,
      n_readout_levels (checked ch) = Some (size (readout_levels ch))
    & shapes_agree (size (readout_levels ch)) (checked ch)].
Proof.
rewrite /checked; case: ifP => [agree|_]; split=> //.
exact: (shapes_agree_default (size (readout_levels ch))).
Qed.

Lemma check_channel_fixed r st ch :
  dict_get (channels st) r = Return (checked ch) ->
  check_channel r st = (Return tt, st).
Proof.
move=> eq_ch; rewrite /check_channel eq_ch.
have [eq_levels eq_n agree] := checked_consistent ch.
have eta c : n_readout_levels c = Some (size (readout_levels c)) ->
    Channel (readout_levels c) (Some (size (readout_levels c)))
      (IQ_rotation_angle c) (IQ_means c) (IQ_covariances c) (corr_matrix c) = c.
  by case: c => /= ? ? ? ? ? ? ->.
have eq_n' : n_readout_levels (checked ch)
              = Some (size (readout_levels (checked ch))).
  by rewrite eq_n eq_levels.
rewrite (eta _ eq_n').
by rewrite eq_levels agree (dict_set_same eq_ch) set_channels_same.
Qed.

(** X9: once [load] has returned, the resonators are the keys that the
    parent's load left and that start with 'R', in the order of the
    configuration; every one of them keeps its readout levels and ends with
    [n_readout_levels] equal to their number and with matrices of that many
    rows; the channels under the other keys, the flags and the batch are
    what the parent's load left. *)
Theorem load_leaves_consistent_channels
  (super_load : process_manager iq -> outcome unit * process_manager iq) st st' :
  load super_load st = (Return tt, st') ->
  exists st0,
    [/\ super_load st = (Return tt, st0),
        resonators st' = [seq key <- unzip1 (channels st0) | startswith "R" key],
        forall r, r \in resonators st' ->
          exists ch ch',
            [/\ dict_get (channels st0) r = Return ch,
                dict_get (channels st') r = Return ch',
                readout_levels ch' = readout_levels ch,
                n_readout_levels ch' = Some (size (readout_levels ch'))
              & shapes_agree (size (readout_levels ch')) ch'],
        forall key ch, ~~ startswith "R" key -> key != "resonators"%string ->
          dict_get (channels st0) key = Return ch ->
          dict_get (channels st') key = Return ch
      & [/\ measurement st' = measurement st0,
            customized st' = customized st0, heralding st' = heralding st0
          & classification st' = classification st0]].
Proof.
rewrite /load; case loaded: (super_load st) => [[[]|e|] st0] //.
rewrite /check_IQ_matrices /=.
set rs := [seq key <- _ | _]; set st1 := set_resonators st0 rs => run.
exists st0.
have mem_rs : all (fun r => r \in unzip1 (channels st1)) rs.
  by apply/allP => r; rewrite mem_filter => /andP [].
have [st2 []] := check_channels_return mem_rs.
rewrite run => -[<-] [_ eq_rs] _ get' _.
have /= := check_channels_frame rs st1; rewrite run /=.
case=> [[eq_c eq_h eq_k] eq_m _ _].
split=> //.
- move=> r; rewrite eq_rs /= => r_in.
  have /dict_mem_get [ch eq_ch] : r \in unzip1 (channels st0).
    by move: r_in; rewrite mem_filter => /andP [].
  have [eq_levels eq_n agree] := checked_consistent ch.
  exists ch, (checked ch); rewrite get' /= eq_ch r_in eq_levels.
  by split.
- move=> key ch not_R _ eq_ch; rewrite get' /= eq_ch.
  by rewrite mem_filter (negbTE not_R).
Qed.

(** X10: a second check changes nothing: once [check_IQ_matrices] has
    returned, a further call returns with the same configuration and prints
    no warning. *)
Theorem check_IQ_matrices_idempotent st st' :
  check_IQ_matrices st = (Return tt, st') ->
  check_IQ_matrices st' = (Return tt, st').
Proof.
rewrite /check_IQ_matrices => run.
have mem_rs := check_channels_keys run.
have [st1 []] := check_channels_return mem_rs.
rewrite run => -[<-] [_ eq_rs] _ get' _; rewrite eq_rs.
have fixed r : r \in resonators st -> exists ch,
    dict_get (channels st') r = Return (checked ch).
  move=> r_in; have /dict_mem_get [ch eq_ch] := allP mem_rs r r_in.
  by exists ch; rewrite get' eq_ch r_in.
elim: (resonators st) fixed => [|r rs IH] fixed //=.
have [ch /check_channel_fixed ->] := fixed r (mem_head _ _).
by apply: IH => r' r'_in; apply: fixed; rewrite in_cons r'_in orbT.
Qed.

End Check.

(** Runs of X9 and X10 on the configuration of [Demo.mismatched_manager]. *)
Lemma load_leaves_consistent_channels_mismatched :
  let st' := (load Batch.loaded_mismatched Demo.mismatched_manager).2 in
  "R1"%string \in resonators st' /\
  exists st0,
    [/\ Batch.loaded_mismatched Demo.mismatched_manager = (Return tt, st0),
        resonators st' = [seq key <- unzip1 (channels st0) | startswith "R" key],
        forall r, r \in resonators st' ->
          exists ch ch',
            [/\ dict_get (channels st0) r = Return ch,
                dict_get (channels st') r = Return ch',
                readout_levels ch' = readout_levels ch,
                n_readout_levels ch' = Some (size (readout_levels ch'))
              & shapes_agree (size (readout_levels ch')) ch'],
        forall key ch, ~~ startswith "R" key -> key != "resonators"%string ->
          dict_get (channels st0) key = Return ch ->
          dict_get (channels st') key = Return ch
      & [/\ measurement st' = measurement st0,
            customized st' = customized st0, heralding st' = heralding st0
          & classification st' = classification st0]].
Proof.
split; first by [].
by apply: (@load_leaves_consistent_channels Demo.iq Batch.loaded_mismatched
             Demo.mismatched_manager).
Defined.

Lemma check_IQ_matrices_idempotent_mismatched :
  check_IQ_matrices (check_IQ_matrices Demo.mismatched_manager).2
  = (Return tt, (check_IQ_matrices Demo.mismatched_manager).2).
Proof.
by apply: (@check_IQ_matrices_idempotent Demo.iq Demo.mismatched_manager).
Defined.

End LoadFacts.

(** ** More on VariableManager *)

Module DerivedFacts.

Import Variables PyFacts VariablesFacts Derived.
Import GRing.Theory.
Local Open Scope ring_scope.

(** *** Loops *)

Section ForEach.

Variables (S : Type) (X : eqType) (body : X -> S -> outcome unit * S).

(** A relation between the states that every turn satisfies, however it
    ends, holds for the loop. *)
Lemma for_each_frame (R : S -> S -> Prop) (xs : seq X) :
  (forall s, R s s) -> (forall s1 s2 s3, R s1 s2 -> R s2 s3 -> R s1 s3) ->
  (forall x s, R s (body x s).2) ->
  forall s, R s (for_each body xs s).2.
Proof.
move=> refl trans step; elim: xs => [|x xs IH] s //=.
have := step x s; rewrite /and_then.
case: (body x s) => [[[]|e|] s1] //= R1.
exact: trans R1 (IH s1).
Qed.

(** What every returning turn keeps is kept by a returning loop. *)
Lemma for_each_keep (P : S -> Prop) (xs : seq X) :
  (forall x s s', body x s = (Return tt, s') -> P s -> P s') ->
  forall s s', for_each body xs s = (Return tt, s') -> P s -> P s'.
Proof.
move=> keep; elim: xs => [|x xs IH] s s' /=; first by case=> <-.
move=> run; have [s1 run1 /IH keep'] := and_then_return run.
by move=> /(keep _ _ _ run1) /keep'.
Qed.

(** What every returning turn keeps, and the turn of [x] establishes,
    holds after the loop for every [x] of the list. *)
Lemma for_each_establish (P : X -> S -> Prop) (xs : seq X) :
  (forall x s s', body x s = (Return tt, s') -> forall y, P y s -> P y s') ->
  (forall x s s', body x s = (Return tt, s') -> P x s') ->
  forall s s', for_each body xs s = (Return tt, s') ->
    forall x, x \in xs -> P x s'.
Proof.
move=> keep make; elim: xs => [|x xs IH] s s' //= run.
have [s1 run1 run'] := and_then_return run.
move=> y; rewrite in_cons => /orP [/eqP ->|]; last exact: IH run' y.
apply: (for_each_keep _ run') (make _ _ _ run1).
by move=> x' s2 s3 run2; apply: keep run2 x.
Qed.

End ForEach.

Implicit Types (st : variable_manager) (q r s : string).

(** *** A write under a subspace *)

Lemma get_qubit_entry st q qb :
  get_qubit st q = Return qb -> dict_get (config_dict st) q = Return (QubitE qb).
Proof.
by rewrite /get_qubit; case: (dict_get _ q) => [[qb'|rs|]|e|] //= [->].
Qed.

Lemma get_resonator_entry st r rs :
  get_resonator st r = Return rs ->
  dict_get (config_dict st) r = Return (ResonatorE rs).
Proof.
by rewrite /get_resonator; case: (dict_get _ r) => [[qb|rs'|]|e|] //= [->].
Qed.

Lemma rewritten_get_qubit st q0 s0 sub' st' :
  rewritten st q0 s0 sub' st' ->
  forall q, get_qubit st' q =
    if q0 == q then
      qb <- get_qubit st q0 ;;
      Return (Qubit (qubit_LO qb) (q_module qb) (q_sequencer qb) (q_out qb)
                (dict_set (subspaces qb) s0 sub'))
    else get_qubit st q.
Proof.
case=> qb [sub [eq_qb _ _ _ eq_cfg]] q.
by rewrite {1}/get_qubit eq_cfg dict_get_set eq_qb; case: eqP.
Qed.

Lemma rewritten_get_subspace st q0 s0 sub' st' :
  rewritten st q0 s0 sub' st' ->
  forall q s, get_subspace st' q s =
    if (q0 == q) && (s0 == s) then Return sub' else get_subspace st q s.
Proof.
move=> rew q s; rewrite /get_subspace (rewritten_get_qubit rew).
case: rew => qb [sub [eq_qb _ _ _ _]].
case: (eqVneq q0 q) => [<-|_] //=.
by rewrite eq_qb /= dict_get_set; case: eqP.
Qed.

Lemma rewritten_get_resonator st q0 s0 sub' st' :
  rewritten st q0 s0 sub' st' ->
  forall r, get_resonator st' r = get_resonator st r.
Proof.
case=> qb [sub [/get_qubit_entry eq_qb _ _ _ eq_cfg]] r.
rewrite /get_resonator eq_cfg dict_get_set.
by case: (eqVneq q0 r) => [<-|_] //=; rewrite eq_qb.
Qed.

Lemma same_loaded_values_refl st : same_loaded_values st st.
Proof. by []. Qed.

Lemma same_loaded_values_trans st1 st2 st3 :
  same_loaded_values st1 st2 -> same_loaded_values st2 st3 ->
  same_loaded_values st1 st3.
Proof.
case=> [[q2 r2] k2 qv2 sv2 rv2] [[q3 r3] k3 qv3 sv3 rv3]; split.
- by rewrite q3 r3.
- by rewrite k3.
- by move=> q; rewrite qv3.
- by move=> q s; rewrite sv3.
- by move=> r; rewrite rv3.
Qed.

Lemma rewritten_frame st q0 s0 sub' st' :
  rewritten st q0 s0 sub' st' -> same_loaded_values st st'.
Proof.
move=> rew; have get_q := rewritten_get_qubit rew.
have get_s := rewritten_get_subspace rew.
have get_r := rewritten_get_resonator rew.
case: rew => qb [sub [eq_qb eq_sub eq_freq lists eq_cfg]]; split=> //.
- by rewrite eq_cfg unzip1_dict_set // (dict_get_mem (get_qubit_entry eq_qb)).
- move=> q; rewrite /qubit_view get_q; case: (eqVneq q0 q) => [<-|] //.
  by rewrite eq_qb /= unzip1_dict_set // (dict_get_mem eq_sub).
- move=> q s; rewrite /subspace_view get_s.
  case: (eqVneq q0 q) => [<-|] //=; case: (eqVneq s0 s) => [<-|] //=.
  by rewrite /get_subspace eq_qb /= eq_sub /= eq_freq.
- by move=> r; rewrite /resonator_view get_r.
Qed.

Lemma rewritten_trans st q0 s0 sub1 st1 sub2 st2 :
  rewritten st q0 s0 sub1 st1 -> rewritten st1 q0 s0 sub2 st2 ->
  rewritten st q0 s0 sub2 st2.
Proof.
move=> rew1; have get_q := rewritten_get_qubit rew1 q0.
case: rew1 get_q => qb [sub [eq_qb eq_sub eq_freq [eq_qs eq_rs] eq_cfg]].
rewrite eqxx eq_qb /= => eq_qb1 [qb1 [sub' [eq_qb1' eq_sub' eq_freq' lists' eq_cfg']]].
move: eq_qb1' eq_sub' eq_cfg'; rewrite eq_qb1 => -[<-] /=.
rewrite dict_get_set eqxx => -[eq_sub1] eq_cfg'; exists qb, sub; split=> //.
- by rewrite eq_freq' -eq_sub1.
- by case: lists' => -> ->.
- by rewrite eq_cfg' eq_cfg !dict_set_set.
Qed.

Lemma put_subspace_rewritten st q s sub sub' :
  get_subspace st q s = Return sub -> freq sub' = freq sub ->
  exists2 st', put_subspace st q s sub' = Return st' & rewritten st q s sub' st'.
Proof.
rewrite /get_subspace /put_subspace.
case eq_qb: (get_qubit st q) => [qb|e|] //= eq_sub eq_freq.
by eexists; first reflexivity; exists qb, sub.
Qed.

(** *** One turn of the loop over the subspaces *)

Lemma subspace_view_return st q s (f : rat) :
  subspace_view st q s = Return f ->
  exists2 sub, get_subspace st q s = Return sub & freq sub = f.
Proof.
by rewrite /subspace_view; case: (get_subspace st q s) => [sub|e|] //= [<-]; exists sub.
Qed.

(** The turn of a decimal key either leaves the state as it is and does
    not return, or rewrites the subspace. *)
Lemma set_subspace_decimal q0 s0 st o st' :
  isdecimal s0 -> set_subspace q0 s0 st = (o, st') ->
  (o <> Return tt /\ st' = st) \/
  exists qb sub sub',
    [/\ get_qubit st q0 = Return qb /\ get_subspace st q0 s0 = Return sub,
        rewritten st q0 s0 sub' st',
        mod_freq sub' = Some (freq sub - qubit_LO qb),
        anharmonicity sub' = anharmonicity sub \/
        (exists2 fb, subspace_view st q0 (lower_subspace s0) = Return fb
                   & anharmonicity sub' = Some (freq sub - fb))
      & o = Return tt -> s0 != "01"%string ->
        exists2 fb, subspace_view st q0 (lower_subspace s0) = Return fb
                  & anharmonicity sub' = Some (freq sub - fb)].
Proof.
move=> dec; rewrite /set_subspace dec /=.
case eq_sub: (get_subspace st q0 s0) => [sub|e|] /=; try by case=> <- <-; left.
case eq_qb: (get_qubit st q0) => [qb|e|] /=; try by case=> <- <-; left.
set sub1 := Subspace _ _ _.
have [st1 eq_st1 rew1] : exists2 st1, put_subspace st q0 s0 sub1 = Return st1
                                    & rewritten st q0 s0 sub1 st1.
  exact: put_subspace_rewritten eq_sub _.
rewrite eq_st1 /=; have get1 := rewritten_get_subspace rew1.
case: (eqVneq s0 "01"%string) => [eq01|ne01].
  by case=> <- <-; right; exists qb, sub, sub1; split=> //; left.
rewrite get1 !eqxx /=.
case eq_below: (get_subspace st1 q0 _) => [below|e|] /=;
  try by case=> <- <-; right; exists qb, sub, sub1; split=> //; left.
set sub2 := Subspace _ _ _.
have [|st2 eq_st2 rew2] := @put_subspace_rewritten st1 q0 s0 sub1 sub2 _ (erefl _).
  by rewrite get1 !eqxx.
rewrite eq_st2 /= => -[<- <-]; right; exists qb, sub, sub2.
have view : subspace_view st q0 (lower_subspace s0) = Return (freq below).
  have [_ _ _ <- _] := rewritten_frame rew1.
  by rewrite /subspace_view /lower_subspace eq_below.
split=> //; first exact: rewritten_trans rew1 rew2.
- by right; exists (freq below).
- by move=> _ _; exists (freq below).
Qed.

Lemma set_subspace_frame q0 s0 st :
  same_loaded_values st (set_subspace q0 s0 st).2.
Proof.
case dec: (isdecimal s0); last by rewrite /set_subspace dec.
case run: (set_subspace q0 s0 st) => [o st'] /=.
case: (set_subspace_decimal dec run) => [[_ ->] //|].
by case=> qb [sub [sub' [_ /rewritten_frame]]].
Qed.

(** A turn keeps what earlier turns have derived. *)
Lemma set_subspace_keeps q0 s0 st o st' q s :
  set_subspace q0 s0 st = (o, st') ->
  (mod_freq_derived st q s -> mod_freq_derived st' q s) /\
  (anharmonicity_derived st q s -> anharmonicity_derived st' q s).
Proof.
case dec: (isdecimal s0); last by rewrite /set_subspace dec => -[_ <-].
move=> run; case: (set_subspace_decimal dec run) => [[_ ->] //|].
case=> qb [sub [sub' [[eq_qb eq_sub] rew eq_mod eq_anh _]]].
have get_q := rewritten_get_qubit rew; have get_s := rewritten_get_subspace rew.
have [_ _ _ view _] := rewritten_frame rew.
have eq_freq : freq sub' = freq sub.
  case: rew => qb' [sub0 [eq_qb' eq_sub0 -> _ _]].
  by move: eq_sub; rewrite /get_subspace eq_qb' /= eq_sub0 => -[->].
split.
- case=> subq [qbq [eq_subq eq_qbq mod_q]].
  case hit: ((q0 == q) && (s0 == s)).
    case/andP: hit => /eqP eq_q /eqP eq_s; subst q s.
    move: eq_qbq; rewrite eq_qb => -[eq_qbq].
    exists sub'; eexists; split; first by rewrite get_s !eqxx.
      by rewrite get_q eqxx eq_qb /=; reflexivity.
    by rewrite eq_mod eq_freq.
  have [qb' eq_qb' eq_LO] : exists2 qb', get_qubit st' q = Return qb'
                                      & qubit_LO qb' = qubit_LO qbq.
    rewrite get_q; case: (eqVneq q0 q) => [eq_q|_]; last by exists qbq.
    by move: eq_qbq; rewrite -eq_q eq_qb => -[<-] /=; eexists; first reflexivity.
  by exists subq, qb'; split=> //; rewrite ?get_s ?hit // eq_LO.
- case=> subq [below [eq_subq eq_below anh_q]].
  have [below' eq_below' eq_fb] : exists2 below',
      get_subspace st' q (lower_subspace s) = Return below'
      & freq below' = freq below.
    by apply: subspace_view_return; rewrite view /subspace_view eq_below.
  case hit: ((q0 == q) && (s0 == s)); last first.
    by exists subq, below'; split=> //; rewrite ?get_s ?hit // eq_fb.
  case/andP: hit => /eqP eq_q /eqP eq_s; subst q s.
  move: eq_subq; rewrite eq_sub => -[eq_subq]; subst subq.
  exists sub', below'; split=> //; first by rewrite get_s !eqxx.
  case: eq_anh => [->|[fb]]; first by rewrite anh_q eq_fb eq_freq.
  by rewrite /subspace_view eq_below /= eq_fb eq_freq => -[<-].
Qed.

(** A returning turn derives the entries of its subspace. *)
Lemma set_subspace_makes q s st st' :
  set_subspace q s st = (Return tt, st') -> subspace_derived st' q s.
Proof.
move=> run dec; case: (set_subspace_decimal dec run) => [[] //|].
case=> qb [sub [sub' [[eq_qb eq_sub] rew eq_mod _ eq_anh]]].
have get_q := rewritten_get_qubit rew; have get_s := rewritten_get_subspace rew.
have [_ _ _ view _] := rewritten_frame rew.
have eq_freq : freq sub' = freq sub.
  case: rew => qb' [sub0 [eq_qb' eq_sub0 -> _ _]].
  by move: eq_sub; rewrite /get_subspace eq_qb' /= eq_sub0 => -[->].
split.
  exists sub'; eexists; split; first by rewrite get_s !eqxx.
    by rewrite get_q eqxx eq_qb /=; reflexivity.
  by rewrite eq_mod eq_freq.
move=> ne01; have [fb eq_fb anh] := eq_anh (erefl _) ne01.
have [below' eq_below' eq_fb'] : exists2 below',
    get_subspace st' q (lower_subspace s) = Return below' & freq below' = fb.
  by apply: subspace_view_return; rewrite view.
by exists sub', below'; split=> //; rewrite ?get_s ?eqxx // anh eq_fb' eq_freq.
Qed.

(** *** The loop over the qubits *)

Lemma and_then_frame (S : Type) (R : S -> S -> Prop) (m : outcome unit * S)
  (k : S -> outcome unit * S) (a : S) :
  (forall a1 a2 a3 : S, R a1 a2 -> R a2 a3 -> R a1 a3) ->
  R a m.2 -> (forall a1 : S, R a1 (k a1).2) -> R a (and_then m k).2.
Proof.
by move=> trans; case: m => [[[]|e|] a1] //= R1 Rk; apply: trans R1 (Rk a1).
Qed.

Lemma set_qubit_frame q0 st : same_loaded_values st (set_qubit q0 st).2.
Proof.
rewrite /set_qubit; case: (get_qubit st q0) => [qb|e|] //=.
apply: for_each_frame => //; first exact: same_loaded_values_trans.
by move=> s st1; apply: set_subspace_frame.
Qed.

Lemma subspace_derived_kept (st st' : variable_manager) q s :
  (mod_freq_derived st q s -> mod_freq_derived st' q s) ->
  (anharmonicity_derived st q s -> anharmonicity_derived st' q s) ->
  subspace_derived st q s -> subspace_derived st' q s.
Proof.
move=> keep_mod keep_anh derived dec; have [/keep_mod ok_mod ok_anh] := derived dec.
by split=> // /ok_anh /keep_anh.
Qed.

Lemma qubit_view_return st q v :
  qubit_view st q = Return v ->
  exists2 qb, get_qubit st q = Return qb
            & v = (qubit_LO qb, q_module qb, q_sequencer qb, q_out qb,
                   unzip1 (subspaces qb)).
Proof.
by rewrite /qubit_view; case: (get_qubit st q) => [qb|e|] //= [<-]; exists qb.
Qed.

Lemma set_qubit_keeps_subspace q0 st st' q s :
  set_qubit q0 st = (Return tt, st') ->
  subspace_derived st q s -> subspace_derived st' q s.
Proof.
rewrite /set_qubit; case: (get_qubit st q0) => [qb|e|] //=.
apply: (@for_each_keep _ _ _ (fun st1 => subspace_derived st1 q s)).
move=> s0 st1 st2 run.
by have [keep_mod keep_anh] := set_subspace_keeps q s run; apply: subspace_derived_kept.
Qed.

Lemma qubit_derived_kept (st st' : variable_manager) q :
  same_loaded_values st st' ->
  (forall s, subspace_derived st q s -> subspace_derived st' q s) ->
  qubit_derived st q -> qubit_derived st' q.
Proof.
case=> _ _ view _ _ keep [qb eq_qb derived].
have: qubit_view st' q = Return (qubit_LO qb, q_module qb, q_sequencer qb,
                                  q_out qb, unzip1 (subspaces qb)).
  by rewrite view /qubit_view eq_qb.
case/qubit_view_return=> qb' eq_qb' [_ _ _ _ eq_keys].
exists qb' => // s; rewrite -eq_keys => s_in.
exact: keep (derived s s_in).
Qed.

Lemma set_qubit_keeps q0 st st' q :
  set_qubit q0 st = (Return tt, st') -> qubit_derived st q -> qubit_derived st' q.
Proof.
move=> run; apply: qubit_derived_kept.
  by have := set_qubit_frame q0 st; rewrite run.
by move=> s; apply: set_qubit_keeps_subspace run.
Qed.

Lemma set_qubit_makes q st st' :
  set_qubit q st = (Return tt, st') -> qubit_derived st' q.
Proof.
move=> run; have := set_qubit_frame q st; rewrite run /= => -[_ _ view _ _].
move: run; rewrite /set_qubit.
case eq_qb: (get_qubit st q) => [qb|e|] //= run.
have: qubit_view st' q = Return (qubit_LO qb, q_module qb, q_sequencer qb,
                                  q_out qb, unzip1 (subspaces qb)).
  by rewrite view /qubit_view eq_qb.
case/qubit_view_return=> qb' eq_qb' [_ _ _ _ eq_keys].
exists qb' => // s; rewrite -eq_keys; move: s.
apply: (@for_each_establish _ _ _ (fun s st1 => subspace_derived st1 q s)) run.
- move=> s0 st1 st2 run1 s.
  by have [keep_mod keep_anh] := set_subspace_keeps q s run1; apply: subspace_derived_kept.
- by move=> s0 st1 st2; apply: set_subspace_makes.
Qed.

(** *** The loop over the resonators *)

Lemma update_resonator_get_qubit r (f : resonator -> outcome resonator) st :
  forall q, get_qubit (update_resonator r f st).2 q = get_qubit st q.
Proof.
move=> q; rewrite /update_resonator.
case eq_rs: (get_resonator st r) => [rs|e|] //=.
case: (f rs) => [rs'|e|] //=.
rewrite /get_qubit /= dict_get_set; case: (eqVneq r q) => [<-|] //=.
by rewrite (get_resonator_entry eq_rs).
Qed.

Lemma Zleb_trans : transitive Z.leb.
Proof. by move=> y x z /Z.leb_le ? /Z.leb_le ?; apply/Z.leb_le; lia. Qed.

Lemma sorted_levels_idem (l : seq Z) :
  sorted_levels (sorted_levels l) = sorted_levels l.
Proof. exact: (sorted_sort Zleb_trans (sort_sorted Zleb_total l)). Qed.

(** A write under a resonator that keeps what was loaded. *)
Lemma update_resonator_frame r (f : resonator -> outcome resonator) st :
  (forall rs rs', f rs = Return rs' ->
     [/\ r_freq rs' = r_freq rs, resonator_LO rs' = resonator_LO rs,
         r_module rs' = r_module rs, r_sequencer rs' = r_sequencer rs
       & sorted_levels (readout_levels rs') = sorted_levels (readout_levels rs)]) ->
  same_loaded_values st (update_resonator r f st).2.
Proof.
move=> keep; have get_q := update_resonator_get_qubit r f st.
split.
- rewrite /update_resonator; case eq_rs: (get_resonator st r) => [rs|e|] //=.
  by case: (f rs) => [rs'|e|].
- rewrite /update_resonator; case eq_rs: (get_resonator st r) => [rs|e|] //=.
  case: (f rs) => [rs'|e|] //=.
  by rewrite unzip1_dict_set // (dict_get_mem (get_resonator_entry eq_rs)).
- by move=> q; rewrite /qubit_view get_q.
- by move=> q s; rewrite /subspace_view /get_subspace get_q.
- move=> r'; rewrite /update_resonator.
  case eq_rs: (get_resonator st r) => [rs|e|] //=.
  case eq_rs': (f rs) => [rs'|e|] //=.
  rewrite /resonator_view /get_resonator /= dict_get_set.
  case: (eqVneq r r') => [<-|] //=.
  rewrite (get_resonator_entry eq_rs) /=.
  by have [-> -> -> -> ->] := keep _ _ eq_rs'.
Qed.

Lemma set_resonator_frame r st : same_loaded_values st (set_resonator r st).2.
Proof.
have trans := same_loaded_values_trans.
rewrite /set_resonator.
apply: and_then_frame => // [|st1].
  by apply: update_resonator_frame => rs rs' [<-].
apply: and_then_frame => // [|st2].
  by apply: update_resonator_frame => rs rs' [<-] /=; rewrite sorted_levels_idem.
apply: and_then_frame => // [|st3].
  apply: update_resonator_frame => rs rs'; rewrite /set_lowest.
  by case: (first _) => [lowest|e|] //= [<-].
apply: and_then_frame => // [|st4].
  apply: update_resonator_frame => rs rs'; rewrite /set_highest.
  by case: (final _) => [highest|e|] //= [<-].
by apply: update_resonator_frame => rs rs' [<-].
Qed.

Lemma set_resonator_get_qubit r st :
  forall q, get_qubit (set_resonator r st).2 q = get_qubit st q.
Proof.
pose R st1 st2 := forall q, get_qubit st2 q = get_qubit st1 q.
have trans : forall st1 st2 st3, R st1 st2 -> R st2 st3 -> R st1 st3.
  by move=> st1 st2 st3 R12 R23 q; rewrite R23.
have step f st1 : R st1 (update_resonator r f st1).2.
  exact: update_resonator_get_qubit.
rewrite /set_resonator.
by do 4![apply: (and_then_frame trans) => // ?].
Qed.

Lemma set_parameters_frame st :
  same_loaded_values st (set_parameters st).2.
Proof.
have trans := same_loaded_values_trans.
rewrite /set_parameters; apply: and_then_frame => // [|st1].
  by apply: for_each_frame => // q st1; apply: set_qubit_frame.
by apply: for_each_frame => // r st2; apply: set_resonator_frame.
Qed.

Lemma set_resonator_makes r st st' :
  set_resonator r st = (Return tt, st') -> resonator_derived st' r.
Proof.
rewrite /set_resonator => run.
have [st1 /update_resonator_return [rs0 [rs1 [_ set1 _ _ get1]]] {}run] :=
  and_then_return run.
have [st2 /update_resonator_return [rs1' [rs2 [eq2 set2 _ _ get2]]] {}run] :=
  and_then_return run.
have [st3 /update_resonator_return [rs2' [rs3 [eq3 set3 _ _ get3]]] {}run] :=
  and_then_return run.
have [st4 /update_resonator_return [rs3' [rs4 [eq4 set4 _ _ get4]]] {}run] :=
  and_then_return run.
have [rs4' [rs5 [eq5 set5 _ _ get5]]] := update_resonator_return run.
move: eq2 eq3 eq4 eq5; rewrite get1 get2 get3 get4 => -[?] [?] [?] [?].
subst rs1' rs2' rs3' rs4'; exists rs5 => //.
case: set5 => <-; case: set1 set2 set3 set4 => <- [<-].
rewrite /set_lowest /set_highest /=.
case: (first _) => [lowest|e|] //= [<-] /=.
by case: (final _) => [highest|e|] //= [<-].
Qed.

Lemma set_resonator_keeps r0 st st' r :
  set_resonator r0 st = (Return tt, st') ->
  resonator_derived st r -> resonator_derived st' r.
Proof.
move=> run; case: (eqVneq r0 r) => [<- _|ne]; first exact: set_resonator_makes run.
have [rs' [eq_cfg _ _]] := set_resonator_return run.
by rewrite /resonator_derived /get_resonator eq_cfg dict_get_set (negbTE ne).
Qed.

Lemma qubit_derived_same_qubits (st st' : variable_manager) q :
  (forall q', get_qubit st' q' = get_qubit st q') ->
  qubit_derived st q -> qubit_derived st' q.
Proof.
move=> same [qb eq_qb derived]; exists qb; first by rewrite same.
move=> s /derived ok dec; have [ok_mod ok_anh] := ok dec; split.
  by case: ok_mod => sub [qb' [eq_sub eq_qb' eq_mod]];
     exists sub, qb'; split=> //; rewrite /get_subspace same.
move=> /ok_anh [sub [below [eq_sub eq_below eq_anh]]].
by exists sub, below; split=> //; rewrite /get_subspace same.
Qed.

(** What a returning [set_parameters] has derived. *)
Lemma set_parameters_return st st' :
  set_parameters st = (Return tt, st') ->
  (forall q, q \in qubits st -> qubit_derived st' q) /\
  (forall r, r \in resonators st -> resonator_derived st' r).
Proof.
rewrite /set_parameters => run.
have [st1 run1 run2] := and_then_return run.
have eq_rs : resonators st1 = resonators st.
  have := @for_each_frame _ _ set_qubit _ (qubits st) same_loaded_values_refl
            same_loaded_values_trans (fun q st2 => set_qubit_frame q st2) st.
  by rewrite run1 => -[[]].
split.
- move=> q q_in.
  have made : qubit_derived st1 q.
    move: q q_in.
    apply: (@for_each_establish _ _ _ (fun q st2 => qubit_derived st2 q)) run1.
    + by move=> q0 st2 st3 run3 q; apply: set_qubit_keeps run3.
    + by move=> q0 st2 st3; apply: set_qubit_makes.
  apply: (@for_each_keep _ _ _ (fun st2 => qubit_derived st2 q)) run2 made.
  move=> r st2 st3 run3; apply: qubit_derived_same_qubits => q'.
  by have := set_resonator_get_qubit r st2 q'; rewrite run3.
- rewrite -eq_rs.
  apply: (@for_each_establish _ _ _ (fun r st2 => resonator_derived st2 r)) run2.
  + by move=> r0 st2 st3 run3 r; apply: set_resonator_keeps run3.
  + by move=> r0 st2 st3; apply: set_resonator_makes.
Qed.

Section Load.

Variable super_load : variable_manager -> outcome unit * variable_manager.

(** The state [set_parameters] starts from in [load]. *)
Lemma load_return st st' :
  load super_load st = (Return tt, st') ->
  exists st0,
    [/\ super_load st = (Return tt, st0),
        set_parameters
          (VariableManager
             [seq k <- unzip1 (config_dict st0) | startswith "Q" k]
             [seq k <- unzip1 (config_dict st0) | startswith "R" k]
             (config_dict st0)) = (Return tt, st')
      & check_module_sequencer_LO st' = Return tt].
Proof.
rewrite /load => run; have [st0 run0 {}run] := and_then_return run.
have [st2 run2] := and_then_return run.
by case eq_chk: (check_module_sequencer_LO st2) => [[]|e|] // [<-]; exists st0.
Qed.

(** C10: once [load] has returned, the resonators are the keys of the
    loaded configuration that start with 'R', and every one of them has as
    [readout_levels] the loaded levels, none lost and none added, in
    ascending order; they are not empty, [lowest_readout_levels] is their
    first element, [highest_readout_levels] their last, and
    [n_readout_levels] their number. *)
Theorem load_derives_readout_levels st st' :
  load super_load st = (Return tt, st') ->
  exists st0,
    [/\ super_load st = (Return tt, st0),
        resonators st' = [seq k <- unzip1 (config_dict st0) | startswith "R" k]
      & forall r, r \in resonators st' ->
          exists rs0 rs : resonator,
            [/\ get_resonator st0 r = Return rs0 /\ get_resonator st' r = Return rs,
                perm_eq (readout_levels rs) (readout_levels rs0) /\
                sorted Z.leb (readout_levels rs),
                readout_levels rs != [::] /\
                lowest_readout_levels rs = Some (head 0%Z (readout_levels rs)),
                highest_readout_levels rs = Some (last 0%Z (readout_levels rs))
              & n_readout_levels rs = Some (size (readout_levels rs))]].
Proof.
case/load_return=> st0 [run0 run _]; exists st0.
have := set_parameters_frame (VariableManager
          [seq k <- unzip1 (config_dict st0) | startswith "Q" k]
          [seq k <- unzip1 (config_dict st0) | startswith "R" k]
          (config_dict st0)).
rewrite run /= => -[[_ eq_rs] _ _ _ view]; split=> // r r_in.
move: run; rewrite /set_parameters => run.
have [stq _ /for_each_set_resonator [eq_rs' /(_ r)]] := and_then_return run.
rewrite -eq_rs' r_in => -[rs eq_r [ok_sorted [lowest eq_lo ok_lo] [highest eq_hi ok_hi] ok_n]].
have := view r; rewrite {1}/resonator_view eq_r /=.
rewrite /resonator_view /get_resonator /=.
case eq_e: (dict_get (config_dict st0) r) => [[qb|rs0|]|e|] //= [_ _ _ _ eq_levels].
exists rs0, rs; split=> //.
- split=> //; move: eq_levels; rewrite /sorted_levels.
  rewrite (sorted_sort Zleb_trans ok_sorted) => ->.
  by rewrite perm_sort.
- move: eq_lo ok_lo; rewrite /first.
  by case: (readout_levels rs) => [|x l] //= [->].
- move: eq_hi ok_hi; rewrite /final.
  by case: (readout_levels rs) => [|x l] //= [->].
Qed.


(** X12: once [load] has returned, every qubit of the list has, under every
    subspace with a decimal key, [mod_freq] equal to the frequency of the
    subspace minus the LO of the qubit, and, unless the key is '01',
    [anharmonicity] equal to the frequency of the subspace minus that of the
    subspace whose key is the number of the key minus 11, in two digits. *)
Theorem load_derives_qubit_entries st st' :
  load super_load st = (Return tt, st') ->
  forall q, q \in qubits st' ->
    exists2 qb, get_qubit st' q = Return qb
    & forall s, s \in unzip1 (subspaces qb) -> isdecimal s ->
        exists sub,
          [/\ dict_get (subspaces qb) s = Return sub,
              mod_freq sub = Some (freq sub - qubit_LO qb)
            & s != "01"%string ->
              exists2 below,
                dict_get (subspaces qb) (lower_subspace s) = Return below
                & anharmonicity sub = Some (freq sub - freq below)].
Proof.
case/load_return=> st0 [_ run _] q.
have := set_parameters_frame (VariableManager
          [seq k <- unzip1 (config_dict st0) | startswith "Q" k]
          [seq k <- unzip1 (config_dict st0) | startswith "R" k]
          (config_dict st0)).
rewrite run /= => -[[-> _] _ _ _ _] q_in.
have [/(_ q q_in) [qb eq_qb derived] _] := set_parameters_return run.
exists qb => // s s_in dec; have [ok_mod ok_anh] := derived s s_in dec.
case: ok_mod => sub [qb' [eq_sub]]; rewrite eq_qb => -[<-] eq_mod.
move: eq_sub; rewrite /get_subspace eq_qb /= => eq_sub.
exists sub; split=> // /ok_anh [sub' [below []]].
by rewrite /get_subspace eq_qb /= eq_sub => -[<-]; exists below.
Qed.

(** X13: once [load] has returned, every resonator of the list has
    [mod_freq] equal to its frequency minus its LO. *)
Theorem load_derives_resonator_mod_freq st st' :
  load super_load st = (Return tt, st') ->
  forall r, r \in resonators st' ->
    exists2 rs, get_resonator st' r = Return rs
              & r_mod_freq rs = Some (r_freq rs - resonator_LO rs).
Proof.
case/load_return=> st0 [_ run _] r.
have := set_parameters_frame (VariableManager
          [seq k <- unzip1 (config_dict st0) | startswith "Q" k]
          [seq k <- unzip1 (config_dict st0) | startswith "R" k]
          (config_dict st0)).
rewrite run /= => -[[_ ->] _ _ _ _] r_in.
by have [_ /(_ r r_in)] := set_parameters_return run.
Qed.

End Load.

(** *** The key of the subspace below *)

(** X14: for a key of two digits from 1 to 9 the key read on line 57 is
    the one with both digits lowered by one: '12' gives '01', '23' gives
    '12'. *)
Theorem lower_subspace_two_digits (a b : nat) :
  (0 < a < 10)%nat -> (0 < b < 10)%nat ->
  isdecimal (two_digits a b) /\
  lower_subspace (two_digits a b) = two_digits a.-1 b.-1.
Proof.
move=> a_ok b_ok.
have table : all (fun a' => all (fun b' =>
    isdecimal (two_digits a' b')
    && (lower_subspace (two_digits a' b') == two_digits a'.-1 b'.-1))
    (iota 1 9)) (iota 1 9) by vm_compute.
have a_in : a \in iota 1 9 by rewrite mem_iota.
have b_in : b \in iota 1 9 by rewrite mem_iota.
by have /andP [-> /eqP ->] := allP (allP table a a_in) b b_in.
Qed.

(** *** check_module_sequencer_LO *)

Lemma check_all_return (check : string -> outcome unit) (xs : seq string) :
  check_all check xs = Return tt <->
  (forall x, x \in xs -> check x = Return tt).
Proof.
elim: xs => [|x xs IH] /=; first by split.
split.
  case eq_x: (check x) => [[]|e|] //= /IH ok y.
  by rewrite in_cons => /orP [/eqP ->|/ok].
move=> ok; rewrite (ok x (mem_head _ _)) /=; apply/IH => y y_in.
by apply: ok; rewrite in_cons y_in orbT.
Qed.

Lemma check_pairs_return (check : string -> string -> outcome unit)
  (xs : seq string) :
  check_pairs check xs = Return tt <->
  (forall i j, (i < j < size xs)%nat ->
     check (nth EmptyString xs i) (nth EmptyString xs j) = Return tt).
Proof.
elim: xs => [|x xs IH] /=.
  by split=> // _ i j; rewrite ltn0 andbF.
split.
  case eq_x: (check_all (check x) xs) => [[]|e|] //= /IH ok [|i] [|j] //=.
    rewrite ltnS => lt_j; move/check_all_return: eq_x; apply.
    exact: mem_nth.
  by rewrite !ltnS; apply: ok.
move=> ok.
have -> /= : check_all (check x) xs = Return tt.
  apply/check_all_return => y /(nthP EmptyString) [j lt_j <-].
  exact: (ok 0%nat j.+1).
by apply/IH => i j lt_ij; apply: (ok i.+1 j.+1).
Qed.

Lemma check_qubit_pair_return st q1 q2 :
  check_qubit_pair st q1 q2 = Return tt <->
  exists a b, [/\ get_qubit st q1 = Return a, get_qubit st q2 = Return b
                 & qubits_compatible a b].
Proof.
rewrite /check_qubit_pair /qubits_compatible.
case: (get_qubit st q2) => [b|e|] /=; try by split=> // -[a [b []]].
case: (get_qubit st q1) => [a|e|] /=; try by split=> // -[a [b' []]].
rewrite [q_module b == _]eq_sym [q_sequencer b == _]eq_sym.
rewrite [q_out b == _]eq_sym [qubit_LO b == _]eq_sym.
split.
  move=> ok; exists a, b; split=> //; move: ok.
  case: (q_module a == q_module b) => //=.
  case: (q_sequencer a != q_sequencer b) => //=.
  case: (q_out a == q_out b) => //=.
  by case: (qubit_LO a == qubit_LO b).
case=> a' [b' [[<-] [<-]]].
case: (q_module a == q_module b) => //=.
case: (q_sequencer a != q_sequencer b) => //=.
case: (q_out a == q_out b) => //=.
by case: (qubit_LO a == qubit_LO b).
Qed.

Lemma check_resonator_pair_return st r1 r2 :
  check_resonator_pair st r1 r2 = Return tt <->
  exists a b, [/\ get_resonator st r1 = Return a, get_resonator st r2 = Return b
                 & resonators_compatible a b].
Proof.
rewrite /check_resonator_pair /resonators_compatible.
case: (get_resonator st r2) => [b|e|] /=; try by split=> // -[a [b []]].
case: (get_resonator st r1) => [a|e|] /=; try by split=> // -[a [b' []]].
rewrite [r_module b == _]eq_sym [r_sequencer b == _]eq_sym.
rewrite [resonator_LO b == _]eq_sym.
split.
  move=> ok; exists a, b; split=> //; move: ok.
  case: (r_module a == r_module b) => //=.
  case: (r_sequencer a != r_sequencer b) => //=.
  by case: (resonator_LO a == resonator_LO b).
case=> a' [b' [[<-] [<-]]].
case: (r_module a == r_module b) => //=.
case: (r_sequencer a != r_sequencer b) => //=.
by case: (resonator_LO a == resonator_LO b).
Qed.

(** X15: [check_module_sequencer_LO] returns exactly when every two
    qubits of the list have entries that, if they are on one module, are on
    different sequencers and, if moreover on one output, have the same LO,
    and every two resonators of the list have entries that, if they are on
    one module, are on different sequencers and have the same LO.  A list
    of one name is not looked up at all. *)
Theorem check_module_sequencer_LO_returns_iff st :
  check_module_sequencer_LO st = Return tt <->
  (forall i j, (i < j < size (qubits st))%nat ->
     exists a b,
       [/\ get_qubit st (nth EmptyString (qubits st) i) = Return a,
           get_qubit st (nth EmptyString (qubits st) j) = Return b
         & qubits_compatible a b]) /\
  (forall i j, (i < j < size (resonators st))%nat ->
     exists a b,
       [/\ get_resonator st (nth EmptyString (resonators st) i) = Return a,
           get_resonator st (nth EmptyString (resonators st) j) = Return b
         & resonators_compatible a b]).
Proof.
rewrite /check_module_sequencer_LO; split.
  case eq_q: (check_pairs _ (qubits st)) => [[]|e|] //= eq_r; split=> i j lt_ij.
    by apply/check_qubit_pair_return; move/check_pairs_return: eq_q; apply.
  by apply/check_resonator_pair_return; move/check_pairs_return: eq_r; apply.
case=> ok_q ok_r.
have -> /= : check_pairs (check_qubit_pair st) (qubits st) = Return tt.
  by apply/check_pairs_return => i j /ok_q /check_qubit_pair_return.
by apply/check_pairs_return => i j /ok_r /check_resonator_pair_return.
Qed.

(** *** transmon_parameters *)

Section Transmon.

Variable super_load : variable_manager -> outcome unit * variable_manager.
Variables (GHz kHz : rat).
Variable falpha_to_EJEC : rat -> rat -> outcome (rat * rat).
Variable get_bare_frequency :
  rat -> rat -> rat -> rat -> outcome (rat * rat * rat * rat).

(** X16: after [load], for a qubit of the list with the subspaces '01' and
    '12' and with the resonator of its number, [transmon_parameters] passes
    to [falpha_to_EJEC], or with a chi to [get_bare_frequency], the loaded
    frequency of '01' and, as anharmonicity, the loaded frequency of '12'
    minus that of '01', both divided by [u.GHz]. *)
Theorem transmon_parameters_after_load st st' q (s01 s12 : subspace)
  (rs : resonator) :
  load super_load st = (Return tt, st') ->
  q \in qubits st' ->
  get_subspace st' q "01" = Return s01 ->
  get_subspace st' q "12" = Return s12 ->
  get_resonator st' (String "R" (tail q)) = Return rs ->
  forall chi_kHz : option rat,
    transmon_parameters GHz kHz falpha_to_EJEC get_bare_frequency st' q chi_kHz
    = let f01_GHz := freq s01 / GHz in
      let alpha_GHz := (freq s12 - freq s01) / GHz in
      if chi_kHz is Some chi then
        bare <- get_bare_frequency f01_GHz alpha_GHz (r_freq rs / GHz)
                  (chi * kHz / GHz) ;;
        let: (f01_b, alpha_b, fr_b, g01) := bare in
        EJEC <- falpha_to_EJEC f01_b alpha_b ;;
        Return (EJ_EC_g EJEC.1 EJEC.2 g01)
      else
        EJEC <- falpha_to_EJEC f01_GHz alpha_GHz ;;
        Return (EJ_EC EJEC.1 EJEC.2).
Proof.
case/load_return=> st0 [_ run _].
have := set_parameters_frame (VariableManager
          [seq k <- unzip1 (config_dict st0) | startswith "Q" k]
          [seq k <- unzip1 (config_dict st0) | startswith "R" k]
          (config_dict st0)).
rewrite run /= => -[[eq_qs _] _ _ _ _] q_in eq01 eq12 eq_rs chi_kHz.
have is_Q : startswith "Q" q.
  by move: q_in; rewrite eq_qs mem_filter => /andP [].
have [/(_ q) derived _] := set_parameters_return run.
have [|qb eq_qb /(_ "12"%string)] := derived; first by rewrite -eq_qs.
have in12 : "12"%string \in unzip1 (subspaces qb).
  by move: eq12; rewrite /get_subspace eq_qb /=; apply: dict_get_mem.
case/(_ in12 (erefl _))=> _ /(_ (erefl _)) [sub [below []]].
rewrite eq12 (_ : lower_subspace "12" = "01"%string) // eq01.
move=> [<-] [<-] eq_anh.
rewrite /transmon_parameters is_Q /= /subspace_view eq01 /=.
by rewrite /get_anharmonicity eq12 /= eq_anh /= eq_rs.
Qed.

End Transmon.

(** *** Runs on the configuration [two_qubits] *)

Lemma load_two_qubits :
  load already_loaded two_qubits
  = (Return tt, (load already_loaded two_qubits).2).
Proof. by vm_compute. Qed.


Lemma load_derives_qubit_entries_two_qubits :
  exists st',
    load already_loaded two_qubits = (Return tt, st') /\
    forall q, q \in qubits st' ->
      exists2 qb, get_qubit st' q = Return qb
      & forall s, s \in unzip1 (subspaces qb) -> isdecimal s ->
          exists sub,
            [/\ dict_get (subspaces qb) s = Return sub,
                mod_freq sub = Some (freq sub - qubit_LO qb)
              & s != "01"%string ->
                exists2 below,
                  dict_get (subspaces qb) (lower_subspace s) = Return below
                  & anharmonicity sub = Some (freq sub - freq below)].
Proof.
exists (load already_loaded two_qubits).2; split; first exact: load_two_qubits.
apply: (@load_derives_qubit_entries already_loaded two_qubits).
exact: load_two_qubits.
Defined.

Lemma load_derives_resonator_mod_freq_two_qubits :
  exists st',
    load already_loaded two_qubits = (Return tt, st') /\
    forall r, r \in resonators st' ->
      exists2 rs, get_resonator st' r = Return rs
                & r_mod_freq rs = Some (r_freq rs - resonator_LO rs).
Proof.
exists (load already_loaded two_qubits).2; split; first exact: load_two_qubits.
apply: (@load_derives_resonator_mod_freq already_loaded two_qubits).
exact: load_two_qubits.
Defined.

(** A run of C10: the resonator R2 is loaded with the levels 2, 0, 1. *)
Lemma load_derives_readout_levels_sample :
  "R2"%string \in resonators (load already_loaded sample_manager).2 /\
  exists st0,
    [/\ already_loaded sample_manager = (Return tt, st0),
        resonators (load already_loaded sample_manager).2
        = [seq k <- unzip1 (config_dict st0) | startswith "R" k]
      & forall r, r \in resonators (load already_loaded sample_manager).2 ->
          exists rs0 rs : resonator,
            [/\ get_resonator st0 r = Return rs0 /\
                get_resonator (load already_loaded sample_manager).2 r = Return rs,
                perm_eq (readout_levels rs) (readout_levels rs0) /\
                sorted Z.leb (readout_levels rs),
                readout_levels rs != [::] /\
                lowest_readout_levels rs = Some (head 0%Z (readout_levels rs)),
                highest_readout_levels rs = Some (last 0%Z (readout_levels rs))
              & n_readout_levels rs = Some (size (readout_levels rs))]].
Proof.
split; first by vm_compute.
apply: (@load_derives_readout_levels already_loaded sample_manager).
by vm_compute.
Defined.

Lemma lower_subspace_two_digits_12 :
  isdecimal (two_digits 1 2) /\ lower_subspace (two_digits 1 2) = two_digits 0 1.
Proof. by apply: (@lower_subspace_two_digits 1 2). Defined.

(** A run of X16 for the qubit Q2, with the identity in place of the two
    library functions. *)
Lemma transmon_parameters_after_load_Q2 :
  exists (s01 s12 : subspace) (rs : resonator),
    forall chi_kHz : option rat,
      transmon_parameters 1 (1 / 1000%:R) (fun f alpha => Return (f, alpha))
        (fun f alpha fr chi => Return (f, alpha, fr, chi))
        (load already_loaded two_qubits).2 "Q2" chi_kHz
      = let f01_GHz := freq s01 / 1 in
        let alpha_GHz := (freq s12 - freq s01) / 1 in
        if chi_kHz is Some chi then
          bare <- Return (f01_GHz, alpha_GHz, r_freq rs / 1,
                          chi * (1 / 1000%:R) / 1) ;;
          let: (f01_b, alpha_b, fr_b, g01) := bare in
          EJEC <- Return (f01_b, alpha_b) ;;
          Return (EJ_EC_g EJEC.1 EJEC.2 g01)
        else
          EJEC <- Return (f01_GHz, alpha_GHz) ;;
          Return (EJ_EC EJEC.1 EJEC.2).
Proof.
do 3!eexists.
apply: (@transmon_parameters_after_load already_loaded 1 (1 / 1000%:R)
          (fun f alpha => Return (f, alpha))
          (fun f alpha fr chi => Return (f, alpha, fr, chi))
          two_qubits (load already_loaded two_qubits).2 "Q2").
- exact: load_two_qubits.
- by vm_compute.
- by vm_compute; reflexivity.
- by vm_compute; reflexivity.
- by vm_compute; reflexivity.
Defined.

End DerivedFacts.
